(** * Sudoku generator and solver (sudoku-gfx.py): a shallow embedding

    The solving engine of [src/Adafruit_Files/sudoku-gfx.py] is embedded as
    Rocq functions and its specification is checked against them.

    Conventions of the embedding.
    - A board is a Python list of 81 cells, each [None] or a digit; here a
      [list (option nat)].  [get] is [board[pos]] and [put] is
      [board[pos] = n].  Python raises [IndexError] outside the list; the
      embedding reads [None] and writes nothing there, and every theorem
      carries the hypothesis that boards have 81 cells, under which no index
      of the program leaves the list.
    - Candidate masks are Python integers used as bit sets: [N] with
      [N.land], [N.lor], [N.lxor], [N.shiftl].
    - The process-wide random generator is an explicit [oracle]: the list of
      the numbers still to be drawn.  Theorems quantify over all oracles.
    - [while] loops take fuel; a result of [None] means that the fuel ran
      out, never that the program returned [None]. *)

From Stdlib Require Import Ascii String.
From Stdlib Require Import List Arith Lia NArith ZArith Bool Permutation Sorted.
From Stdlib Require QArith Qround.
Import ListNotations.

Set Implicit Arguments.

(** ** Lists as Python lists *)

Fixpoint set_nth {A : Type} (l : list A) (i : nat) (v : A) : list A :=
  match l, i with
  | [], _ => []
  | _ :: t, 0 => v :: t
  | h :: t, S j => h :: set_nth t j v
  end.

(** [del l[i]] *)
Fixpoint del_nth {A : Type} (l : list A) (i : nat) : list A :=
  match l, i with
  | [], _ => []
  | _ :: t, 0 => t
  | h :: t, S j => h :: del_nth t j
  end.

(** ** Loops with an early [return] *)

Inductive flow (A R : Type) : Type :=
| Next (a : A)
| Ret (r : R).
Arguments Next {A R} a.
Arguments Ret {A R} r.

Fixpoint for_each {X A R : Type} (body : A -> X -> flow A R) (xs : list X) (a : A)
  : flow A R :=
  match xs with
  | [] => Next a
  | x :: xs' =>
      match body a x with
      | Next a' => for_each body xs' a'
      | Ret r => Ret r
      end
  end.

(** ** The random source *)

Definition oracle := list nat.

Definition draw (o : oracle) : nat * oracle :=
  match o with
  | [] => (0, [])
  | x :: o' => (x, o')
  end.

(** [random.randint(lo, hi)]: an integer [lo <= r <= hi]. *)
Definition randint (lo hi : nat) (o : oracle) : nat * oracle :=
  let (x, o') := draw o in (lo + x mod (S (hi - lo)), o').

Definition insert_at {A : Type} (k : nat) (x : A) (l : list A) : list A :=
  firstn k l ++ x :: skipn k l.

(** [random.shuffle(l)] is a library call: the model returns a permutation
    of [l] chosen by the draws (each element is inserted at a drawn place). *)
Fixpoint shuffle {A : Type} (l : list A) (o : oracle) : list A * oracle :=
  match l with
  | [] => ([], o)
  | x :: l' =>
      let (s, o1) := shuffle l' o in
      let (k, o2) := draw o1 in
      (insert_at (k mod S (length s)) x s, o2)
  end.

(** [random.sample(range(n), n)] *)
Definition sample_range (n : nat) (o : oracle) : list nat * oracle :=
  shuffle (seq 0 n) o.

(** ** BoardModel *)

Definition cell := option nat.
Definition board := list cell.

Definition get (b : board) (pos : nat) : cell := nth pos b None.
Definition put (b : board) (pos n : nat) : board := set_nth b pos (Some n).

Definition posfor (x y axis : nat) : nat :=
  match axis with
  | 0 => x * 9 + y
  | 1 => y * 9 + x
  | _ => nth x [0; 3; 6; 27; 30; 33; 54; 57; 60] 0
         + nth y [0; 1; 2; 9; 10; 11; 18; 19; 20] 0
  end.

(** Python 3's [%] on floats: the remainder has the sign of the divisor. *)
Definition Qmod (a b : QArith_base.Q) : QArith_base.Q :=
  QArith_base.Qminus a
    (QArith_base.Qmult b
       (QArith_base.inject_Z (Qround.Qfloor (QArith_base.Qdiv a b)))).

Definition Qnat (n : nat) : QArith_base.Q := QArith_base.inject_Z (Z.of_nat n).

(** The script runs under [#!/usr/bin/python3], where [/] on two integers is
    true division and returns a float.  The float is the double nearest to
    the exact quotient; the embedding keeps the exact quotient, in [Q]. *)
Definition axisfor (pos axis : nat) : QArith_base.Q :=
  match axis with
  | 0 => QArith_base.Qdiv (Qnat pos) (Qnat 9)
  | 1 => Qnat (pos mod 9)
  | _ => QArith_base.Qplus
           (QArith_base.Qmult (QArith_base.Qdiv (Qnat pos) (Qnat 27)) (Qnat 3))
           (Qmod (QArith_base.Qdiv (Qnat pos) (Qnat 3)) (Qnat 3))
  end.

(** The same three formulas under floor division, as the specification
    reads them (row [p/9], column [p%9], box [(p/27)*3 + (p/3)%3]). *)
Definition axisfor_floor (pos axis : nat) : nat :=
  match axis with
  | 0 => pos / 9
  | 1 => pos mod 9
  | _ => (pos / 27) * 3 + (pos / 3) mod 3
  end.

(** [1 << n] *)
Definition bit (n : nat) : N := N.shiftl 1 (N.of_nat n).

Definition axismissing (b : board) (x axis : nat) : N :=
  N.lxor 511
    (fold_left
       (fun bits y =>
          match get b (posfor x y axis) with
          | Some e => N.lor bits (bit e)
          | None => bits
          end)
       (seq 0 9) 0%N).

Definition listbits (bits : N) : list nat :=
  filter (fun y => negb (N.eqb 0 (N.land bits (bit y)))) (seq 0 9).

(** [allowed[pos] &= bits] *)
Definition and_at (allowed : list N) (pos : nat) (bits : N) : list N :=
  set_nth allowed pos (N.land (nth pos allowed 0%N) bits).

Definition figurebits (b : board) : list N * list N :=
  fold_left
    (fun (st : list N * list N) axis =>
       fold_left
         (fun (st : list N * list N) x =>
            let bits := axismissing b x axis in
            let needed := snd st ++ [bits] in
            let allowed :=
              fold_left (fun al y => and_at al (posfor x y axis) bits)
                        (seq 0 9) (fst st) in
            (allowed, needed))
         (seq 0 9) st)
    (seq 0 3)
    (map (fun e : cell => match e with None => 511%N | Some _ => 0%N end) b, []).

(** ** ConstraintEngine *)

Definition guesses := list (nat * nat).

Definition pickbetter (b : option guesses) (c : nat) (t : guesses) (o : oracle)
  : option guesses * nat * oracle :=
  match b with
  | None => (Some t, 1, o)
  | Some bl =>
      if length t <? length bl then (Some t, 1, o)
      else if length bl <? length t then (Some bl, c, o)
      else
        let (r, o') := randint 0 c o in
        if r =? 0 then (Some t, c + 1, o') else (Some bl, c + 1, o')
  end.

(** The local variables of one iteration of [deduce]'s outer loop. *)
Record locals : Type := Locals {
  cur : board;
  stuck : bool;
  guess : option guesses;
  count : nat;
  rng : oracle
}.

Definition assign (s : locals) (pos n : nat) : locals :=
  Locals (put (cur s) pos n) false (guess s) (count s) (rng s).

Definition consider (s : locals) (t : guesses) : locals :=
  if stuck s then
    let '(g, c, o) := pickbetter (guess s) (count s) t (rng s) in
    Locals (cur s) (stuck s) g c o
  else s.

(** Body of [for pos in range(81)]: spots determined by direct conflicts. *)
Definition naked (allowed : list N) (s : locals) (pos : nat)
  : flow locals (board * oracle) :=
  match get (cur s) pos with
  | Some _ => Next s
  | None =>
      let numbers := listbits (nth pos allowed 0%N) in
      match numbers with
      | [] => Ret (cur s, rng s)
      | [n] => Next (assign s pos n)
      | _ => Next (consider s (map (fun n => (pos, n)) numbers))
      end
  end.

(** [spots]: the cells of line [x] whose mask has the bit of [n]. *)
Definition spots_of (allowed : list N) (x axis n : nat) : list nat :=
  filter (fun pos => negb (N.eqb (N.land (nth pos allowed 0%N) (bit n)) 0))
         (map (fun y => posfor x y axis) (seq 0 9)).

(** Body of [for n in numbers]: spots determined by elimination. *)
Definition hidden (allowed : list N) (x axis : nat) (s : locals) (n : nat)
  : flow locals (board * oracle) :=
  let spots := spots_of allowed x axis n in
  match spots with
  | [] => Ret (cur s, rng s)
  | [p] => Next (assign s p n)
  | _ => Next (consider s (map (fun pos => (pos, n)) spots))
  end.

Definition hidden_line (allowed needed : list N) (axis : nat) (s : locals) (x : nat)
  : flow locals (board * oracle) :=
  for_each (hidden allowed x axis) (listbits (nth (axis * 9 + x) needed 0%N)) s.

Definition hidden_axis (allowed needed : list N) (s : locals) (axis : nat)
  : flow locals (board * oracle) :=
  for_each (hidden_line allowed needed axis) (seq 0 9) s.

(** What [deduce] returns: [None] when the board is solved, [Some []] on a
    contradiction, [Some g] for a branch set [g]. *)
Definition verdict := option guesses.

(** One iteration of [while True]: [Ret] is a [return], [Next] loops. *)
Definition deduce_pass (b : board) (o : oracle)
  : flow (board * oracle) (board * verdict * oracle) :=
  let bits := figurebits b in
  match for_each (naked (fst bits)) (seq 0 81) (Locals b true None 0 o) with
  | Ret (b', o') => Ret (b', Some [], o')
  | Next s =>
      let bits' := if stuck s then bits else figurebits (cur s) in
      match for_each (hidden_axis (fst bits') (snd bits')) (seq 0 3) s with
      | Ret (b', o') => Ret (b', Some [], o')
      | Next s' =>
          if stuck s' then
            match guess s' with
            | None => Ret (cur s', None, rng s')
            | Some g => let (g', o') := shuffle g (rng s') in
                        Ret (cur s', Some g', o')
            end
          else Next (cur s', rng s')
      end
  end.

Fixpoint deduce_loop (fuel : nat) (b : board) (o : oracle)
  : option (board * verdict * oracle) :=
  match fuel with
  | 0 => None
  | S f =>
      match deduce_pass b o with
      | Ret r => Some r
      | Next (b', o') => deduce_loop f b' o'
      end
  end.

(** Every iteration that does not return fills a cell ([deduce_total]),
    so 82 iterations are enough on a board of 81 cells. *)
Definition deduce (b : board) (o : oracle) : option (board * verdict * oracle) :=
  deduce_loop 82 b o.

(** ** SearchEngine *)

Definition frame : Type := guesses * nat * board.

(** The search stack; the head of the list is the top (the end of the
    Python list, where [pop] and [append] work). *)
Definition stack := list frame.

Fixpoint solvenext (fuel : nat) (remembered : stack) (o : oracle)
  : option (stack * option board * oracle) :=
  match fuel with
  | 0 => None
  | S f =>
      match remembered with
      | [] => Some ([], None, o)
      | (gs, c, b) :: rest =>
          if length gs <=? c then solvenext f rest o
          else
            let remembered' := (gs, c + 1, b) :: rest in
            let (pos, n) := nth c gs (0, 0) in
            let workspace := put b pos n in
            match deduce workspace o with
            | None => None
            | Some (w, None, o') => Some (remembered', Some w, o')
            | Some (w, Some gs', o') =>
                solvenext f ((gs', 0, w) :: remembered') o'
            end
      end
  end.

Definition solveboard (fuel : nat) (original : board) (o : oracle)
  : option (stack * option board * oracle) :=
  match deduce original o with
  | None => None
  | Some (b, None, o') => Some ([], Some b, o')
  | Some (b, Some gs, o') => solvenext fuel [(gs, 0, b)] o'
  end.

Definition solution (fuel : nat) (b : board) (o : oracle)
  : option (option board * oracle) :=
  match solveboard fuel b o with
  | None => None
  | Some (_, answer, o') => Some (answer, o')
  end.

(** ** DifficultyRater *)

Definition cell_eqb (a b : cell) : bool :=
  match a, b with
  | None, None => true
  | Some x, Some y => x =? y
  | _, _ => false
  end.

Definition boardmatches (b1 b2 : board) : bool :=
  forallb (fun i => cell_eqb (get b1 i) (get b2 i)) (seq 0 81).

Definition checkpuzzle (fuel : nat) (puzzle : board) (target : option board)
           (o : oracle) : option (Z * oracle) :=
  match solveboard fuel puzzle o with
  | None => None
  | Some (_, None, o1) => Some ((-1)%Z, o1)
  | Some (state, Some answer, o1) =>
      if match target with
         | Some b => negb (boardmatches b answer)
         | None => false
         end
      then Some ((-1)%Z, o1)
      else
        let difficulty := Z.of_nat (length state) in
        match solvenext fuel state o1 with
        | None => None
        | Some (_, Some _, o2) => Some ((-1)%Z, o2)
        | Some (_, None, o2) => Some (difficulty, o2)
        end
  end.

(** ** PuzzleGenerator *)

Definition entries := list (nat * cell).

Definition entriesforboard (b : board) : list (nat * nat) :=
  flat_map (fun pos => match get b pos with
                       | Some n => [(pos, n)]
                       | None => []
                       end) (seq 0 81).

Definition boardforentries (es : entries) : board :=
  fold_left (fun b (e : nat * cell) => set_nth b (fst e) (snd e)) es (repeat None 81).

(** Body of [for pos in order]. *)
Definition reveal (b : board) (st : option (entries * board * oracle)) (pos : nat)
  : option (entries * board * oracle) :=
  match st with
  | None => None
  | Some (puzzle, deduced, o) =>
      match get deduced pos with
      | Some _ => Some (puzzle, deduced, o)
      | None =>
          match deduce (set_nth deduced pos (get b pos)) o with
          | None => None
          | Some (deduced', _, o') => Some (puzzle ++ [(pos, get b pos)], deduced', o')
          end
      end
  end.

(** Body of [for i in range(len(puzzle) - 1, -1, -1)]. *)
Definition prune (fuel : nat) (b : board) (st : option (entries * oracle)) (i : nat)
  : option (entries * oracle) :=
  match st with
  | None => None
  | Some (puzzle, o) =>
      let e := nth i puzzle (0, None) in
      let puzzle' := del_nth puzzle i in
      match checkpuzzle fuel (boardforentries puzzle') (Some b) o with
      | None => None
      | Some (rating, o') =>
          if (rating =? -1)%Z then Some (puzzle' ++ [e], o') else Some (puzzle', o')
      end
  end.

Definition makepuzzle (fuel : nat) (b : board) (o : oracle) : option (board * oracle) :=
  let (order, o1) := sample_range 81 o in
  match fold_left (reveal b) order (Some ([], repeat None 81, o1)) with
  | None => None
  | Some (puzzle, _, o2) =>
      let (puzzle1, o3) := shuffle puzzle o2 in
      match fold_left (prune fuel b) (rev (seq 0 (length puzzle1))) (Some (puzzle1, o3)) with
      | None => None
      | Some (puzzle2, o4) => Some (boardforentries puzzle2, o4)
      end
  end.

(** ** Board text *)

(** What a Python call does: it returns a value or raises an exception. *)
Inductive pyresult (A : Type) : Type :=
| Returns (v : A)
| Raises (exc : String.string).
Arguments Returns {A} v.
Arguments Raises {A} exc.

(** [str.isspace] on the code points below 256. *)
Definition isspace (c : ascii) : bool :=
  let n := nat_of_ascii c in
  ((9 <=? n) && (n <=? 13)) || ((28 <=? n) && (n <=? 32)) || (n =? 133) || (n =? 160).

(** [str.split()]: the maximal runs of characters that are not whitespace;
    [word] is the run being read. *)
Fixpoint split_ws (s word : list ascii) : list (list ascii) :=
  match s with
  | [] => match word with [] => [] | _ => [word] end
  | c :: s' =>
      if isspace c then
        match word with
        | [] => split_ws s' []
        | _ => word :: split_ws s' []
        end
      else split_ws s' (word ++ [c])
  end.

(** [x in s] for a single character [x]. *)
Definition char_in (x : ascii) (s : String.string) : bool :=
  existsb (Ascii.eqb x) (String.list_ascii_of_string s).

(** Body of [for x in w]. *)
Definition parse_char (result : board) (x : ascii) : flow board board :=
  if char_in x "|-=+"%string then Next result
  else
    let result' :=
      if char_in x "123456789"%string then result ++ [Some (nat_of_ascii x - 48 - 1)]
      else result ++ [None] in
    if length result' =? 81 then Ret result' else Next result'.

(** [parseboard] returns the board at the 81st symbol; when the text ends
    before, the function body ends without a [return]: the value is [None]. *)
Definition parseboard (str : String.string) : pyresult (option board) :=
  match for_each (fun result w => for_each parse_char w result)
                 (split_ws (String.list_ascii_of_string str) []) [] with
  | Ret result => Returns (Some result)
  | Next _ => Returns None
  end.

(** The cells a character contributes once [split] has removed the
    whitespace: nothing for a separator, a digit for [1]..[9], an empty cell
    for anything else. *)
Definition symbol_of (x : ascii) : list cell :=
  if char_in x "|-=+"%string then []
  else if char_in x "123456789"%string then [Some (nat_of_ascii x - 48 - 1)]
  else [None].

(** The significant symbols of a text as [parseboard] reads them. *)
Definition symbols (str : String.string) : board :=
  flat_map (fun x => if isspace x then [] else symbol_of x)
           (String.list_ascii_of_string str).

(** The grammar in the words of the specification: every character that is
    not a separator is significant, and a text with fewer than 81 significant
    symbols is an [InvalidBoardFormat] error. *)
Definition parse_spec (str : String.string) : pyresult (option board) :=
  let syms := flat_map symbol_of (String.list_ascii_of_string str) in
  if 81 <=? length syms then Returns (Some (firstn 81 syms))
  else Raises "InvalidBoardFormat"%string.

(** What a run of the parsing loops gives from [r] when the symbols still to
    come are [rest]. *)
Definition parsed (r rest : board) : flow board board :=
  if 81 <=? length (r ++ rest) then Ret (firstn 81 (r ++ rest)) else Next (r ++ rest).

(** * Specification predicates *)

(** The nine cells of line [x] of an axis (row 0, column 1, box 2). *)
Definition line (b : board) (x axis : nat) : list cell :=
  map (fun y => get b (posfor x y axis)) (seq 0 9).

Definition cell_eq_dec (a b : cell) : {a = b} + {a <> b}.
Proof. decide equality. apply Nat.eq_dec. Defined.

(** A solved board: 81 cells, all filled with digits 0..8, and every row,
    column and box contains each digit exactly once. *)
Definition solved (b : board) : Prop :=
  length b = 81 /\
  (forall p, p < 81 -> exists n, n < 9 /\ get b p = Some n) /\
  (forall axis x n, axis < 3 -> x < 9 -> n < 9 ->
     count_occ cell_eq_dec (line b x axis) (Some n) = 1).

(** [s] agrees with [b] on every cell that [b] has filled. *)
Definition extends (s b : board) : Prop :=
  forall p n, get b p = Some n -> get s p = Some n.

Definition is_empty (c : cell) : bool :=
  match c with None => true | Some _ => false end.

Definition empties (b : board) : nat := length (filter is_empty b).
Definition filled (b : board) : nat :=
  length (filter (fun c => negb (is_empty c)) b).

(** The options of a branch set that a board [s] agrees with. *)
Definition agrees (s : board) (pn : nat * nat) : bool :=
  cell_eqb (get s (fst pn)) (Some (snd pn)).

Definition matching (s : board) (gs : guesses) : nat :=
  length (filter (agrees s) gs).

(** Digit [m] is in the bit set [bits]. *)
Definition has (bits : N) (m : nat) : bool := N.testbit bits (N.of_nat m).

(** The offset of a position on its line, under floor division. *)
Definition offsetfor_floor (pos axis : nat) : nat :=
  match axis with
  | 0 => pos mod 9
  | 1 => pos / 9
  | _ => ((pos / 9) mod 3) * 3 + pos mod 3
  end.

(** The updates [allowed[pos] &= bits] of [figurebits], in program order. *)
Definition figure_ops (b : board) : list (nat * N) :=
  flat_map (fun axis =>
    flat_map (fun x =>
      map (fun y => (posfor x y axis, axismissing b x axis)) (seq 0 9))
      (seq 0 9))
    (seq 0 3).

Definition figure_init (b : board) : list N :=
  map (fun e : cell => match e with None => 511%N | Some _ => 0%N end) b.

(** ** Invariants of [deduce] *)

(** A branch set of board [b]: between two and nine options, all on empty
    cells, of which every solution that extends [b] takes exactly one. *)
Definition branch_of (b : board) (gs : guesses) : Prop :=
  2 <= length gs <= 9 /\
  (forall p n, In (p, n) gs -> p < 81 /\ n < 9 /\ get b p = None) /\
  (forall s, solved s -> extends s b -> matching s gs = 1).

(** An empty cell with an empty candidate mask. *)
Definition dead_cell (b : board) : Prop :=
  exists p, p < 81 /\ get b p = None /\
            listbits (nth p (fst (figurebits b)) 0%N) = [].

(** A line that misses a digit which none of its cells can take. *)
Definition dead_line (b : board) : Prop :=
  exists axis x n, axis < 3 /\ x < 9 /\
    In n (listbits (nth (axis * 9 + x) (snd (figurebits b)) 0%N)) /\
    spots_of (fst (figurebits b)) x axis n = [].

(** An empty cell with exactly one candidate. *)
Definition naked_single (b : board) : Prop :=
  exists p n, p < 81 /\ get b p = None /\
              listbits (nth p (fst (figurebits b)) 0%N) = [n].

(** Every solution of [b] is a solution of [b']. *)
Definition forced (b b' : board) : Prop :=
  forall s, solved s -> extends s b -> extends s b'.

(** The state of one pass of [deduce] that started on [b0], inside a loop
    whose masks were computed from [b1]. *)
Definition pass_inv (b0 b1 : board) (s : locals) : Prop :=
  length (cur s) = 81 /\
  extends (cur s) b1 /\
  forced b1 (cur s) /\
  filled b0 <= filled (cur s) /\
  (stuck s = true ->
   cur s = b1 /\ b1 = b0 /\ forall g, guess s = Some g -> branch_of b0 g) /\
  (stuck s = false -> filled b0 < filled (cur s)).

(** What holds when a loop of [deduce] returns a contradiction on masks
    computed from [b1]. *)
Definition pass_dead (b0 b1 : board) (r : board * oracle) : Prop :=
  length (fst r) = 81 /\
  extends (fst r) b1 /\
  forced b1 (fst r) /\
  filled b0 <= filled (fst r) /\
  (forall s, solved s -> ~ extends s b1) /\
  (dead_cell b1 \/ dead_line b1).

(** The pass has assigned a cell or has recorded a branch set. *)
Definition moved (s : locals) : Prop := stuck s = false \/ guess s <> None.

(** What [deduce] does to a board: it only fills cells, and keeps every
    solution. *)
Definition deduced (b b' : board) : Prop :=
  length b' = 81 /\ extends b' b /\ forced b b' /\ filled b <= filled b'.

(** A board on which propagation fails: some board reached from it by
    forced assignments has a dead cell or a dead line, and it has no
    solution. *)
Definition contradictory (b : board) : Prop :=
  (forall s, solved s -> ~ extends s b) /\
  exists bm, length bm = 81 /\ extends bm b /\ forced b bm /\
             (dead_cell bm \/ dead_line bm).

(** The meaning of the value returned by [deduce] on [b], the board being
    [b'] at the return. *)
Definition verdict_of (b b' : board) (v : verdict) : Prop :=
  match v with
  | None => solved b'
  | Some g => (g = [] /\ contradictory b) \/ (branch_of b' g /\ ~ naked_single b')
  end.

(** ** Invariants of the search *)

(** A frame as the search builds them: a board of 81 cells and options on
    empty cells of that board. *)
Definition wf_frame (f : frame) : Prop :=
  length (snd f) = 81 /\
  forall p n, In (p, n) (fst (fst f)) -> p < 81 /\ get (snd f) p = None.

(** From the bottom of the stack to its top every board has strictly more
    filled cells than the one below. *)
Fixpoint chain (st : stack) : Prop :=
  match st with
  | [] => True
  | f :: rest =>
      wf_frame f /\
      match rest with
      | [] => True
      | f2 :: _ => filled (snd f2) < filled (snd f)
      end /\
      chain rest
  end.

(** The stacks a search on [original] goes through, statement by statement:
    the stack [solveboard] starts with, the stack after [pop], after the
    advanced frame is appended again (this is also the stack returned with
    a solution), and after the child frame is appended.  The oracle of each
    call of [deduce] is arbitrary. *)
Inductive reachable (original : board) : stack -> Prop :=
| reach_start (o : oracle) (b : board) (gs : guesses) (o' : oracle) :
    deduce original o = Some (b, Some gs, o') ->
    reachable original [(gs, 0, b)]
| reach_pop (f : frame) (rest : stack) :
    reachable original (f :: rest) -> reachable original rest
| reach_advance (gs : guesses) (c : nat) (b : board) (rest : stack) :
    reachable original ((gs, c, b) :: rest) -> c < length gs ->
    reachable original ((gs, c + 1, b) :: rest)
| reach_push (gs : guesses) (c : nat) (b : board) (rest : stack)
             (o : oracle) (w : board) (gs' : guesses) (o' : oracle) :
    reachable original ((gs, c, b) :: rest) -> c < length gs ->
    deduce (put b (fst (nth c gs (0, 0))) (snd (nth c gs (0, 0)))) o
    = Some (w, Some gs', o') ->
    reachable original ((gs', 0, w) :: (gs, c + 1, b) :: rest).

(** A bound on the iterations that a frame on a board with [k] empty cells
    can cause: each of its options costs one iteration and a child frame
    with at most nine options on a board with fewer empty cells. *)
Fixpoint tree_bound (k : nat) : nat :=
  match k with
  | 0 => 1
  | S k' => 2 + 9 * tree_bound k'
  end.

Definition weight (f : frame) : nat :=
  1 + (length (fst (fst f)) - snd (fst f)) * tree_bound (81 - filled (snd f)).

Definition measure (st : stack) : nat := list_sum (map weight st).

(** Some digit occurs twice in a row, a column or a box. *)
Definition has_duplicate (b : board) : Prop :=
  exists axis x y y' n,
    axis < 3 /\ x < 9 /\ y < 9 /\ y' < 9 /\ y <> y' /\
    get b (posfor x y axis) = Some n /\ get b (posfor x y' axis) = Some n.

(** ** Counting the solutions still to come *)

Definition extendsb (s b : board) : bool :=
  forallb (fun p => match get b p with
                    | Some n => cell_eqb (get s p) (Some n)
                    | None => true
                    end) (seq 0 (length b)).

(** The options of a frame that are still to be tried and that lead to the
    solved board [s]: at most one. *)
Definition pending (s : board) (f : frame) : nat :=
  if extendsb s (snd f) then matching s (skipn (snd (fst f)) (fst (fst f))) else 0.

Definition pend (s : board) (st : stack) : nat := list_sum (map (pending s) st).

Definition board_eq_dec (a b : board) : {a = b} + {a <> b} :=
  list_eq_dec cell_eq_dec a b.

(** 1 when the answer is the board [s]. *)
Definition hit (s : board) (ans : option board) : nat :=
  match ans with
  | Some w => if board_eq_dec w s then 1 else 0
  | None => 0
  end.

(** [b] has exactly one solution, [s]. *)
Definition unique_solution (b s : board) : Prop :=
  solved s /\ extends s b /\ forall s', solved s' -> extends s' b -> s' = s.

(** ** The store *)

(** Python lists are objects: a variable holds a reference, [list(b)]
    makes a new object, [b[pos] = n] changes the object in place.  The
    store holds the boards allocated so far; a location is an index in it.
    The functions below are the search of [solveboard] with the boards in
    the store (the stack and the branch sets are never shared after they
    are built, and stay values). *)
Definition loc := nat.
Definition heap := list board.

Definition read (h : heap) (l : loc) : board := nth l h [].
Definition write (h : heap) (l : loc) (b : board) : heap := set_nth h l b.

(** [list(b)] *)
Definition alloc (h : heap) (b : board) : heap * loc := (h ++ [b], length h).

(** [deduce(board)] changes the list it is given. *)
Definition deduce_at (h : heap) (l : loc) (o : oracle)
  : option (heap * verdict * oracle) :=
  match deduce (read h l) o with
  | None => None
  | Some (b', v, o') => Some (write h l b', v, o')
  end.

Definition hframe : Type := guesses * nat * loc.
Definition hstack := list hframe.

Fixpoint solvenext_at (fuel : nat) (h : heap) (remembered : hstack) (o : oracle)
  : option (heap * hstack * option loc * oracle) :=
  match fuel with
  | 0 => None
  | S f =>
      match remembered with
      | [] => Some (h, [], None, o)
      | (gs, c, bl) :: rest =>
          if length gs <=? c then solvenext_at f h rest o
          else
            let remembered' := (gs, c + 1, bl) :: rest in
            let (h1, workspace) := alloc h (read h bl) in
            let (pos, n) := nth c gs (0, 0) in
            let h2 := write h1 workspace (put (read h1 workspace) pos n) in
            match deduce_at h2 workspace o with
            | None => None
            | Some (h3, None, o') => Some (h3, remembered', Some workspace, o')
            | Some (h3, Some gs', o') =>
                solvenext_at f h3 ((gs', 0, workspace) :: remembered') o'
            end
      end
  end.

Definition solveboard_at (fuel : nat) (h : heap) (original : loc) (o : oracle)
  : option (heap * hstack * option loc * oracle) :=
  let (h1, b) := alloc h (read h original) in
  match deduce_at h1 b o with
  | None => None
  | Some (h2, None, o') => Some (h2, [], Some b, o')
  | Some (h2, Some gs, o') => solvenext_at fuel h2 [(gs, 0, b)] o'
  end.

Definition solution_at (fuel : nat) (h : heap) (b : loc) (o : oracle)
  : option (heap * option loc * oracle) :=
  match solveboard_at fuel h b o with
  | None => None
  | Some (h', _, answer, o') => Some (h', answer, o')
  end.

Definition checkpuzzle_at (fuel : nat) (h : heap) (puzzle : loc)
           (target : option loc) (o : oracle) : option (heap * Z * oracle) :=
  match solveboard_at fuel h puzzle o with
  | None => None
  | Some (h1, _, None, o1) => Some (h1, (-1)%Z, o1)
  | Some (h1, state, Some answer, o1) =>
      if match target with
         | Some b => negb (boardmatches (read h1 b) (read h1 answer))
         | None => false
         end
      then Some (h1, (-1)%Z, o1)
      else
        let difficulty := Z.of_nat (length state) in
        match solvenext_at fuel h1 state o1 with
        | None => None
        | Some (h2, _, Some _, o2) => Some (h2, (-1)%Z, o2)
        | Some (h2, _, None, o2) => Some (h2, difficulty, o2)
        end
  end.

(** The loop of [ratepuzzle]: [None] when a run finds no solution. *)
Fixpoint ratepuzzle_runs (fuel : nat) (h : heap) (puzzle : loc) (samples total : nat)
         (o : oracle) : option (heap * option nat * oracle) :=
  match samples with
  | 0 => Some (h, Some total, o)
  | S k =>
      match solveboard_at fuel h puzzle o with
      | None => None
      | Some (h', _, None, o') => Some (h', None, o')
      | Some (h', state, Some _, o') =>
          ratepuzzle_runs fuel h' puzzle k (total + length state) o'
      end
  end.

(** [ratepuzzle]: -1, or [float(total) / samples], which raises on no
    sample. *)
Definition ratepuzzle_at (fuel : nat) (h : heap) (puzzle : loc) (samples : nat)
           (o : oracle) : option (heap * pyresult QArith_base.Q * oracle) :=
  match ratepuzzle_runs fuel h puzzle samples 0 o with
  | None => None
  | Some (h', None, o') =>
      Some (h', Returns (QArith_base.inject_Z (-1)), o')
  | Some (h', Some total, o') =>
      if samples =? 0 then Some (h', Raises "ZeroDivisionError"%string, o')
      else Some (h', Returns (QArith_base.Qdiv (Qnat total) (Qnat samples)), o')
  end.

(** The frame of the functional search that a frame of the store stands
    for. *)
Definition deref (h : heap) (f : hframe) : frame :=
  (fst (fst f), snd (fst f), read h (snd f)).

(** Every object of [h] is an object of [h'] and holds the same cells. *)
Definition preserved (h h' : heap) : Prop :=
  length h <= length h' /\ forall l, l < length h -> read h' l = read h l.

(** ** ratepuzzle *)



(** ** printboard *)

(** The bitmaps pasted on the background: the source image [img] (the
    empty grid; the digits at its right are cropped off), and [numbers[n]]. *)
Inductive bitmap : Type :=
| Grid
| Number (n : nat).

Definition xcoord : list nat := [15; 55; 95; 139; 179; 219; 263; 303; 343].
Definition ycoord : list nat := [56; 96; 136; 180; 220; 260; 304; 344; 384].

(** The box [numbers[i]] is cropped from, as (left, upper, right, lower). *)
Definition crop_box (i : nat) : nat * nat * nat * nat :=
  (384, i * 28, 410, (i + 1) * 28).

Definition number_width : nat := 410 - 384.
Definition number_height (i : nat) : nat := (i + 1) * 28 - i * 28.

(** The size of the background [bg]. *)
Definition bg_width : nat := 384.
Definition bg_height : nat := 426.

(** A call [bg.paste(bitmap, (x, y))]. *)
Definition paste : Type := bitmap * (nat * nat).

(** [printboard] changes the image [bg] by pasting: the model gives the
    calls it makes after the calls already made. *)
Definition printboard (b : board) (bg : list paste) : list paste :=
  fold_left
    (fun bg row =>
       fold_left
         (fun bg col =>
            match get b (posfor row col 0) with
            | Some n => bg ++ [(Number n, (nth col xcoord 0, nth row ycoord 0))]
            | None => bg
            end)
         (seq 0 9) bg)
    (seq 0 9) (bg ++ [(Grid, (0, 0))]).

(** The rectangles of two pastes of numbers do not meet. *)
Definition apart (n1 : nat) (p1 : nat * nat) (n2 : nat) (p2 : nat * nat) : Prop :=
  fst p1 + number_width <= fst p2 \/ fst p2 + number_width <= fst p1 \/
  snd p1 + number_height n1 <= snd p2 \/ snd p2 + number_height n2 <= snd p1.

(** ** Specification helpers for the entry lists and the choice of a branch *)

(** The entries of [entriesforboard] as [boardforentries] and [makepuzzle]
    hold them: the value is the cell. *)
Definition clues (es : list (nat * nat)) : entries :=
  map (fun e => (fst e, Some (snd e))) es.

(** The last entry of a list for position [p]. *)
Definition last_entry (es : entries) (p : nat) : cell :=
  match find (fun e : nat * cell => fst e =? p) (rev es) with
  | Some e => snd e
  | None => None
  end.

(** [pickbetter] called on the candidates [ts] in turn, from
    [guess, count = None, 0]. *)
Definition pick_all (ts : list guesses) (o : oracle) : option guesses * nat * oracle :=
  fold_left (fun st t => pickbetter (fst (fst st)) (snd (fst st)) t (snd st))
            ts (None, 0, o).

(** The number of candidates of [ts] that are as short as [t]. *)
Definition ties (t : guesses) (ts : list guesses) : nat :=
  length (filter (fun t' => length t' =? length t) ts).

(** ** Sample boards *)

(** A solved board: row [r] is the digits shifted by [3 r + r / 3]. *)
Definition shifted_rows : board :=
  map (fun p => Some ((p / 9 * 3 + p / 27 + p mod 9) mod 9)) (seq 0 81).

(** A puzzle with one solution, as a text that [parseboard] reads. *)
Definition sample_text : String.string :=
  "53..7....6..195....98....6.8...6...34..8.3..17...2...6.6....28....419..5....8..79"%string.

Definition sample_puzzle : board :=
  match parseboard sample_text with
  | Returns (Some b) => b
  | _ => []
  end.

(** ** The picture of a board *)

(** The paste that draws the entry [(pos, n)]: the bitmap of [n] at the
    coordinates of the column and of the row of [pos]. *)
Definition digit_paste (e : nat * nat) : paste :=
  (Number (snd e), (nth (fst e mod 9) xcoord 0, nth (fst e / 9) ycoord 0)).

(** Two pastes of numbers cover no common pixel. *)
Definition apart_pastes (p1 p2 : paste) : Prop :=
  match fst p1, fst p2 with
  | Number n1, Number n2 => apart n1 (snd p1) n2 (snd p2)
  | _, _ => True
  end.

(** A pasted number lies within the background; the grid is pasted at the
    origin. *)
Definition inside (p : paste) : Prop :=
  match fst p with
  | Number n =>
      fst (snd p) + number_width <= bg_width /\
      snd (snd p) + number_height n <= bg_height
  | Grid => snd p = (0, 0)
  end.

(** ** Invariants of [makepuzzle] *)

(** An entry that gives a cell of [B]. *)
Definition clue_of (B : board) (e : nat * cell) : Prop :=
  fst e < 81 /\ snd e = get B (fst e).

(** The first loop, after the positions [seen]: the clues are cells of the
    solved board at positions seen, one per position; [deduced] holds cells
    of the solved board only, all those seen, and every solution of the
    clues agrees with it; it is the result of a [deduce] unless still
    empty. *)
Definition reveal_inv (B : board) (seen : list nat) (puzzle : entries)
           (deduced : board) : Prop :=
  length deduced = 81 /\ extends B deduced /\
  (forall e, In e puzzle -> clue_of B e /\ In (fst e) seen) /\
  NoDup (map fst puzzle) /\
  (forall q, In q seen -> get deduced q <> None) /\
  forced (boardforentries puzzle) deduced /\
  (deduced = repeat None 81 \/ solved deduced \/ ~ naked_single deduced).

(** The second loop: the clues left still have [B] as their one solution,
    and none of those tried and kept can be dropped. *)
Definition prune_inv (B : board) (puzzle kept : entries) : Prop :=
  (forall e, In e puzzle -> clue_of B e) /\
  NoDup (map fst puzzle) /\
  unique_solution (boardforentries puzzle) B /\
  (forall e, In e kept ->
             ~ unique_solution (set_nth (boardforentries puzzle) (fst e) None) B).


(** * Position arithmetic *)

Lemma check1 (f : nat -> bool) (a : nat) :
  forallb f (seq 0 a) = true -> forall i, i < a -> f i = true.
Proof.
  intros H i Hi. rewrite forallb_forall in H. apply H, in_seq. lia.
Qed.

Lemma check2 (f : nat -> nat -> bool) (a b : nat) :
  forallb (fun i => forallb (f i) (seq 0 b)) (seq 0 a) = true ->
  forall i j, i < a -> j < b -> f i j = true.
Proof.
  intros H i j Hi Hj. apply check1 with (a := b); [|exact Hj].
  apply (check1 _ H Hi).
Qed.

Lemma check3 (f : nat -> nat -> nat -> bool) (a b c : nat) :
  forallb (fun i => forallb (fun j => forallb (f i j) (seq 0 c)) (seq 0 b)) (seq 0 a)
  = true ->
  forall i j k, i < a -> j < b -> k < c -> f i j k = true.
Proof.
  intros H i j k Hi Hj Hk. apply check1 with (a := c); [|exact Hk].
  apply (check2 _ H Hi Hj).
Qed.

(** Any axis other than 0 and 1 is the box axis. *)
Lemma posfor_box (axis x y : nat) : 2 <= axis -> posfor x y axis = posfor x y 2.
Proof. destruct axis as [|[|axis]]; intro H; try lia. reflexivity. Qed.

Lemma posfor_lt (axis x y : nat) : x < 9 -> y < 9 -> posfor x y axis < 81.
Proof.
  intros Hx Hy.
  assert (H : forall a, a < 3 -> posfor x y a < 81).
  { intros a Ha. apply Nat.ltb_lt.
    apply (@check3 (fun a x y => posfor x y a <? 81) 3 9 9);
      [reflexivity | assumption ..]. }
  destruct (Nat.lt_ge_cases axis 3) as [Ha|Ha]; [auto|].
  rewrite posfor_box by lia. apply H. lia.
Qed.

(** Under floor division [axisfor_floor] inverts [posfor] on the line index. *)
Lemma axisfor_floor_posfor (axis x y : nat) :
  axis < 3 -> x < 9 -> y < 9 -> axisfor_floor (posfor x y axis) axis = x.
Proof.
  intros Ha Hx Hy. apply Nat.eqb_eq.
  apply (@check3 (fun a x y => axisfor_floor (posfor x y a) a =? x) 3 9 9);
    [reflexivity | assumption ..].
Qed.

(** C2 (the code at the failing input).  Line 0, offset 1 of the rows is
    position 1; [axisfor] divides with [/], which under Python 3 is true
    division: the result is 1/9, not the row index 0. *)
Theorem axisfor_true_division :
  posfor 0 1 0 = 1 /\
  QArith_base.Qeq (axisfor (posfor 0 1 0) 0) (QArith_base.Qmake 1 9) /\
  ~ QArith_base.Qeq (axisfor (posfor 0 1 0) 0) (Qnat 0) /\
  axisfor_floor (posfor 0 1 0) 0 = 0.
Proof.
  repeat split; try reflexivity. intro H. discriminate H.
Qed.

(** * Board text *)

Lemma parse_char_eq (r : board) (x : ascii) :
  parse_char r x =
    match symbol_of x with
    | [] => Next r
    | c :: _ => if length (r ++ [c]) =? 81 then Ret (r ++ [c]) else Next (r ++ [c])
    end.
Proof.
  unfold parse_char, symbol_of.
  destruct (char_in x "|-=+"); [reflexivity|].
  destruct (char_in x "123456789"); reflexivity.
Qed.

Lemma symbol_of_short (x : ascii) : length (symbol_of x) <= 1.
Proof.
  unfold symbol_of. destruct (char_in x "|-=+"); simpl; [lia|].
  destruct (char_in x "123456789"); simpl; lia.
Qed.

Lemma parsed_full (r s1 s2 : board) :
  81 <= length (r ++ s1) -> parsed r (s1 ++ s2) = Ret (firstn 81 (r ++ s1)).
Proof.
  intro H. unfold parsed. rewrite app_assoc.
  replace (81 <=? length ((r ++ s1) ++ s2)) with true
    by (symmetry; apply Nat.leb_le; rewrite length_app; lia).
  f_equal. rewrite firstn_app.
  replace (81 - length (r ++ s1)) with 0 by lia. simpl. apply app_nil_r.
Qed.

Lemma parse_word_eq (w : list ascii) (r : board) :
  length r < 81 ->
  for_each parse_char w r = parsed r (flat_map symbol_of w).
Proof.
  revert r. induction w as [|x w IH]; intros r Hr; simpl.
  - unfold parsed. rewrite app_nil_r.
    replace (81 <=? length r) with false by (symmetry; apply Nat.leb_gt; lia).
    reflexivity.
  - rewrite parse_char_eq. pose proof (symbol_of_short x) as Hs.
    destruct (symbol_of x) as [|c [|c' l]]; simpl in Hs; try lia; simpl.
    + apply IH, Hr.
    + destruct (length (r ++ [c]) =? 81) eqn:E.
      * apply Nat.eqb_eq in E.
        change (c :: flat_map symbol_of w) with ([c] ++ flat_map symbol_of w).
        rewrite parsed_full by lia.
        rewrite firstn_all2 by lia. reflexivity.
      * apply Nat.eqb_neq in E. rewrite length_app in E. simpl in E.
        rewrite IH by (rewrite length_app; simpl; lia).
        unfold parsed. rewrite <- app_assoc. reflexivity.
Qed.

Lemma parse_words_eq (ws : list (list ascii)) (r : board) :
  length r < 81 ->
  for_each (fun result w => for_each parse_char w result) ws r
  = parsed r (flat_map symbol_of (concat ws)).
Proof.
  revert r. induction ws as [|w ws IH]; intros r Hr; simpl.
  - unfold parsed. rewrite app_nil_r.
    replace (81 <=? length r) with false by (symmetry; apply Nat.leb_gt; lia).
    reflexivity.
  - rewrite parse_word_eq by exact Hr. rewrite flat_map_app.
    unfold parsed at 1.
    destruct (81 <=? length (r ++ flat_map symbol_of w)) eqn:E.
    + apply Nat.leb_le in E. rewrite parsed_full by exact E. reflexivity.
    + apply Nat.leb_gt in E. rewrite IH by exact E.
      unfold parsed. rewrite <- app_assoc. reflexivity.
Qed.

Lemma split_ws_concat (s word : list ascii) :
  concat (split_ws s word) = word ++ filter (fun c => negb (isspace c)) s.
Proof.
  revert word. induction s as [|c s IH]; intro word; simpl.
  - destruct word; simpl; [reflexivity|]. now rewrite !app_nil_r.
  - destruct (isspace c); simpl.
    + destruct word; simpl; rewrite IH; reflexivity.
    + rewrite IH, <- app_assoc. reflexivity.
Qed.

Lemma symbols_filter (s : list ascii) :
  flat_map symbol_of (filter (fun c => negb (isspace c)) s)
  = flat_map (fun x => if isspace x then [] else symbol_of x) s.
Proof.
  induction s as [|c s IH]; simpl; [reflexivity|].
  destruct (isspace c); simpl; rewrite IH; reflexivity.
Qed.

(** C7 (as the code has it).  [parseboard] drops whitespace (it separates
    the words of [split]) and the separators [| - = +], maps [1]..[9] to
    [0]..[8] and any other character to an empty cell, and returns the first
    81 symbols; a text with fewer than 81 symbols makes it return [None]:
    no exception is raised and no shorter board is returned. *)
Theorem parseboard_symbols (str : String.string) :
  parseboard str =
    if 81 <=? length (symbols str) then Returns (Some (firstn 81 (symbols str)))
    else Returns None.
Proof.
  unfold parseboard, symbols.
  rewrite parse_words_eq by (simpl; lia).
  rewrite split_ws_concat. simpl app. rewrite symbols_filter.
  unfold parsed. simpl app.
  destruct (81 <=? _); reflexivity.
Qed.

(** C7 (counterexample).  On the empty text the specification asks for an
    [InvalidBoardFormat] error and [parseboard] returns [None]; on a text of
    a blank followed by eighty [1] the specification counts 81 symbols, the
    blank being an empty cell, and [parseboard] counts 80 and returns
    [None]. *)
Lemma parseboard_not_spec :
  parseboard "" = Returns None /\
  parse_spec "" = Raises "InvalidBoardFormat" /\
  parseboard (String " " (String.string_of_list_ascii (repeat "1"%char 80))) = Returns None /\
  parse_spec (String " " (String.string_of_list_ascii (repeat "1"%char 80)))
  = Returns (Some (None :: repeat (Some 0) 80)).
Proof. repeat split; vm_compute; reflexivity. Qed.


(** The ranges of the program's loops stay folded in proofs. *)
Arguments seq : simpl never.
Arguments line : simpl never.
Arguments listbits : simpl never.
Arguments axismissing : simpl never.
Arguments figurebits : simpl never.

(** * Lists updated in place *)

Lemma length_set_nth {A : Type} (l : list A) (i : nat) (v : A) :
  length (set_nth l i v) = length l.
Proof.
  revert i. induction l as [|h t IH]; intros [|i]; simpl; auto.
Qed.

Lemma nth_set_nth_eq {A : Type} (l : list A) (i : nat) (v d : A) :
  i < length l -> nth i (set_nth l i v) d = v.
Proof.
  revert i. induction l as [|h t IH]; intros [|i] H; simpl in *; try lia; auto.
  apply IH. lia.
Qed.

Lemma nth_set_nth_ne {A : Type} (l : list A) (i j : nat) (v d : A) :
  i <> j -> nth j (set_nth l i v) d = nth j l d.
Proof.
  revert i j. induction l as [|h t IH]; intros [|i] [|j] H; simpl; auto; try lia.
Qed.

Lemma nth_map_lt {A B : Type} (f : A -> B) (l : list A) (i : nat) (d : B) (d' : A) :
  i < length l -> nth i (map f l) d = f (nth i l d').
Proof.
  revert i. induction l as [|a l IH]; intros [|i] H; simpl in *; try lia; auto.
  apply IH. lia.
Qed.

Lemma get_put_eq (b : board) (p n : nat) :
  p < length b -> get (put b p n) p = Some n.
Proof. intro H. unfold get, put. now apply nth_set_nth_eq. Qed.

Lemma get_put_ne (b : board) (p q n : nat) :
  p <> q -> get (put b p n) q = get b q.
Proof. intro H. unfold get, put. now apply nth_set_nth_ne. Qed.

Lemma length_put (b : board) (p n : nat) : length (put b p n) = length b.
Proof. apply length_set_nth. Qed.

Lemma get_beyond (b : board) (p : nat) : length b <= p -> get b p = None.
Proof. intro H. unfold get. now apply nth_overflow. Qed.

Lemma cell_eqb_eq (a b : cell) : cell_eqb a b = true <-> a = b.
Proof.
  destruct a as [x|], b as [y|]; simpl; split; intro H;
    try discriminate; try reflexivity.
  - apply Nat.eqb_eq in H. now subst.
  - injection H as ->. apply Nat.eqb_refl.
Qed.

(** * Bit sets *)

Lemma has_bit (e m : nat) : has (bit e) m = (e =? m).
Proof.
  unfold has, bit. rewrite N.shiftl_1_l, N.pow2_bits_eqb.
  destruct (Nat.eqb_spec e m) as [->|H].
  - apply N.eqb_refl.
  - apply N.eqb_neq. lia.
Qed.

Lemma has_land (a b : N) (m : nat) : has (N.land a b) m = has a m && has b m.
Proof. apply N.land_spec. Qed.

Lemma has_lor (a b : N) (m : nat) : has (N.lor a b) m = has a m || has b m.
Proof. apply N.lor_spec. Qed.

Lemma has_lxor (a b : N) (m : nat) : has (N.lxor a b) m = xorb (has a m) (has b m).
Proof. apply N.lxor_spec. Qed.

Lemma has_0 (m : nat) : has 0 m = false.
Proof. apply N.bits_0. Qed.

Lemma has_511 (m : nat) : m < 9 -> has 511 m = true.
Proof.
  intro H. unfold has. change 511%N with (N.ones 9).
  apply N.ones_spec_low. lia.
Qed.

Lemma land_bit_zero (bits : N) (y : nat) :
  N.eqb (N.land bits (bit y)) 0 = negb (has bits y).
Proof.
  destruct (has bits y) eqn:E; simpl.
  - apply N.eqb_neq. intro H.
    assert (F : has (N.land bits (bit y)) y = true)
      by (rewrite has_land, E, has_bit, Nat.eqb_refl; reflexivity).
    rewrite H, has_0 in F. discriminate.
  - apply N.eqb_eq. apply N.bits_inj. intro k.
    rewrite N.land_spec, N.bits_0. unfold bit.
    rewrite N.shiftl_1_l, N.pow2_bits_eqb.
    destruct (N.eqb_spec (N.of_nat y) k) as [<-|]; [|apply andb_false_r].
    unfold has in E. rewrite E. reflexivity.
Qed.

Lemma listbits_In (bits : N) (m : nat) :
  In m (listbits bits) <-> m < 9 /\ has bits m = true.
Proof.
  unfold listbits. rewrite filter_In, in_seq, N.eqb_sym, land_bit_zero, negb_involutive.
  intuition lia.
Qed.

Lemma listbits_NoDup (bits : N) : NoDup (listbits bits).
Proof. apply NoDup_filter, seq_NoDup. Qed.

Lemma length_filter_le {A : Type} (f : A -> bool) (l : list A) :
  length (filter f l) <= length l.
Proof.
  induction l as [|a l IH]; simpl; [lia|]. destruct (f a); simpl; lia.
Qed.

Lemma listbits_length (bits : N) : length (listbits bits) <= 9.
Proof.
  unfold listbits. etransitivity; [apply length_filter_le|].
  rewrite length_seq. lia.
Qed.

(** * Missing digits of a line *)

Lemma line_In (b : board) (x axis : nat) (c : cell) :
  In c (line b x axis) <-> exists y, y < 9 /\ get b (posfor x y axis) = c.
Proof.
  unfold line. rewrite in_map_iff. split; intros [y [H1 H2]]; exists y.
  - apply in_seq in H2. split; [lia|exact H1].
  - split; [exact H2|apply in_seq; lia].
Qed.

Lemma present_has (b : board) (x axis m : nat) (ys : list nat) (init : N) :
  has (fold_left (fun bits y => match get b (posfor x y axis) with
                                | Some e => N.lor bits (bit e)
                                | None => bits
                                end) ys init) m
  = has init m || existsb (fun y => cell_eqb (get b (posfor x y axis)) (Some m)) ys.
Proof.
  revert init. induction ys as [|y ys IH]; intro init; simpl.
  - now rewrite orb_false_r.
  - rewrite IH. destruct (get b (posfor x y axis)) as [e|]; simpl.
    + rewrite has_lor, has_bit, orb_assoc. reflexivity.
    + reflexivity.
Qed.

Lemma axismissing_has (b : board) (x axis m : nat) :
  m < 9 ->
  (has (axismissing b x axis) m = true <-> ~ In (Some m) (line b x axis)).
Proof.
  intro Hm. unfold axismissing. rewrite has_lxor, has_511 by exact Hm.
  rewrite present_has, has_0, orb_false_l.
  destruct (existsb (fun y => cell_eqb (get b (posfor x y axis)) (Some m)) (seq 0 9))
    eqn:E; simpl.
  - split; [intro F; discriminate F|]. intro H. exfalso. apply H.
    apply existsb_exists in E. destruct E as [y [H1 H2]].
    apply cell_eqb_eq in H2. apply line_In. exists y.
    apply in_seq in H1. split; [lia|exact H2].
  - split; [|reflexivity]. intros _ H.
    apply line_In in H. destruct H as [y [H1 H2]].
    assert (F : existsb (fun y => cell_eqb (get b (posfor x y axis)) (Some m)) (seq 0 9)
                = true).
    { apply existsb_exists. exists y. split; [apply in_seq; lia|].
      now apply cell_eqb_eq. }
    rewrite F in E. discriminate.
Qed.

(** * The candidate masks of [figurebits] *)

Lemma fold_left_flat_map {A B C : Type} (f : A -> C -> A) (g : B -> list C)
      (l : list B) (a : A) :
  fold_left f (flat_map g l) a = fold_left (fun a x => fold_left f (g x) a) l a.
Proof.
  revert a. induction l as [|x l IH]; intro a; simpl; [reflexivity|].
  rewrite fold_left_app. apply IH.
Qed.

Lemma fold_left_map {A B C : Type} (f : A -> C -> A) (g : B -> C)
      (l : list B) (a : A) :
  fold_left f (map g l) a = fold_left (fun a x => f a (g x)) l a.
Proof.
  revert a. induction l as [|x l IH]; intro a; simpl; [reflexivity|]. apply IH.
Qed.

Lemma fold_left_ext {A B : Type} (f g : A -> B -> A) (l : list B) (a : A) :
  (forall a x, f a x = g a x) -> fold_left f l a = fold_left g l a.
Proof.
  intro H. revert a. induction l as [|x l IH]; intro a; simpl; [reflexivity|].
  rewrite H. apply IH.
Qed.

Lemma fold_left_fst {A B X : Type} (F : A * B -> X -> A * B) (G : A -> X -> A)
      (xs : list X) (st : A * B) :
  (forall st x, fst (F st x) = G (fst st) x) ->
  fst (fold_left F xs st) = fold_left G xs (fst st).
Proof.
  intro H. revert st. induction xs as [|x xs IH]; intro st; simpl; [reflexivity|].
  rewrite IH, H. reflexivity.
Qed.

Lemma fold_left_snd {A B X : Type} (F : A * list B -> X -> A * list B)
      (G : X -> list B) (xs : list X) (st : A * list B) :
  (forall st x, snd (F st x) = snd st ++ G x) ->
  snd (fold_left F xs st) = snd st ++ flat_map G xs.
Proof.
  intro H. revert st. induction xs as [|x xs IH]; intro st; simpl.
  - now rewrite app_nil_r.
  - rewrite IH, H, <- app_assoc. reflexivity.
Qed.

Lemma figurebits_fst (b : board) :
  fst (figurebits b)
  = fold_left (fun al pm => and_at al (fst pm) (snd pm)) (figure_ops b) (figure_init b).
Proof.
  unfold figurebits, figure_ops.
  rewrite fold_left_flat_map.
  apply fold_left_fst. intros st axis.
  rewrite fold_left_flat_map.
  apply fold_left_fst. intros st' x.
  rewrite fold_left_map. reflexivity.
Qed.

Lemma figurebits_snd (b : board) :
  snd (figurebits b)
  = flat_map (fun axis => map (fun x => axismissing b x axis) (seq 0 9)) (seq 0 3).
Proof.
  unfold figurebits.
  rewrite (fold_left_snd _ (fun axis => map (fun x => axismissing b x axis) (seq 0 9)));
    [reflexivity|].
  intros st axis.
  rewrite (fold_left_snd _ (fun x => [axismissing b x axis])).
  - reflexivity.
  - reflexivity.
Qed.

Lemma needed_nth (b : board) (axis x : nat) :
  axis < 3 -> x < 9 ->
  nth (axis * 9 + x) (snd (figurebits b)) 0%N = axismissing b x axis.
Proof.
  intros Ha Hx. rewrite figurebits_snd.
  cbv [seq flat_map map app].
  destruct axis as [|[|[|axis]]]; try lia;
    destruct x as [|[|[|[|[|[|[|[|[|x]]]]]]]]]; try lia; reflexivity.
Qed.

Lemma length_and_at (al : list N) (p : nat) (bits : N) :
  length (and_at al p bits) = length al.
Proof. apply length_set_nth. Qed.

Lemma fold_and_at_has (ops : list (nat * N)) (al : list N) (p m : nat) :
  p < length al ->
  has (nth p (fold_left (fun al pm => and_at al (fst pm) (snd pm)) ops al) 0%N) m
  = has (nth p al 0%N) m
    && forallb (fun pm => negb (fst pm =? p) || has (snd pm) m) ops.
Proof.
  revert al. induction ops as [|[q bits] ops IH]; intros al Hp; simpl.
  - now rewrite andb_true_r.
  - rewrite IH by (rewrite length_and_at; exact Hp).
    rewrite andb_assoc. f_equal. unfold and_at.
    destruct (Nat.eqb_spec q p) as [->|Hq]; simpl.
    + rewrite nth_set_nth_eq by exact Hp. apply has_land.
    + rewrite nth_set_nth_ne by exact Hq. now rewrite andb_true_r.
Qed.

Lemma figure_ops_In (b : board) (p : nat) (bits : N) :
  In (p, bits) (figure_ops b) <->
  exists axis x y, axis < 3 /\ x < 9 /\ y < 9 /\
                   p = posfor x y axis /\ bits = axismissing b x axis.
Proof.
  unfold figure_ops. rewrite in_flat_map. split.
  - intros [axis [Ha H]]. apply in_flat_map in H. destruct H as [x [Hx H]].
    apply in_map_iff in H. destruct H as [y [E Hy]].
    apply in_seq in Ha, Hx, Hy. injection E as E1 E2.
    exists axis, x, y. repeat split; auto; lia.
  - intros [axis [x [y [Ha [Hx [Hy [E1 E2]]]]]]].
    exists axis. split; [apply in_seq; lia|].
    apply in_flat_map. exists x. split; [apply in_seq; lia|].
    apply in_map_iff. exists y. split; [now subst|apply in_seq; lia].
Qed.

Lemma posfor_floor (p axis : nat) :
  p < 81 -> axis < 3 ->
  axisfor_floor p axis < 9 /\ offsetfor_floor p axis < 9 /\
  posfor (axisfor_floor p axis) (offsetfor_floor p axis) axis = p.
Proof.
  intros Hp Ha.
  assert (H : (axisfor_floor p axis <? 9) && (offsetfor_floor p axis <? 9)
              && (posfor (axisfor_floor p axis) (offsetfor_floor p axis) axis =? p)
              = true).
  { apply (@check2 (fun p axis =>
             (axisfor_floor p axis <? 9) && (offsetfor_floor p axis <? 9)
             && (posfor (axisfor_floor p axis) (offsetfor_floor p axis) axis =? p))
             81 3); [vm_compute; reflexivity | assumption ..]. }
  apply andb_prop in H. destruct H as [H H3].
  apply andb_prop in H. destruct H as [H1 H2].
  apply Nat.ltb_lt in H1, H2. apply Nat.eqb_eq in H3. auto.
Qed.

Lemma posfor_inj (axis x y x' y' : nat) :
  x < 9 -> y < 9 -> x' < 9 -> y' < 9 ->
  posfor x y axis = posfor x' y' axis -> x = x' /\ y = y'.
Proof.
  intros Hx Hy Hx' Hy' E.
  assert (H3 : forall a, a < 3 -> posfor x y a = posfor x' y' a -> x = x' /\ y = y').
  { intros a Ha Ea.
    assert (G : forall x y, x < 9 -> y < 9 ->
                axisfor_floor (posfor x y a) a = x /\
                offsetfor_floor (posfor x y a) a = y).
    { intros u v Hu Hv.
      assert (H : (axisfor_floor (posfor u v a) a =? u)
                  && (offsetfor_floor (posfor u v a) a =? v) = true).
      { apply (@check3 (fun a u v => (axisfor_floor (posfor u v a) a =? u)
                  && (offsetfor_floor (posfor u v a) a =? v)) 3 9 9);
          [vm_compute; reflexivity | assumption ..]. }
      apply andb_prop in H. destruct H as [H1 H2].
      apply Nat.eqb_eq in H1, H2. auto. }
    destruct (G x y Hx Hy) as [G1 G2]. destruct (G x' y' Hx' Hy') as [G3 G4].
    rewrite Ea in G1, G2. split; congruence. }
  destruct (Nat.lt_ge_cases axis 3) as [Ha|Ha]; [now apply (H3 axis)|].
  rewrite !(@posfor_box axis) in E by lia. apply (H3 2); [lia|exact E].
Qed.

Lemma figure_init_nth (b : board) (p : nat) :
  p < length b ->
  nth p (figure_init b) 0%N = match get b p with None => 511%N | Some _ => 0%N end.
Proof.
  intro Hp. unfold figure_init, get.
  rewrite (nth_indep _ 0%N
             ((fun e : cell => match e with None => 511%N | Some _ => 0%N end) None))
    by (rewrite length_map; exact Hp).
  exact (map_nth (fun e : cell => match e with None => 511%N | Some _ => 0%N end)
                 b None p).
Qed.

(** The mask of a cell: empty in a filled cell; in an empty cell, the
    digits that are missing from its row, its column and its box. *)
Lemma allowed_has (b : board) (p m : nat) :
  length b = 81 -> p < 81 -> m < 9 ->
  (has (nth p (fst (figurebits b)) 0%N) m = true <->
   get b p = None /\
   forall axis, axis < 3 -> ~ In (Some m) (line b (axisfor_floor p axis) axis)).
Proof.
  intros Hb Hp Hm.
  rewrite figurebits_fst, fold_and_at_has
    by (unfold figure_init; rewrite length_map; lia).
  rewrite figure_init_nth by lia.
  rewrite andb_true_iff, forallb_forall. split.
  - intros [H1 H2]. split.
    + destruct (get b p); [now rewrite has_0 in H1|reflexivity].
    + intros axis Ha. apply axismissing_has; [exact Hm|].
      destruct (posfor_floor Hp Ha) as [Hx [Hy E]].
      specialize (H2 (p, axismissing b (axisfor_floor p axis) axis)).
      simpl in H2. rewrite Nat.eqb_refl in H2. apply H2.
      apply figure_ops_In.
      exists axis, (axisfor_floor p axis), (offsetfor_floor p axis). auto.
  - intros [H1 H2]. split.
    + rewrite H1. now apply has_511.
    + intros [q bits] Hin. simpl.
      destruct (Nat.eqb_spec q p) as [->|]; [simpl|reflexivity].
      apply figure_ops_In in Hin.
      destruct Hin as [axis [x [y [Ha [Hx [Hy [E1 E2]]]]]]]. subst bits.
      apply axismissing_has; [exact Hm|].
      rewrite <- (axisfor_floor_posfor Ha Hx Hy), <- E1. now apply H2.
Qed.

Lemma allowed_filled (b : board) (p m : nat) :
  p < length b -> get b p <> None ->
  has (nth p (fst (figurebits b)) 0%N) m = false.
Proof.
  intros Hp Hg.
  rewrite figurebits_fst, fold_and_at_has
    by (unfold figure_init; rewrite length_map; lia).
  rewrite figure_init_nth by lia.
  destruct (get b p); [|congruence]. now rewrite has_0.
Qed.


(** * Solved boards *)

Lemma length_line (b : board) (x axis : nat) : length (line b x axis) = 9.
Proof. unfold line. now rewrite length_map, length_seq. Qed.

Lemma nth_line (b : board) (x axis y : nat) :
  y < 9 -> nth y (line b x axis) None = get b (posfor x y axis).
Proof.
  intro Hy. unfold line.
  rewrite (@nth_map_lt _ _ (fun y => get b (posfor x y axis)) (seq 0 9) y None 0)
    by (rewrite length_seq; exact Hy).
  rewrite seq_nth by exact Hy. reflexivity.
Qed.

Lemma NoDup_map_in {A B : Type} (f : A -> B) (l : list A) :
  (forall x y, In x l -> In y l -> f x = f y -> x = y) ->
  NoDup l -> NoDup (map f l).
Proof.
  intros Hf Hl. induction Hl as [|a l Ha Hl IH]; simpl; constructor.
  - intro H. apply in_map_iff in H. destruct H as [x [E Hx]].
    apply Hf in E; simpl; auto. now subst.
  - apply IH. intros x y Hx Hy. apply Hf; simpl; auto.
Qed.

Lemma digits_NoDup : NoDup (map (@Some nat) (seq 0 9)).
Proof.
  apply NoDup_map_in; [|apply seq_NoDup]. intros x y _ _ E. congruence.
Qed.

(** A line of nine cells that contains the nine digits contains each of
    them once and nothing else. *)
Lemma full_line (l : list cell) :
  length l = 9 ->
  (forall n, n < 9 -> In (Some n) l) ->
  NoDup l /\ forall c, In c l -> exists n, n < 9 /\ c = Some n.
Proof.
  intros Hl Hin.
  assert (Hincl : incl (map (@Some nat) (seq 0 9)) l).
  { intros c Hc. apply in_map_iff in Hc. destruct Hc as [n [<- Hn]].
    apply Hin. apply in_seq in Hn. lia. }
  assert (Hlen : length l <= length (map (@Some nat) (seq 0 9)))
    by (rewrite length_map, length_seq; lia).
  split.
  - exact (NoDup_incl_NoDup digits_NoDup Hlen Hincl).
  - intros c Hc.
    pose proof (NoDup_Permutation_bis digits_NoDup Hlen Hincl) as HP.
    apply Permutation_sym in HP. apply (Permutation_in _ HP) in Hc.
    apply in_map_iff in Hc. destruct Hc as [n [<- Hn]].
    exists n. apply in_seq in Hn. split; [lia|reflexivity].
Qed.

Lemma solved_In (s : board) (axis x n : nat) :
  solved s -> axis < 3 -> x < 9 -> n < 9 -> In (Some n) (line s x axis).
Proof.
  intros [_ [_ H]] Ha Hx Hn.
  apply (count_occ_In cell_eq_dec). rewrite (H axis x n) by assumption. lia.
Qed.

Lemma solved_NoDup (s : board) (axis x : nat) :
  solved s -> axis < 3 -> x < 9 -> NoDup (line s x axis).
Proof.
  intros Hs Ha Hx. apply full_line; [apply length_line|].
  intros n Hn. now apply solved_In.
Qed.

(** In a solved board a digit sits at one offset of a line only. *)
Lemma solved_once (s : board) (axis x y y' : nat) :
  solved s -> axis < 3 -> x < 9 -> y < 9 -> y' < 9 ->
  get s (posfor x y axis) = get s (posfor x y' axis) -> y = y'.
Proof.
  intros Hs Ha Hx Hy Hy' E.
  pose proof (solved_NoDup Hs Ha Hx) as ND.
  apply (proj1 (NoDup_nth _ None) ND); rewrite ?length_line; try assumption.
  now rewrite !nth_line.
Qed.

Lemma solved_somewhere (s : board) (axis x n : nat) :
  solved s -> axis < 3 -> x < 9 -> n < 9 ->
  exists y, y < 9 /\ get s (posfor x y axis) = Some n.
Proof.
  intros Hs Ha Hx Hn. apply line_In. now apply solved_In.
Qed.

Lemma solved_digit (s : board) (p : nat) :
  solved s -> p < 81 -> exists n, n < 9 /\ get s p = Some n.
Proof. intros [_ [H _]] Hp. now apply H. Qed.

Lemma solved_length (s : board) : solved s -> length s = 81.
Proof. now intros [H _]. Qed.

(** A board of 81 cells in which every digit occurs on every line is
    solved. *)
Lemma solved_intro (b : board) :
  length b = 81 ->
  (forall axis x n, axis < 3 -> x < 9 -> n < 9 -> In (Some n) (line b x axis)) ->
  solved b.
Proof.
  intros Hb Hin. split; [exact Hb|]. split.
  - intros p Hp.
    destruct (@posfor_floor p 0 Hp) as [Hx [Hy E]]; [lia|].
    destruct (@full_line (line b (axisfor_floor p 0) 0)) as [_ H].
    + apply length_line.
    + intros n Hn. apply Hin; auto.
    + apply H. apply line_In. exists (offsetfor_floor p 0). split; [exact Hy|].
      now rewrite E.
  - intros axis x n Ha Hx Hn.
    destruct (@full_line (line b x axis)) as [ND _].
    + apply length_line.
    + intros m Hm. now apply Hin.
    + apply NoDup_count_occ'; [exact ND|]. now apply Hin.
Qed.

(** * Boards that extend a board *)

Lemma extends_refl (b : board) : extends b b.
Proof. intros p n H. exact H. Qed.

Lemma extends_trans (a b c : board) : extends a b -> extends b c -> extends a c.
Proof. intros H1 H2 p n H. apply H1, H2, H. Qed.

Lemma extends_put (s b : board) (p n : nat) :
  p < length b -> get b p = None ->
  (extends s (put b p n) <-> extends s b /\ get s p = Some n).
Proof.
  intros Hp Hg. split.
  - intro H. split.
    + intros q m Hq. apply H.
      destruct (Nat.eq_dec p q) as [->|Hne]; [congruence|].
      now rewrite get_put_ne.
    + apply H. now apply get_put_eq.
  - intros [H1 H2] q m Hq.
    destruct (Nat.eq_dec p q) as [<-|Hne].
    + rewrite get_put_eq in Hq by exact Hp. congruence.
    + rewrite get_put_ne in Hq by exact Hne. now apply H1.
Qed.

Lemma put_extends (b : board) (p n : nat) : get b p = None -> extends (put b p n) b.
Proof.
  intros Hg q m Hq. destruct (Nat.eq_dec p q) as [<-|Hne]; [congruence|].
  now rewrite get_put_ne.
Qed.

(** A board with 81 filled cells has one extension of 81 cells: itself. *)
Lemma extends_full (s b : board) :
  length s = 81 -> length b = 81 ->
  (forall p, p < 81 -> get b p <> None) ->
  extends s b -> s = b.
Proof.
  intros Hs Hb Hfull He.
  apply (nth_ext s b None None); [congruence|].
  intros p Hp. rewrite Hs in Hp. specialize (Hfull p Hp).
  fold (get s p). fold (get b p).
  destruct (get b p) as [n|] eqn:E; [|congruence]. now apply He.
Qed.

(** * Candidates and solutions *)

(** The digit a solution holds in an empty cell is in the cell's mask. *)
Lemma allowed_sound (s b : board) (p m : nat) :
  solved s -> extends s b -> length b = 81 -> p < 81 ->
  get b p = None -> get s p = Some m ->
  has (nth p (fst (figurebits b)) 0%N) m = true.
Proof.
  intros Hs He Hb Hp Hg Hm.
  assert (Hm9 : m < 9).
  { destruct (solved_digit Hs Hp) as [n [Hn E]]. congruence. }
  apply allowed_has; try assumption. split; [exact Hg|].
  intros axis Ha Hin. apply line_In in Hin. destruct Hin as [y [Hy E]].
  destruct (posfor_floor Hp Ha) as [Hx [Hy0 E0]].
  assert (y = offsetfor_floor p axis).
  { apply (@solved_once s axis (axisfor_floor p axis)); try assumption.
    rewrite E0, Hm. now apply He. }
  subst y. rewrite E0 in E. congruence.
Qed.

Lemma filter_one {A : Type} (f : A -> bool) (l : list A) (a : A) :
  NoDup l -> In a l -> (forall x, In x l -> (f x = true <-> x = a)) ->
  length (filter f l) = 1.
Proof.
  intros ND. induction ND as [|x l Hx ND IH]; intros Ha Hf; [destruct Ha|].
  simpl. destruct (f x) eqn:E.
  - apply Hf in E; [|now left]. subst x. simpl. f_equal.
    apply length_zero_iff_nil.
    destruct (filter f l) as [|z t] eqn:F; [reflexivity|]. exfalso.
    assert (Hz : In z (filter f l)) by (rewrite F; now left).
    apply filter_In in Hz. destruct Hz as [Hz1 Hz2].
    apply Hf in Hz2; [|now right]. now subst z.
  - destruct Ha as [->|Ha].
    + assert (f a = true) by (apply Hf; [now left|reflexivity]). congruence.
    + apply IH; [exact Ha|]. intros y Hy. apply Hf. now right.
Qed.

(** Branching on the candidates of an empty cell: every solution takes
    exactly one option. *)
Lemma cell_branch (s b : board) (p : nat) :
  solved s -> extends s b -> length b = 81 -> p < 81 -> get b p = None ->
  matching s (map (fun n => (p, n)) (listbits (nth p (fst (figurebits b)) 0%N))) = 1.
Proof.
  intros Hs He Hb Hp Hg.
  destruct (solved_digit Hs Hp) as [m [Hm9 Hm]].
  unfold matching. apply filter_one with (a := (p, m)).
  - apply NoDup_map_in; [|apply listbits_NoDup]. intros x y _ _ E. congruence.
  - apply in_map. apply listbits_In. split; [exact Hm9|].
    now apply (@allowed_sound s b).
  - intros [q n] Hin. apply in_map_iff in Hin. destruct Hin as [n' [E _]].
    injection E as <- <-. unfold agrees. simpl. rewrite cell_eqb_eq, Hm.
    split; congruence.
Qed.

(** The cells of line [x] whose mask has digit [n]. *)
Lemma spots_In (b : board) (x axis n q : nat) :
  In q (spots_of (fst (figurebits b)) x axis n) <->
  exists y, y < 9 /\ q = posfor x y axis /\
            has (nth q (fst (figurebits b)) 0%N) n = true.
Proof.
  unfold spots_of.
  rewrite filter_In, in_map_iff, land_bit_zero, negb_involutive. split.
  - intros [[y [E Hy]] H]. exists y. apply in_seq in Hy. repeat split; auto; lia.
  - intros [y [Hy [E H]]]. split; [|exact H]. exists y.
    split; [now symmetry|apply in_seq; lia].
Qed.

Lemma spots_NoDup (al : list N) (x axis n : nat) :
  x < 9 ->
  NoDup (spots_of al x axis n).
Proof.
  intro Hx. unfold spots_of. apply NoDup_filter. apply NoDup_map_in; [|apply seq_NoDup].
  intros y y' Hy Hy' E. apply in_seq in Hy, Hy'.
  apply (@posfor_inj axis x y x y') in E; lia.
Qed.

(** Branching on the cells of a line that can take a missing digit: every
    solution takes exactly one option. *)
Lemma line_branch (s b : board) (x axis n : nat) :
  solved s -> extends s b -> length b = 81 -> axis < 3 -> x < 9 -> n < 9 ->
  ~ In (Some n) (line b x axis) ->
  matching s (map (fun pos => (pos, n)) (spots_of (fst (figurebits b)) x axis n)) = 1.
Proof.
  intros Hs He Hb Ha Hx Hn Hmiss.
  destruct (solved_somewhere Hs Ha Hx Hn) as [y0 [Hy0 E0]].
  assert (Hq : posfor x y0 axis < 81) by now apply posfor_lt.
  assert (Hg : get b (posfor x y0 axis) = None).
  { destruct (get b (posfor x y0 axis)) as [n'|] eqn:E; [|reflexivity].
    exfalso. apply Hmiss. apply line_In. exists y0. split; [exact Hy0|].
    rewrite E. apply He in E. congruence. }
  unfold matching. apply filter_one with (a := (posfor x y0 axis, n)).
  - apply NoDup_map_in; [|now apply spots_NoDup]. intros u v _ _ E. congruence.
  - apply (in_map (fun pos => (pos, n))). apply spots_In. exists y0. repeat split; auto.
    now apply (@allowed_sound s b).
  - intros [q n'] Hin. apply in_map_iff in Hin. destruct Hin as [q' [E Hq']].
    injection E as <- <-.
    destruct (proj1 (spots_In b x axis n q') Hq') as [y [Hy [-> _]]].
    unfold agrees. simpl. rewrite cell_eqb_eq. split.
    + intro E.
      pose proof (solved_once Hs Ha Hx Hy Hy0 (eq_trans E (eq_sym E0))) as Hyy.
      rewrite Hyy. reflexivity.
    + intro E. injection E as E.
      destruct (@posfor_inj axis x y x y0 Hx Hy Hx Hy0 E) as [_ Hyy]. rewrite Hyy. exact E0.
Qed.


Unset Implicit Arguments.

(** * Loops *)

Lemma for_each_inv {X A R : Type} (Inv : A -> Prop) (Q : R -> Prop) (P : X -> Prop)
      (body : A -> X -> flow A R) :
  (forall a x, Inv a -> P x ->
     match body a x with Next a' => Inv a' | Ret r => Q r end) ->
  forall xs a, Forall P xs -> Inv a ->
    match for_each body xs a with Next a' => Inv a' | Ret r => Q r end.
Proof.
  intros H xs. induction xs as [|x xs IH]; intros a HF Ha; simpl; [exact Ha|].
  inversion HF as [|? ? Hx HF']; subst.
  specialize (H a x Ha Hx). destruct (body a x) as [a'|r]; [|exact H].
  now apply IH.
Qed.

(** A flag that no element of the range lowers stays raised. *)
Lemma for_each_keep {X A R : Type} (Inv F : A -> Prop) (P : X -> Prop)
      (body : A -> X -> flow A R) :
  (forall a x, Inv a -> P x ->
     match body a x with Next a' => Inv a' /\ (F a -> F a') | Ret _ => True end) ->
  forall xs a, Forall P xs -> Inv a -> F a ->
    match for_each body xs a with Next a' => F a' | Ret _ => True end.
Proof.
  intros Hkeep xs. induction xs as [|x xs IH]; intros a HF Ha Fa; simpl; [exact Fa|].
  inversion HF as [|? ? Hx HF']; subst.
  specialize (Hkeep a x Ha Hx). destruct (body a x) as [a'|r]; [|exact I].
  apply IH; [exact HF'|apply Hkeep|now apply Hkeep].
Qed.

(** If one element of the range raises a flag that no later element
    lowers, the loop ends with the flag raised (or returns). *)
Lemma for_each_hit {X A R : Type} (Inv F : A -> Prop) (P : X -> Prop)
      (body : A -> X -> flow A R) (x0 : X) :
  (forall a x, Inv a -> P x ->
     match body a x with Next a' => Inv a' /\ (F a -> F a') | Ret _ => True end) ->
  (forall a, Inv a -> match body a x0 with Next a' => F a' | Ret _ => True end) ->
  forall xs a, Forall P xs -> In x0 xs -> Inv a ->
    match for_each body xs a with Next a' => F a' | Ret _ => True end.
Proof.
  intros Hkeep Hhit xs.
  induction xs as [|x xs IH]; intros a HF Hin Ha; [destruct Hin|].
  inversion HF as [|? ? Hx HF']; subst. simpl.
  destruct Hin as [->|Hin].
  - specialize (Hhit a Ha). pose proof (Hkeep a x0 Ha Hx) as Hk.
    destruct (body a x0) as [a'|r]; [|exact I].
    apply (for_each_keep Inv F P body Hkeep); [exact HF'|apply Hk|exact Hhit].
  - pose proof (Hkeep a x Ha Hx) as Hk.
    destruct (body a x) as [a'|r]; [|exact I].
    apply IH; [exact HF'|exact Hin|apply Hk].
Qed.

Lemma Forall_below (n : nat) : Forall (fun x => x < n) (seq 0 n).
Proof. apply Forall_forall. intros x Hx. apply in_seq in Hx. lia. Qed.

(** * Counting filled cells *)

Lemma filled_put (b : board) (p n : nat) :
  p < length b ->
  filled (put b p n) = filled b + (if is_empty (get b p) then 1 else 0).
Proof.
  unfold filled, put, get. revert p.
  induction b as [|c b IH]; intros [|p] H; simpl in H; try lia.
  - simpl. destruct c; simpl; lia.
  - simpl. destruct c; simpl; rewrite IH by lia; lia.
Qed.

Lemma filled_put_le (b : board) (p n : nat) : filled b <= filled (put b p n).
Proof.
  destruct (Nat.lt_ge_cases p (length b)) as [H|H].
  - rewrite filled_put by exact H. lia.
  - unfold put. replace (set_nth b p (Some n)) with b; [lia|].
    revert p H. induction b as [|c b IH]; intros [|p] H; simpl in *;
      try reflexivity; try lia.
    f_equal. apply IH. lia.
Qed.

Lemma filled_le_length (b : board) : filled b <= length b.
Proof. apply length_filter_le. Qed.

Lemma extends_put_any (s b : board) (p n : nat) :
  extends s b -> get s p = Some n -> extends s (put b p n).
Proof.
  intros He Hs q m Hq. destruct (Nat.eq_dec p q) as [<-|Hne].
  - destruct (Nat.lt_ge_cases p (length b)) as [H|H].
    + rewrite get_put_eq in Hq by exact H. congruence.
    + rewrite get_beyond in Hq by (rewrite length_put; exact H). discriminate.
  - rewrite get_put_ne in Hq by exact Hne. now apply He.
Qed.

(** * The random source keeps the options *)

Lemma shuffle_perm {A : Type} (l : list A) (o : oracle) :
  Permutation (fst (shuffle l o)) l.
Proof.
  revert o. induction l as [|x l IH]; intro o; simpl; [constructor|].
  specialize (IH o). destruct (shuffle l o) as [s o1]. simpl in IH.
  destruct (draw o1) as [k o2]. simpl. unfold insert_at.
  apply Permutation_sym. etransitivity; [|apply Permutation_middle].
  constructor. rewrite firstn_skipn. now apply Permutation_sym.
Qed.

Lemma matching_perm (s : board) (g g' : guesses) :
  Permutation g g' -> matching s g = matching s g'.
Proof.
  unfold matching. intro H. induction H; simpl; try congruence.
  - destruct (agrees s x); simpl; congruence.
  - destruct (agrees s x), (agrees s y); reflexivity.
Qed.

Lemma branch_of_perm (b : board) (g g' : guesses) :
  Permutation g g' -> branch_of b g -> branch_of b g'.
Proof.
  intros HP [Hlen [Hpos Hone]]. split; [|split].
  - now rewrite <- (Permutation_length HP).
  - intros p n Hin. apply Hpos. apply (Permutation_in _ (Permutation_sym HP) Hin).
  - intros s Hs He. rewrite <- (matching_perm s g g' HP). now apply Hone.
Qed.

Lemma pickbetter_guess (b : option guesses) (c : nat) (t : guesses) (o : oracle) :
  fst (fst (pickbetter b c t o)) = Some t \/
  (fst (fst (pickbetter b c t o)) = b /\ b <> None).
Proof.
  unfold pickbetter. destruct b as [bl|]; [|now left].
  destruct (length t <? length bl); [now left|].
  destruct (length bl <? length t); [right; split; [reflexivity|discriminate]|].
  destruct (randint 0 c o) as [r o']. destruct (r =? 0); [now left|].
  right. split; [reflexivity|discriminate].
Qed.

(** * One pass of [deduce] *)

Lemma consider_inv (b0 b1 : board) (s : locals) (t : guesses) :
  pass_inv b0 b1 s -> (stuck s = true -> branch_of b0 t) ->
  pass_inv b0 b1 (consider s t).
Proof.
  intros Hinv Ht. unfold consider. destruct (stuck s) eqn:St; [|exact Hinv].
  pose proof (pickbetter_guess (guess s) (count s) t (rng s)) as PB.
  destruct (pickbetter (guess s) (count s) t (rng s)) as [[g c] o]. simpl in PB.
  destruct Hinv as [H1 [H2 [H3 [H4 [H5 H6]]]]].
  unfold pass_inv. cbn [cur stuck guess].
  split; [exact H1|]. split; [exact H2|]. split; [exact H3|]. split; [exact H4|].
  split; [|intro F; congruence].
  intros _. destruct (H5 St) as [E1 [E2 E3]].
  split; [exact E1|]. split; [exact E2|].
  intros g' Eg. destruct PB as [PB|[PB _]].
  - rewrite PB in Eg. injection Eg as <-. now apply Ht.
  - rewrite PB in Eg. now apply E3.
Qed.

Lemma consider_moved (s : locals) (t : guesses) : moved (consider s t).
Proof.
  unfold consider, moved. destruct (stuck s) eqn:St; [|now left].
  pose proof (pickbetter_guess (guess s) (count s) t (rng s)) as PB.
  destruct (pickbetter (guess s) (count s) t (rng s)) as [[g c] o]. simpl in PB.
  right. cbn [guess]. destruct PB as [PB|[PB PB']]; congruence.
Qed.

Lemma consider_stuck (s : locals) (t : guesses) : stuck (consider s t) = stuck s.
Proof.
  unfold consider. destruct (stuck s) eqn:St; [|exact St].
  destruct (pickbetter (guess s) (count s) t (rng s)) as [[g c] o]. reflexivity.
Qed.

Lemma consider_keeps_moved (s : locals) (t : guesses) :
  moved s -> moved (consider s t).
Proof. intros _. apply consider_moved. Qed.

Lemma assign_inv (b0 b1 : board) (s : locals) (p n : nat) :
  pass_inv b0 b1 s -> p < 81 -> get b1 p = None ->
  (forall S, solved S -> extends S b1 -> get S p = Some n) ->
  pass_inv b0 b1 (assign s p n).
Proof.
  intros [H1 [H2 [H3 [H4 [H5 H6]]]]] Hp Hg Hn.
  unfold pass_inv, assign. cbn [cur stuck guess].
  split; [now rewrite length_put|].
  split; [intros q m Hq; rewrite get_put_ne; [now apply H2|]; intros ->; congruence|].
  split; [intros S HS He; apply extends_put_any; [now apply H3|now apply Hn]|].
  split; [etransitivity; [exact H4|apply filled_put_le]|].
  split; [discriminate|].
  intros _. destruct (stuck s) eqn:St.
  - destruct (H5 eq_refl) as [E1 [E2 _]].
    rewrite filled_put by lia. rewrite E1, Hg, <- E2. simpl. lia.
  - specialize (H6 eq_refl). pose proof (filled_put_le (cur s) p n). lia.
Qed.

Lemma inv_dead (b0 b1 : board) (s : locals) :
  pass_inv b0 b1 s ->
  (forall S, solved S -> ~ extends S b1) -> dead_cell b1 \/ dead_line b1 ->
  pass_dead b0 b1 (cur s, rng s).
Proof.
  intros [H1 [H2 [H3 [H4 _]]]] Hno Hd. unfold pass_dead. simpl. auto 10.
Qed.

Lemma inv_empty (b0 b1 : board) (s : locals) (p : nat) :
  pass_inv b0 b1 s -> get (cur s) p = None -> get b1 p = None.
Proof.
  intros [_ [H2 _]] Hg. destruct (get b1 p) as [n|] eqn:E; [|reflexivity].
  apply H2 in E. congruence.
Qed.

Lemma naked_step (b0 : board) (s : locals) (pos : nat) :
  length b0 = 81 -> pos < 81 -> pass_inv b0 b0 s ->
  match naked (fst (figurebits b0)) s pos with
  | Next s' => pass_inv b0 b0 s'
  | Ret r => pass_dead b0 b0 r
  end.
Proof.
  intros Hb Hp Hinv. unfold naked.
  destruct (get (cur s) pos) as [c|] eqn:G; [exact Hinv|].
  pose proof (inv_empty b0 b0 s pos Hinv G) as G0.
  assert (Hin : forall S, solved S -> extends S b0 ->
                exists m, get S pos = Some m /\
                          In m (listbits (nth pos (fst (figurebits b0)) 0%N))).
  { intros S HS He. destruct (solved_digit HS Hp) as [m [Hm Em]]. exists m.
    split; [exact Em|]. apply listbits_In. split; [exact Hm|].
    now apply (@allowed_sound S b0). }
  destruct (listbits (nth pos (fst (figurebits b0)) 0%N)) as [|n [|n2 l]] eqn:L.
  - apply inv_dead; [exact Hinv| |].
    + intros S HS He. destruct (Hin S HS He) as [m [_ []]].
    + left. exists pos. auto.
  - apply assign_inv; try assumption.
    intros S HS He. destruct (Hin S HS He) as [m [Em [<-|[]]]]. exact Em.
  - apply consider_inv; [exact Hinv|]. intros _. rewrite <- L. split; [|split].
    + pose proof (listbits_length (nth pos (fst (figurebits b0)) 0%N)) as Hl.
      rewrite length_map. rewrite L in Hl |- *. cbn [length] in Hl |- *. lia.
    + intros p n' Hpn. apply in_map_iff in Hpn. destruct Hpn as [m [E Hm]].
      injection E as <- <-. apply listbits_In in Hm. tauto.
    + intros S HS He. now apply cell_branch.
Qed.

Lemma needed_In (b : board) (axis x n : nat) :
  axis < 3 -> x < 9 ->
  (In n (listbits (nth (axis * 9 + x) (snd (figurebits b)) 0%N)) <->
   n < 9 /\ ~ In (Some n) (line b x axis)).
Proof.
  intros Ha Hx. rewrite needed_nth by assumption. rewrite listbits_In.
  split; intros [H1 H2]; (split; [exact H1|]); now apply axismissing_has.
Qed.

Lemma spots_length (al : list N) (x axis n : nat) : length (spots_of al x axis n) <= 9.
Proof.
  unfold spots_of. etransitivity; [apply length_filter_le|].
  now rewrite length_map, length_seq.
Qed.

Lemma spots_empty (b : board) (x axis n q : nat) :
  length b = 81 -> x < 9 -> n < 9 ->
  In q (spots_of (fst (figurebits b)) x axis n) -> q < 81 /\ get b q = None.
Proof.
  intros Hb Hx Hn Hq.
  destruct (proj1 (spots_In b x axis n q) Hq) as [y [Hy [-> H]]].
  assert (Hlt : posfor x y axis < 81) by (apply posfor_lt; assumption).
  split; [exact Hlt|]. exact (proj1 (proj1 (@allowed_has b (posfor x y axis) n Hb Hlt Hn) H)).
Qed.

Lemma hidden_step (b0 b1 : board) (s : locals) (axis x n : nat) :
  length b1 = 81 -> axis < 3 -> x < 9 ->
  In n (listbits (nth (axis * 9 + x) (snd (figurebits b1)) 0%N)) ->
  pass_inv b0 b1 s ->
  match hidden (fst (figurebits b1)) x axis s n with
  | Next s' => pass_inv b0 b1 s'
  | Ret r => pass_dead b0 b1 r
  end.
Proof.
  intros Hb Ha Hx Hn Hinv.
  destruct (proj1 (needed_In b1 axis x n Ha Hx) Hn) as [Hn9 Hmiss].
  assert (Hone : forall S, solved S -> extends S b1 ->
            matching S (map (fun pos => (pos, n))
                            (spots_of (fst (figurebits b1)) x axis n)) = 1).
  { intros S HS He. exact (line_branch HS He Hb Ha Hx Hn9 Hmiss). }
  unfold hidden.
  destruct (spots_of (fst (figurebits b1)) x axis n) as [|p [|p2 l]] eqn:Sp.
  - apply inv_dead; [exact Hinv| |].
    + intros S HS He. specialize (Hone S HS He). discriminate Hone.
    + right. exists axis, x, n.
      split; [exact Ha|]. split; [exact Hx|]. split; [exact Hn|exact Sp].
  - assert (Hp : In p (spots_of (fst (figurebits b1)) x axis n))
      by (rewrite Sp; left; reflexivity).
    destruct (spots_empty b1 x axis n p Hb Hx Hn9 Hp) as [Hp' Hg].
    apply assign_inv; [exact Hinv|exact Hp'|exact Hg|].
    intros S HS He. specialize (Hone S HS He).
    unfold matching in Hone. cbn [map filter] in Hone.
    destruct (agrees S (p, n)) eqn:E; [|discriminate Hone].
    apply cell_eqb_eq. exact E.
  - apply consider_inv; [exact Hinv|]. intro St.
    destruct Hinv as [_ [_ [_ [_ [H5 _]]]]]. destruct (H5 St) as [_ [E0 _]].
    rewrite <- E0. rewrite <- Sp. split; [|split].
    + pose proof (spots_length (fst (figurebits b1)) x axis n) as Hl.
      rewrite length_map. rewrite Sp in Hl |- *. cbn [length] in Hl |- *. lia.
    + intros q n' Hq. apply in_map_iff in Hq. destruct Hq as [q' [E Hq]].
      injection E as <- <-.
      destruct (spots_empty b1 x axis n q' Hb Hx Hn9 Hq) as [Hq1 Hq2].
      split; [exact Hq1|]. split; [exact Hn9|exact Hq2].
    + rewrite Sp. exact Hone.
Qed.

Lemma hidden_line_step (b0 b1 : board) (s : locals) (axis x : nat) :
  length b1 = 81 -> axis < 3 -> x < 9 -> pass_inv b0 b1 s ->
  match hidden_line (fst (figurebits b1)) (snd (figurebits b1)) axis s x with
  | Next s' => pass_inv b0 b1 s'
  | Ret r => pass_dead b0 b1 r
  end.
Proof.
  intros Hb Ha Hx Hinv. unfold hidden_line.
  apply (@for_each_inv _ _ _ (pass_inv b0 b1) (pass_dead b0 b1)
           (fun n => In n (listbits (nth (axis * 9 + x) (snd (figurebits b1)) 0%N)))).
  - intros a n Ia Pn. now apply hidden_step.
  - apply Forall_forall. auto.
  - exact Hinv.
Qed.

Lemma hidden_axis_step (b0 b1 : board) (s : locals) (axis : nat) :
  length b1 = 81 -> axis < 3 -> pass_inv b0 b1 s ->
  match hidden_axis (fst (figurebits b1)) (snd (figurebits b1)) s axis with
  | Next s' => pass_inv b0 b1 s'
  | Ret r => pass_dead b0 b1 r
  end.
Proof.
  intros Hb Ha Hinv. unfold hidden_axis.
  apply (@for_each_inv _ _ _ (pass_inv b0 b1) (pass_dead b0 b1) (fun x => x < 9)).
  - intros a x Ia Px. now apply hidden_line_step.
  - apply Forall_below.
  - exact Hinv.
Qed.

Lemma hidden_all_step (b0 b1 : board) (s : locals) :
  length b1 = 81 -> pass_inv b0 b1 s ->
  match for_each (hidden_axis (fst (figurebits b1)) (snd (figurebits b1)))
                 (seq 0 3) s with
  | Next s' => pass_inv b0 b1 s'
  | Ret r => pass_dead b0 b1 r
  end.
Proof.
  intros Hb Hinv.
  apply (@for_each_inv _ _ _ (pass_inv b0 b1) (pass_dead b0 b1) (fun a => a < 3)).
  - intros a x Ia Px. now apply hidden_axis_step.
  - apply Forall_below.
  - exact Hinv.
Qed.

Lemma naked_all_step (b0 : board) (s : locals) :
  length b0 = 81 -> pass_inv b0 b0 s ->
  match for_each (naked (fst (figurebits b0))) (seq 0 81) s with
  | Next s' => pass_inv b0 b0 s'
  | Ret r => pass_dead b0 b0 r
  end.
Proof.
  intros Hb Hinv.
  apply (@for_each_inv _ _ _ (pass_inv b0 b0) (pass_dead b0 b0) (fun p => p < 81)).
  - intros a x Ia Px. now apply naked_step.
  - apply Forall_below.
  - exact Hinv.
Qed.


(** * Flags of a pass: a cell was assigned, a branch set was recorded *)

Section Flags.

Variable F : locals -> Prop.
Hypothesis F_assign : forall s p n, F s -> F (assign s p n).
Hypothesis F_consider : forall s t, F s -> F (consider s t).

Lemma naked_keep (al : list N) (s : locals) (pos : nat) :
  match naked al s pos with Next s' => F s -> F s' | Ret _ => True end.
Proof.
  unfold naked. destruct (get (cur s) pos); [exact (fun H => H)|].
  destruct (listbits (nth pos al 0%N)) as [|n [|n2 l]].
  - exact I.
  - apply F_assign.
  - apply F_consider.
Qed.

Lemma hidden_keep (al : list N) (x axis : nat) (s : locals) (n : nat) :
  match hidden al x axis s n with Next s' => F s -> F s' | Ret _ => True end.
Proof.
  unfold hidden. destruct (spots_of al x axis n) as [|p [|p2 l]].
  - exact I.
  - apply F_assign.
  - apply F_consider.
Qed.

Lemma hidden_line_keep (b0 b1 : board) (s : locals) (axis x : nat) :
  length b1 = 81 -> axis < 3 -> x < 9 -> pass_inv b0 b1 s ->
  match hidden_line (fst (figurebits b1)) (snd (figurebits b1)) axis s x with
  | Next s' => pass_inv b0 b1 s' /\ (F s -> F s')
  | Ret _ => True
  end.
Proof.
  intros Hb Ha Hx Hinv.
  pose proof (hidden_line_step b0 b1 s axis x Hb Ha Hx Hinv) as A.
  assert (B : F s ->
              match hidden_line (fst (figurebits b1)) (snd (figurebits b1)) axis s x
              with Next s' => F s' | Ret _ => True end).
  { intro Fs. unfold hidden_line.
    apply (for_each_keep (pass_inv b0 b1) F
             (fun n => In n (listbits (nth (axis * 9 + x) (snd (figurebits b1)) 0%N)))).
    - intros a n Ia Pn.
      pose proof (hidden_step b0 b1 a axis x n Hb Ha Hx Pn Ia) as A1.
      pose proof (hidden_keep (fst (figurebits b1)) x axis a n) as B1.
      destruct (hidden (fst (figurebits b1)) x axis a n); [split; assumption|exact I].
    - apply Forall_forall. intros n Hn. exact Hn.
    - exact Hinv.
    - exact Fs. }
  destruct (hidden_line (fst (figurebits b1)) (snd (figurebits b1)) axis s x);
    [split; assumption|exact I].
Qed.

Lemma hidden_axis_keep (b0 b1 : board) (s : locals) (axis : nat) :
  length b1 = 81 -> axis < 3 -> pass_inv b0 b1 s ->
  match hidden_axis (fst (figurebits b1)) (snd (figurebits b1)) s axis with
  | Next s' => pass_inv b0 b1 s' /\ (F s -> F s')
  | Ret _ => True
  end.
Proof.
  intros Hb Ha Hinv.
  pose proof (hidden_axis_step b0 b1 s axis Hb Ha Hinv) as A.
  assert (B : F s ->
              match hidden_axis (fst (figurebits b1)) (snd (figurebits b1)) s axis
              with Next s' => F s' | Ret _ => True end).
  { intro Fs. unfold hidden_axis.
    apply (for_each_keep (pass_inv b0 b1) F (fun x => x < 9)).
    - intros a x Ia Px. exact (hidden_line_keep b0 b1 a axis x Hb Ha Px Ia).
    - apply Forall_below.
    - exact Hinv.
    - exact Fs. }
  destruct (hidden_axis (fst (figurebits b1)) (snd (figurebits b1)) s axis);
    [split; assumption|exact I].
Qed.

Lemma hidden_all_keep (b0 b1 : board) (s : locals) :
  length b1 = 81 -> pass_inv b0 b1 s -> F s ->
  match for_each (hidden_axis (fst (figurebits b1)) (snd (figurebits b1)))
                 (seq 0 3) s with
  | Next s' => F s'
  | Ret _ => True
  end.
Proof.
  intros Hb Hinv Fs.
  apply (for_each_keep (pass_inv b0 b1) F (fun a => a < 3)).
  - intros a x Ia Px. exact (hidden_axis_keep b0 b1 a x Hb Px Ia).
  - apply Forall_below.
  - exact Hinv.
  - exact Fs.
Qed.

Lemma naked_inv_keep (b0 : board) (s : locals) (pos : nat) :
  length b0 = 81 -> pos < 81 -> pass_inv b0 b0 s ->
  match naked (fst (figurebits b0)) s pos with
  | Next s' => pass_inv b0 b0 s' /\ (F s -> F s')
  | Ret _ => True
  end.
Proof.
  intros Hb Hp Hinv.
  pose proof (naked_step b0 s pos Hb Hp Hinv) as A.
  pose proof (naked_keep (fst (figurebits b0)) s pos) as B.
  destruct (naked (fst (figurebits b0)) s pos); [split; assumption|exact I].
Qed.

End Flags.

Lemma moved_assign (s : locals) (p n : nat) : moved s -> moved (assign s p n).
Proof. intros _. left. reflexivity. Qed.

Lemma unstuck_assign (s : locals) (p n : nat) :
  stuck s = false -> stuck (assign s p n) = false.
Proof. intros _. reflexivity. Qed.

Lemma unstuck_consider (s : locals) (t : guesses) :
  stuck s = false -> stuck (consider s t) = false.
Proof. intro H. rewrite consider_stuck. exact H. Qed.

(** An empty cell makes the first loop return, assign or record a branch. *)
Lemma naked_moves (b0 : board) (s : locals) (pos : nat) :
  pass_inv b0 b0 s -> get b0 pos = None ->
  match naked (fst (figurebits b0)) s pos with
  | Next s' => moved s'
  | Ret _ => True
  end.
Proof.
  intros Hinv Hg. unfold naked.
  destruct (get (cur s) pos) as [c|] eqn:G.
  - left. destruct (stuck s) eqn:St; [|reflexivity].
    destruct Hinv as [_ [_ [_ [_ [H5 _]]]]]. destruct (H5 St) as [E _].
    rewrite E in G. congruence.
  - destruct (listbits (nth pos (fst (figurebits b0)) 0%N)) as [|n [|n2 l]].
    + exact I.
    + left. reflexivity.
    + apply consider_moved.
Qed.

(** A cell with a single candidate makes the first loop return or assign. *)
Lemma naked_unsticks (b0 : board) (s : locals) (pos n : nat) :
  pass_inv b0 b0 s -> get b0 pos = None ->
  listbits (nth pos (fst (figurebits b0)) 0%N) = [n] ->
  match naked (fst (figurebits b0)) s pos with
  | Next s' => stuck s' = false
  | Ret _ => True
  end.
Proof.
  intros Hinv Hg L. unfold naked.
  destruct (get (cur s) pos) as [c|] eqn:G.
  - destruct (stuck s) eqn:St; [|reflexivity].
    destruct Hinv as [_ [_ [_ [_ [H5 _]]]]]. destruct (H5 St) as [E _].
    rewrite E in G. congruence.
  - rewrite L. reflexivity.
Qed.

Lemma naked_all_moves (b0 : board) (s : locals) (pos : nat) :
  length b0 = 81 -> pos < 81 -> pass_inv b0 b0 s -> get b0 pos = None ->
  match for_each (naked (fst (figurebits b0))) (seq 0 81) s with
  | Next s' => moved s'
  | Ret _ => True
  end.
Proof.
  intros Hb Hp Hinv Hg.
  apply (for_each_hit (pass_inv b0 b0) moved (fun p => p < 81) _ pos).
  - intros a x Ia Px.
    exact (naked_inv_keep moved moved_assign consider_keeps_moved b0 a x Hb Px Ia).
  - intros a Ia. exact (naked_moves b0 a pos Ia Hg).
  - apply Forall_below.
  - apply in_seq. lia.
  - exact Hinv.
Qed.

Lemma naked_all_unsticks (b0 : board) (s : locals) (pos n : nat) :
  length b0 = 81 -> pos < 81 -> pass_inv b0 b0 s -> get b0 pos = None ->
  listbits (nth pos (fst (figurebits b0)) 0%N) = [n] ->
  match for_each (naked (fst (figurebits b0))) (seq 0 81) s with
  | Next s' => stuck s' = false
  | Ret _ => True
  end.
Proof.
  intros Hb Hp Hinv Hg L.
  apply (for_each_hit (pass_inv b0 b0) (fun s => stuck s = false)
           (fun p => p < 81) _ pos).
  - intros a x Ia Px.
    exact (naked_inv_keep (fun s => stuck s = false) unstuck_assign unstuck_consider
             b0 a x Hb Px Ia).
  - intros a Ia. exact (naked_unsticks b0 a pos n Ia Hg L).
  - apply Forall_below.
  - apply in_seq. lia.
  - exact Hinv.
Qed.

(** A digit missing from a line makes the second loop return, assign or
    record a branch. *)
Lemma hidden_moves (al : list N) (x axis : nat) (s : locals) (n : nat) :
  match hidden al x axis s n with Next s' => moved s' | Ret _ => True end.
Proof.
  unfold hidden. destruct (spots_of al x axis n) as [|p [|p2 l]].
  - exact I.
  - left. reflexivity.
  - apply consider_moved.
Qed.

Lemma hidden_line_moves (b0 b1 : board) (s : locals) (axis x n : nat) :
  length b1 = 81 -> axis < 3 -> x < 9 -> pass_inv b0 b1 s ->
  In n (listbits (nth (axis * 9 + x) (snd (figurebits b1)) 0%N)) ->
  match hidden_line (fst (figurebits b1)) (snd (figurebits b1)) axis s x with
  | Next s' => moved s'
  | Ret _ => True
  end.
Proof.
  intros Hb Ha Hx Hinv Hn. unfold hidden_line.
  apply (for_each_hit (pass_inv b0 b1) moved
           (fun n => In n (listbits (nth (axis * 9 + x) (snd (figurebits b1)) 0%N)))
           _ n).
  - intros a m Ia Pm.
    pose proof (hidden_step b0 b1 a axis x m Hb Ha Hx Pm Ia) as A1.
    pose proof (hidden_keep moved moved_assign consider_keeps_moved
                  (fst (figurebits b1)) x axis a m) as B1.
    destruct (hidden (fst (figurebits b1)) x axis a m); [split; assumption|exact I].
  - intros a Ia. apply hidden_moves.
  - apply Forall_forall. intros m Hm. exact Hm.
  - exact Hn.
  - exact Hinv.
Qed.

Lemma hidden_axis_moves (b0 b1 : board) (s : locals) (axis x n : nat) :
  length b1 = 81 -> axis < 3 -> x < 9 -> pass_inv b0 b1 s ->
  In n (listbits (nth (axis * 9 + x) (snd (figurebits b1)) 0%N)) ->
  match hidden_axis (fst (figurebits b1)) (snd (figurebits b1)) s axis with
  | Next s' => moved s'
  | Ret _ => True
  end.
Proof.
  intros Hb Ha Hx Hinv Hn. unfold hidden_axis.
  apply (for_each_hit (pass_inv b0 b1) moved (fun x => x < 9) _ x).
  - intros a y Ia Py.
    exact (hidden_line_keep moved moved_assign consider_keeps_moved
             b0 b1 a axis y Hb Ha Py Ia).
  - intros a Ia. exact (hidden_line_moves b0 b1 a axis x n Hb Ha Hx Ia Hn).
  - apply Forall_below.
  - apply in_seq. lia.
  - exact Hinv.
Qed.

Lemma hidden_all_moves (b0 b1 : board) (s : locals) (axis x n : nat) :
  length b1 = 81 -> axis < 3 -> x < 9 -> pass_inv b0 b1 s ->
  In n (listbits (nth (axis * 9 + x) (snd (figurebits b1)) 0%N)) ->
  match for_each (hidden_axis (fst (figurebits b1)) (snd (figurebits b1)))
                 (seq 0 3) s with
  | Next s' => moved s'
  | Ret _ => True
  end.
Proof.
  intros Hb Ha Hx Hinv Hn.
  apply (for_each_hit (pass_inv b0 b1) moved (fun a => a < 3) _ axis).
  - intros a y Ia Py.
    exact (hidden_axis_keep moved moved_assign consider_keeps_moved
             b0 b1 a y Hb Py Ia).
  - intros a Ia. exact (hidden_axis_moves b0 b1 a axis x n Hb Ha Hx Ia Hn).
  - apply Forall_below.
  - apply in_seq. lia.
  - exact Hinv.
Qed.


(** * The specification of [deduce] *)

Lemma forced_refl (b : board) : forced b b.
Proof. intros S _ H. exact H. Qed.

Lemma forced_trans (a b c : board) : forced a b -> forced b c -> forced a c.
Proof. intros H1 H2 S HS He. apply H2; [exact HS|]. apply H1; assumption. Qed.

Lemma deduced_refl (b : board) : length b = 81 -> deduced b b.
Proof.
  intro Hb. split; [exact Hb|]. split; [apply extends_refl|].
  split; [apply forced_refl|apply le_n].
Qed.

Lemma deduced_trans (a b c : board) : deduced a b -> deduced b c -> deduced a c.
Proof.
  intros [_ [E1 [F1 L1]]] [H2 [E2 [F2 L2]]].
  split; [exact H2|]. split; [exact (extends_trans E2 E1)|].
  split; [exact (forced_trans a b c F1 F2)|lia].
Qed.

Lemma contradictory_back (a b : board) :
  deduced a b -> contradictory b -> contradictory a.
Proof.
  intros [_ [E1 [F1 _]]] [Hno [bm [Hl [E2 [F2 Hd]]]]]. split.
  - intros S HS He. apply (Hno S HS). apply F1; assumption.
  - exists bm. split; [exact Hl|]. split; [exact (extends_trans E2 E1)|].
    split; [exact (forced_trans a b bm F1 F2)|exact Hd].
Qed.

Lemma pass_inv_init (b0 : board) (o : oracle) :
  length b0 = 81 -> pass_inv b0 b0 (Locals b0 true None 0 o).
Proof.
  intro Hb. unfold pass_inv. cbn [cur stuck guess].
  split; [exact Hb|]. split; [apply extends_refl|]. split; [apply forced_refl|].
  split; [apply le_n|]. split; [|discriminate].
  intros _. split; [reflexivity|]. split; [reflexivity|]. intros g Hg. discriminate Hg.
Qed.

Lemma pass_inv_rebase (b0 : board) (s : locals) :
  pass_inv b0 b0 s -> pass_inv b0 (cur s) s.
Proof.
  intros [H1 [H2 [H3 [H4 [H5 H6]]]]]. unfold pass_inv.
  split; [exact H1|]. split; [apply extends_refl|]. split; [apply forced_refl|].
  split; [exact H4|]. split; [|exact H6].
  intro St. destruct (H5 St) as [E [_ G]]. split; [reflexivity|].
  split; [exact E|exact G].
Qed.

Lemma figure_choice (b0 : board) (s : locals) :
  pass_inv b0 b0 s ->
  (if stuck s then figurebits b0 else figurebits (cur s)) = figurebits (cur s).
Proof.
  intros [_ [_ [_ [_ [H5 _]]]]]. destruct (stuck s); [|reflexivity].
  destruct (H5 eq_refl) as [E _]. rewrite E. reflexivity.
Qed.

Lemma pass_dead_verdict (b0 b1 : board) (r : board * oracle) :
  deduced b0 b1 -> pass_dead b0 b1 r ->
  deduced b0 (fst r) /\ contradictory b0.
Proof.
  intros D [H1 [H2 [H3 [H4 [Hno Hd]]]]]. split.
  - destruct D as [_ [E1 [F1 _]]].
    split; [exact H1|]. split; [exact (extends_trans H2 E1)|].
    split; [exact (forced_trans b0 b1 (fst r) F1 H3)|exact H4].
  - apply (contradictory_back b0 b1 D). split; [exact Hno|].
    exists b1. destruct D as [Hb1 _].
    split; [exact Hb1|]. split; [apply extends_refl|].
    split; [apply forced_refl|exact Hd].
Qed.

(** One iteration of the outer loop: it returns, or it has filled at least
    one cell that was empty. *)
Lemma deduce_pass_spec (b0 : board) (o : oracle) :
  length b0 = 81 ->
  match deduce_pass b0 o with
  | Next (b', _) => deduced b0 b' /\ filled b0 < filled b'
  | Ret (b', v, _) => deduced b0 b' /\ verdict_of b0 b' v
  end.
Proof.
  intro Hb. unfold deduce_pass.
  pose proof (pass_inv_init b0 o Hb) as I0.
  pose proof (naked_all_step b0 _ Hb I0) as A.
  destruct (for_each (naked (fst (figurebits b0))) (seq 0 81)
                     (Locals b0 true None 0 o)) as [s1|[b' o']] eqn:E1.
  2:{ destruct (pass_dead_verdict b0 b0 (b', o') (deduced_refl b0 Hb) A) as [D C].
      split; [exact D|]. left. split; [reflexivity|exact C]. }
  rewrite (figure_choice b0 s1 A).
  pose proof (pass_inv_rebase b0 s1 A) as A'.
  assert (Hb1 : length (cur s1) = 81) by (destruct A as [H _]; exact H).
  assert (D1 : deduced b0 (cur s1)).
  { destruct A as [H1 [H2 [H3 [H4 _]]]].
    split; [exact H1|]. split; [exact H2|]. split; [exact H3|exact H4]. }
  pose proof (hidden_all_step b0 (cur s1) s1 Hb1 A') as B.
  destruct (for_each (hidden_axis (fst (figurebits (cur s1)))
                                  (snd (figurebits (cur s1)))) (seq 0 3) s1)
    as [s2|[b' o']] eqn:E2.
  2:{ destruct (pass_dead_verdict b0 (cur s1) (b', o') D1 B) as [D C].
      split; [exact D|]. left. split; [reflexivity|exact C]. }
  assert (D2 : deduced b0 (cur s2)).
  { destruct B as [H1 [H2 [H3 [H4 _]]]]. destruct D1 as [_ [E [F _]]].
    split; [exact H1|]. split; [exact (extends_trans H2 E)|].
    split; [exact (forced_trans b0 (cur s1) (cur s2) F H3)|exact H4]. }
  destruct (stuck s2) eqn:St2.
  - assert (E : cur s2 = b0 /\ cur s1 = b0 /\
                forall g, guess s2 = Some g -> branch_of b0 g).
    { destruct B as [_ [_ [_ [_ [H5 _]]]]]. destruct (H5 St2) as [X1 [X2 X3]].
      split; [congruence|]. split; [exact X2|exact X3]. }
    destruct E as [Ec2 [Ec1 Hg]].
    destruct (guess s2) as [g|] eqn:G2.
    + destruct (shuffle g (rng s2)) as [g' o'] eqn:Sh.
      split; [exact D2|]. right. rewrite Ec2. split.
      * apply (branch_of_perm b0 g g'); [|apply Hg; reflexivity].
        apply Permutation_sym. pose proof (shuffle_perm g (rng s2)) as HP.
        rewrite Sh in HP. exact HP.
      * intros [p [n [Hp [Hgp L]]]].
        pose proof (naked_all_unsticks b0 _ p n Hb Hp I0 Hgp L) as U.
        rewrite E1 in U.
        pose proof (hidden_all_keep (fun s => stuck s = false)
                      unstuck_assign unstuck_consider b0 (cur s1) s1 Hb1 A' U) as V.
        rewrite E2 in V. congruence.
    + split; [exact D2|]. unfold verdict_of. rewrite Ec2.
      apply solved_intro; [exact Hb|].
      intros axis x n Ha Hx Hn.
      destruct (in_dec cell_eq_dec (Some n) (line b0 x axis)) as [Hin|Hout];
        [exact Hin|exfalso].
      assert (Hnd : In n (listbits (nth (axis * 9 + x)
                                        (snd (figurebits (cur s1))) 0%N))).
      { apply (proj2 (needed_In (cur s1) axis x n Ha Hx)).
        split; [exact Hn|]. rewrite Ec1. exact Hout. }
      pose proof (hidden_all_moves b0 (cur s1) s1 axis x n Hb1 Ha Hx A' Hnd) as M.
      rewrite E2 in M. destruct M as [M|M]; congruence.
  - split; [exact D2|]. destruct B as [_ [_ [_ [_ [_ H6]]]]]. exact (H6 St2).
Qed.

(** The outer loop, for any fuel that lets it return. *)
Lemma deduce_loop_spec (fuel : nat) :
  forall (b : board) (o : oracle) (b' : board) (v : verdict) (o' : oracle),
    length b = 81 -> deduce_loop fuel b o = Some (b', v, o') ->
    deduced b b' /\ verdict_of b b' v.
Proof.
  induction fuel as [|fuel IH]; intros b o b' v o' Hb H; [discriminate H|].
  simpl in H. pose proof (deduce_pass_spec b o Hb) as P.
  destruct (deduce_pass b o) as [[b1 o1]|[[b1 v1] o1]].
  - destruct P as [D1 _]. assert (Hb1 : length b1 = 81) by (destruct D1; assumption).
    destruct (IH b1 o1 b' v o' Hb1 H) as [D2 V].
    split; [exact (deduced_trans b b1 b' D1 D2)|].
    destruct v as [g|]; [|exact V].
    destruct V as [[Eg C]|V]; [left|right; exact V].
    split; [exact Eg|exact (contradictory_back b b1 D1 C)].
  - injection H as <- <- <-. exact P.
Qed.

(** Each iteration that loops fills a cell, so the outer loop returns
    within one iteration more than the board has empty cells. *)
Lemma deduce_loop_total (fuel : nat) :
  forall (b : board) (o : oracle),
    length b = 81 -> 81 - filled b < fuel ->
    exists r, deduce_loop fuel b o = Some r.
Proof.
  induction fuel as [|fuel IH]; intros b o Hb Hf; [lia|].
  simpl. pose proof (deduce_pass_spec b o Hb) as P.
  destruct (deduce_pass b o) as [[b1 o1]|r].
  - destruct P as [[Hb1 _] Hlt]. apply IH; [exact Hb1|].
    pose proof (filled_le_length b1). lia.
  - exists r. reflexivity.
Qed.

Lemma deduce_total (b : board) (o : oracle) :
  length b = 81 -> exists r, deduce b o = Some r.
Proof. intro Hb. apply deduce_loop_total; [exact Hb|lia]. Qed.

Lemma deduce_spec (b : board) (o : oracle) (b' : board) (v : verdict) (o' : oracle) :
  length b = 81 -> deduce b o = Some (b', v, o') ->
  deduced b b' /\ verdict_of b b' v.
Proof. apply deduce_loop_spec. Qed.


(** * The search loop *)

Arguments deduce : simpl never.

(** Induction over the iterations of [solvenext]: [Inv] holds of the stack
    at the head of each iteration, [Post] of what is returned. *)
Lemma solvenext_inv (Inv : stack -> Prop) (Post : stack -> option board -> Prop) :
  (Inv [] -> Post [] None) ->
  (forall gs c b rest, Inv ((gs, c, b) :: rest) -> length gs <= c -> Inv rest) ->
  (forall gs c b rest o w v o',
      Inv ((gs, c, b) :: rest) -> c < length gs ->
      deduce (put b (fst (nth c gs (0, 0))) (snd (nth c gs (0, 0)))) o
      = Some (w, v, o') ->
      match v with
      | None => Post ((gs, c + 1, b) :: rest) (Some w)
      | Some gs' => Inv ((gs', 0, w) :: (gs, c + 1, b) :: rest)
      end) ->
  forall fuel st o st' ans o',
    Inv st -> solvenext fuel st o = Some (st', ans, o') -> Post st' ans.
Proof.
  intros Hnil Hpop Hadv fuel.
  induction fuel as [|fuel IH]; intros st o st' ans o' Hinv H; [discriminate H|].
  simpl in H. destruct st as [|[[gs c] b] rest].
  - injection H as <- <- <-. exact (Hnil Hinv).
  - destruct (length gs <=? c) eqn:E.
    + apply Nat.leb_le in E. apply (IH rest o st' ans o'); [|exact H].
      exact (Hpop gs c b rest Hinv E).
    + apply Nat.leb_gt in E.
      destruct (nth c gs (0, 0)) as [p n] eqn:En.
      destruct (deduce (put b p n) o) as [[[w v] o1]|] eqn:D; [|discriminate H].
      pose proof (Hadv gs c b rest o w v o1 Hinv E) as A.
      rewrite En in A. cbn [fst snd] in A. specialize (A D).
      destruct v as [gs'|].
      * exact (IH _ o1 st' ans o' A H).
      * injection H as <- <- <-. exact A.
Qed.

(** More fuel does not change a result. *)
Lemma solvenext_more (fuel : nat) :
  forall st o r fuel', solvenext fuel st o = Some r -> fuel <= fuel' ->
                       solvenext fuel' st o = Some r.
Proof.
  induction fuel as [|fuel IH]; intros st o r fuel' H Hle; [discriminate H|].
  destruct fuel' as [|fuel']; [lia|]. simpl in H |- *.
  destruct st as [|[[gs c] b] rest]; [exact H|].
  destruct (length gs <=? c).
  - apply IH; [exact H|lia].
  - destruct (nth c gs (0, 0)) as [p n].
    destruct (deduce (put b p n) o) as [[[w v] o1]|]; [|discriminate H].
    destruct v as [gs'|]; [|exact H]. apply IH; [exact H|lia].
Qed.

(** * Frames *)

Lemma full_no_empty (b : board) (p : nat) :
  p < length b -> get b p = None -> filled b < length b.
Proof.
  intros Hp Hg. pose proof (filled_put b p 0 Hp) as E. rewrite Hg in E. simpl in E.
  pose proof (filled_le_length (put b p 0)) as L. rewrite length_put in L. lia.
Qed.

Lemma wf_option (gs : guesses) (c : nat) (b : board) :
  wf_frame (gs, c, b) -> c < length gs ->
  fst (nth c gs (0, 0)) < 81 /\ get b (fst (nth c gs (0, 0))) = None.
Proof.
  intros [_ H] Hc. apply (H _ (snd (nth c gs (0, 0)))).
  rewrite <- surjective_pairing. apply nth_In. exact Hc.
Qed.

(** The frame that [solvenext] pushes after [deduce] on the workspace. *)
Lemma child_frame (gs : guesses) (c : nat) (b : board) (o : oracle)
      (w : board) (gs' : guesses) (o' : oracle) :
  wf_frame (gs, c, b) -> c < length gs ->
  deduce (put b (fst (nth c gs (0, 0))) (snd (nth c gs (0, 0)))) o
  = Some (w, Some gs', o') ->
  wf_frame (gs', 0, w) /\ filled b < filled w /\ length gs' <= 9.
Proof.
  intros Hwf Hc D. pose proof Hwf as [Hb _].
  destruct (wf_option gs c b Hwf Hc) as [Hp Hg]. cbn [snd] in Hb.
  assert (Hl : length (put b (fst (nth c gs (0, 0))) (snd (nth c gs (0, 0)))) = 81)
    by (rewrite length_put; exact Hb).
  destruct (deduce_spec _ o w (Some gs') o' Hl D) as [[Hw [_ [_ Hf]]] V].
  rewrite filled_put in Hf by lia. rewrite Hg in Hf. simpl in Hf.
  split; [|split; [lia|]].
  - split; [exact Hw|]. cbn [fst snd]. intros p n Hin.
    destruct V as [[-> _]|[[_ [Hpos _]] _]]; [destruct Hin|].
    destruct (Hpos p n Hin) as [X [_ Y]]. split; assumption.
  - destruct V as [[-> _]|[[[_ Hlen] _] _]]; [simpl; lia|exact Hlen].
Qed.

Lemma wf_advance (gs : guesses) (c : nat) (b : board) :
  wf_frame (gs, c, b) -> wf_frame (gs, c + 1, b).
Proof. intro H. exact H. Qed.

(** * C8: no two frames hold the same board *)

Lemma chain_tail (f : frame) (st : stack) : chain (f :: st) -> chain st.
Proof. intros [_ [_ H]]. exact H. Qed.

Lemma chain_advance (gs : guesses) (c : nat) (b : board) (rest : stack) :
  chain ((gs, c, b) :: rest) -> chain ((gs, c + 1, b) :: rest).
Proof. intros [H1 [H2 H3]]. split; [exact H1|]. split; [exact H2|exact H3]. Qed.

Lemma chain_push (gs : guesses) (c : nat) (b : board) (rest : stack) (o : oracle)
      (w : board) (gs' : guesses) (o' : oracle) :
  chain ((gs, c, b) :: rest) -> c < length gs ->
  deduce (put b (fst (nth c gs (0, 0))) (snd (nth c gs (0, 0)))) o
  = Some (w, Some gs', o') ->
  chain ((gs', 0, w) :: (gs, c + 1, b) :: rest).
Proof.
  intros Hch Hc D. pose proof Hch as [Hwf _].
  destruct (child_frame gs c b o w gs' o' Hwf Hc D) as [Hwf' [Hlt _]].
  split; [exact Hwf'|]. split; [exact Hlt|]. apply chain_advance. exact Hch.
Qed.

Lemma start_frame (original : board) (o : oracle) (b : board) (gs : guesses)
      (o' : oracle) :
  length original = 81 -> deduce original o = Some (b, Some gs, o') ->
  wf_frame (gs, 0, b) /\ length gs <= 9.
Proof.
  intros Hb D.
  destruct (deduce_spec original o b (Some gs) o' Hb D) as [[Hw _] V]. split.
  - split; [exact Hw|]. cbn [fst snd]. intros p n Hin.
    destruct V as [[-> _]|[[_ [Hpos _]] _]]; [destruct Hin|].
    destruct (Hpos p n Hin) as [X [_ Y]]. split; assumption.
  - destruct V as [[-> _]|[[[_ Hlen] _] _]]; [simpl; lia|exact Hlen].
Qed.

Lemma reachable_chain (original : board) (st : stack) :
  length original = 81 -> reachable original st -> chain st.
Proof.
  intros Hb R. induction R as [o b gs o' D|f rest R IH|gs c b rest R IH Hc
                               |gs c b rest o w gs' o' R IH Hc D].
  - split; [|split; exact I]. exact (proj1 (start_frame original o b gs o' Hb D)).
  - exact (chain_tail f rest IH).
  - exact (chain_advance gs c b rest IH).
  - exact (chain_push gs c b rest o w gs' o' IH Hc D).
Qed.

Lemma chain_below (st : stack) (f g : frame) :
  chain (f :: st) -> In g st -> filled (snd g) < filled (snd f).
Proof.
  revert f. induction st as [|h st IH]; intros f Hch Hin; [destruct Hin|].
  destruct Hch as [_ [Hlt Hch]]. destruct Hin as [<-|Hin]; [exact Hlt|].
  specialize (IH h Hch Hin). lia.
Qed.

Lemma chain_NoDup (st : stack) : chain st -> NoDup (map snd st).
Proof.
  induction st as [|f st IH]; intro Hch; simpl; constructor.
  - intro Hin. apply in_map_iff in Hin. destruct Hin as [g [E Hg]].
    pose proof (chain_below st f g Hch Hg) as Hlt. rewrite E in Hlt. lia.
  - apply IH. exact (chain_tail f st Hch).
Qed.


(** The stacks that [solvenext] and [solveboard] return are stacks of
    [reachable]. *)
Lemma solvenext_reachable (original : board) (fuel : nat) (st : stack) (o : oracle)
      (st' : stack) (ans : option board) (o' : oracle) :
  reachable original st -> solvenext fuel st o = Some (st', ans, o') ->
  st' = [] \/ reachable original st'.
Proof.
  apply (solvenext_inv (reachable original)
           (fun st' _ => st' = [] \/ reachable original st')).
  - intros _. left. reflexivity.
  - intros gs c b rest R _. exact (@reach_pop original _ rest R).
  - intros gs c b rest o1 w v o1' R Hc D. destruct v as [gs'|].
    + exact (@reach_push original gs c b rest o1 w gs' o1' R Hc D).
    + right. exact (@reach_advance original gs c b rest R Hc).
Qed.

Lemma solveboard_reachable (original : board) (fuel : nat) (o : oracle)
      (st' : stack) (ans : option board) (o' : oracle) :
  solveboard fuel original o = Some (st', ans, o') ->
  st' = [] \/ reachable original st'.
Proof.
  unfold solveboard. destruct (deduce original o) as [[[b v] o1]|] eqn:D;
    [|discriminate].
  destruct v as [gs|].
  - apply solvenext_reachable. exact (@reach_start original o b gs o1 D).
  - intro H. injection H as <- _ _. left. reflexivity.
Qed.

Lemma boards_differ (a b : board) :
  length a = 81 -> length b = 81 -> a <> b ->
  exists p, p < 81 /\ get a p <> get b p.
Proof.
  intros Ha Hb Hne.
  destruct (forallb (fun p => cell_eqb (get a p) (get b p)) (seq 0 81)) eqn:E.
  - exfalso. apply Hne. apply (nth_ext a b None None); [congruence|].
    intros p Hp. rewrite forallb_forall in E.
    apply cell_eqb_eq. apply E. apply in_seq. lia.
  - assert (X : exists p, In p (seq 0 81) /\
                          cell_eqb (get a p) (get b p) = false).
    { revert E. generalize (seq 0 81). intro l.
      induction l as [|x l IH]; simpl; [discriminate|].
      destruct (cell_eqb (get a x) (get b x)) eqn:Ex; simpl.
      - intro E. destruct (IH E) as [p [Hp Hc]]. exists p. split; [right|]; assumption.
      - intros _. exists x. split; [left; reflexivity|exact Ex]. }
    destruct X as [p [Hp Hc]]. exists p. apply in_seq in Hp. split; [lia|].
    intro Heq. apply cell_eqb_eq in Heq. congruence.
Qed.

Lemma chain_wf (st : stack) (f : frame) : chain st -> In f st -> wf_frame f.
Proof.
  induction st as [|h st IH]; intros Hch Hin; [destruct Hin|].
  destruct Hch as [Hwf [_ Hch]]. destruct Hin as [<-|Hin]; [exact Hwf|].
  exact (IH Hch Hin).
Qed.

Lemma chain_differ (st : stack) :
  chain st ->
  ForallOrdPairs (fun a b : board => exists p, p < 81 /\ get a p <> get b p)
                 (map snd st).
Proof.
  induction st as [|f st IH]; intro Hch; simpl; constructor.
  - apply Forall_forall. intros b Hb. apply in_map_iff in Hb.
    destruct Hb as [g [<- Hg]].
    pose proof (chain_below st f g Hch Hg) as Hlt.
    destruct Hch as [[Hf _] [_ Hch]]. destruct (chain_wf st g Hch Hg) as [Hg81 _].
    apply boards_differ; [exact Hf|exact Hg81|]. intro E. rewrite E in Hlt. lia.
  - apply IH. exact (chain_tail f st Hch).
Qed.

(** C8.  At every point of a search that [solveboard] starts on a board of
    81 cells and that [solvenext] continues, the boards of the frames on
    the stack are pairwise distinct sequences: any two of them differ in
    at least one cell. *)
Theorem search_stack_boards_distinct (original : board) (st : stack) :
  length original = 81 -> reachable original st ->
  NoDup (map snd st) /\
  ForallOrdPairs (fun a b : board => exists p, p < 81 /\ get a p <> get b p)
                 (map snd st).
Proof.
  intros Hb R. pose proof (reachable_chain original st Hb R) as Hch.
  split; [exact (chain_NoDup st Hch)|exact (chain_differ st Hch)].
Qed.

(** * C1: the boards returned as solutions are solved *)

Lemma solvenext_sound (fuel : nat) (st : stack) (o : oracle)
      (st' : stack) (ans : option board) (o' : oracle) :
  Forall (fun f : frame => length (snd f) = 81) st ->
  solvenext fuel st o = Some (st', ans, o') ->
  Forall (fun f : frame => length (snd f) = 81) st' /\
  forall w, ans = Some w -> solved w.
Proof.
  apply (solvenext_inv (Forall (fun f : frame => length (snd f) = 81))
           (fun st' ans => Forall (fun f : frame => length (snd f) = 81) st' /\
                           forall w, ans = Some w -> solved w)).
  - intros _. split; [constructor|]. intros w H. discriminate H.
  - intros gs c b rest H _. inversion H; assumption.
  - intros gs c b rest o1 w v o1' H Hc D.
    assert (Hb : length b = 81) by (inversion H; assumption).
    assert (Hrest : Forall (fun f : frame => length (snd f) = 81)
                           ((gs, c + 1, b) :: rest))
      by (inversion H; constructor; assumption).
    assert (Hl : length (put b (fst (nth c gs (0, 0))) (snd (nth c gs (0, 0)))) = 81)
      by (rewrite length_put; exact Hb).
    destruct (deduce_spec _ o1 w v o1' Hl D) as [[Hw _] V].
    destruct v as [gs'|].
    + constructor; [exact Hw|exact Hrest].
    + split; [exact Hrest|]. intros w' E. injection E as <-. exact V.
Qed.

Lemma solveboard_sound (fuel : nat) (original : board) (o : oracle)
      (st : stack) (ans : option board) (o' : oracle) :
  length original = 81 ->
  solveboard fuel original o = Some (st, ans, o') ->
  Forall (fun f : frame => length (snd f) = 81) st /\
  forall w, ans = Some w -> solved w.
Proof.
  intros Hb H. unfold solveboard in H.
  destruct (deduce original o) as [[[b v] o1]|] eqn:D; [|discriminate H].
  destruct (deduce_spec original o b v o1 Hb D) as [[Hw _] V].
  destruct v as [gs|].
  - assert (F : Forall (fun f : frame => length (snd f) = 81) [(gs, 0, b)])
      by (constructor; [exact Hw|constructor]).
    exact (solvenext_sound fuel _ o1 st ans o' F H).
  - injection H as <- <- _. split; [constructor|].
    intros w E. injection E as <-. exact V.
Qed.

(** C1.  Every board that [solveboard] or [solvenext] returns as the
    solution has 81 cells, all filled with digits 0..8, and each digit
    exactly once in every row, column and box. *)
Theorem answers_solved (fuel : nat) (o : oracle) :
  (forall original st w o',
      length original = 81 ->
      solveboard fuel original o = Some (st, Some w, o') -> solved w) /\
  (forall stack st w o',
      Forall (fun f : frame => length (snd f) = 81) stack ->
      solvenext fuel stack o = Some (st, Some w, o') ->
      solved w /\ Forall (fun f : frame => length (snd f) = 81) st).
Proof.
  split.
  - intros original st w o' Hb H.
    destruct (solveboard_sound fuel original o st (Some w) o' Hb H) as [_ S].
    apply S. reflexivity.
  - intros stack st w o' F H.
    destruct (solvenext_sound fuel stack o st (Some w) o' F H) as [F' S].
    split; [apply S; reflexivity|exact F'].
Qed.

(** * C10: termination *)

Lemma tree_bound_mono (k k' : nat) : k <= k' -> tree_bound k <= tree_bound k'.
Proof.
  intro H. induction H as [|k' H IH]; [apply le_n|]. simpl. lia.
Qed.

Lemma weight_pos (f : frame) : 1 <= weight f.
Proof. unfold weight. apply le_n_S, Nat.le_0_l. Qed.

Lemma weight_push (gs : guesses) (c : nat) (b : board)
      (gs' : guesses) (w : board) :
  c < length gs -> filled b < filled w -> length w = 81 -> length gs' <= 9 ->
  weight (gs', 0, w) + weight (gs, c + 1, b) < weight (gs, c, b).
Proof.
  intros Hc Hf Hw Hg. unfold weight. cbn [fst snd].
  pose proof (filled_le_length w) as Lw. rewrite Hw in Lw.
  pose proof (tree_bound_mono (S (81 - filled w)) (81 - filled b)) as M.
  assert (M' : 2 + 9 * tree_bound (81 - filled w) <= tree_bound (81 - filled b))
    by (apply M; lia).
  replace (length gs - c) with (S (length gs - (c + 1))) by lia.
  rewrite Nat.mul_succ_l, Nat.sub_0_r.
  pose proof (Nat.mul_le_mono_r (length gs') 9 (tree_bound (81 - filled w)) Hg).
  lia.
Qed.

Lemma solvenext_total (fuel : nat) :
  forall (st : stack) (o : oracle),
    Forall wf_frame st -> measure st < fuel ->
    exists r, solvenext fuel st o = Some r.
Proof.
  induction fuel as [|fuel IH]; intros st o Hwf Hm; [lia|].
  simpl. destruct st as [|[[gs c] b] rest]; [eexists; reflexivity|].
  assert (Hf : wf_frame (gs, c, b)) by (inversion Hwf; assumption).
  assert (Hr : Forall wf_frame rest) by (inversion Hwf; assumption).
  change (weight (gs, c, b) + measure rest < S fuel) in Hm.
  destruct (length gs <=? c) eqn:E.
  - apply IH; [exact Hr|]. pose proof (weight_pos (gs, c, b)). lia.
  - apply Nat.leb_gt in E.
    destruct (nth c gs (0, 0)) as [p n] eqn:En.
    pose proof Hf as [Hb _]. cbn [snd] in Hb.
    destruct (deduce_total (put b p n) o) as [[[w v] o1] D];
      [rewrite length_put; exact Hb|].
    rewrite D. destruct v as [gs'|]; [|eexists; reflexivity].
    assert (D' : deduce (put b (fst (nth c gs (0, 0))) (snd (nth c gs (0, 0)))) o
                 = Some (w, Some gs', o1)) by (rewrite En; exact D).
    destruct (child_frame gs c b o w gs' o1 Hf E D') as [Hwf' [Hlt Hlen]].
    apply IH.
    + constructor; [exact Hwf'|]. constructor; [exact Hf|exact Hr].
    + change (weight (gs', 0, w) + (weight (gs, c + 1, b) + measure rest) < fuel).
      pose proof Hwf' as [Hw _]. cbn [snd] in Hw.
      pose proof (weight_push gs c b gs' w E Hlt Hw Hlen). lia.
Qed.

Lemma solveboard_total (original : board) (o : oracle) :
  length original = 81 -> exists fuel r, solveboard fuel original o = Some r.
Proof.
  intro Hb. unfold solveboard.
  destruct (deduce_total original o Hb) as [[[b v] o1] D]. rewrite D.
  destruct v as [gs|]; [|exists 0; eexists; reflexivity].
  destruct (start_frame original o b gs o1 Hb D) as [Hwf _].
  exists (S (measure [(gs, 0, b)])).
  apply solvenext_total; [constructor; [exact Hwf|constructor]|apply Nat.lt_succ_diag_r].
Qed.

(** C10.  On a board of 81 cells every iteration of the outer loop of
    [deduce] returns or fills a cell that was empty, and the loop returns
    within 82 iterations.  [solvenext] returns on every stack of frames
    that hold 81 cells and options on empty cells: each iteration pops a
    frame, or advances a cursor and pushes a child whose board has more
    filled cells, so that [measure] decreases. *)
Theorem deduce_solvenext_terminate :
  (forall b o, length b = 81 ->
     match deduce_pass b o with
     | Next (b', _) => filled b < filled b'
     | Ret _ => True
     end /\
     exists r, deduce_loop 82 b o = Some r) /\
  (forall st o, Forall wf_frame st ->
     exists r, solvenext (S (measure st)) st o = Some r) /\
  (forall gs c b o w gs' o',
      wf_frame (gs, c, b) -> c < length gs ->
      deduce (put b (fst (nth c gs (0, 0))) (snd (nth c gs (0, 0)))) o
      = Some (w, Some gs', o') ->
      wf_frame (gs', 0, w) /\ filled b < filled w /\
      measure ((gs', 0, w) :: (gs, c + 1, b) :: nil) < measure ((gs, c, b) :: nil)).
Proof.
  split; [|split].
  - intros b o Hb. split.
    + pose proof (deduce_pass_spec b o Hb) as P.
      destruct (deduce_pass b o) as [[b' o']|r]; [|exact I].
      destruct P as [_ P]. exact P.
    + exact (deduce_total b o Hb).
  - intros st o Hwf. apply solvenext_total; [exact Hwf|apply Nat.lt_succ_diag_r].
  - intros gs c b o w gs' o' Hwf Hc D.
    destruct (child_frame gs c b o w gs' o' Hwf Hc D) as [Hwf' [Hlt Hlen]].
    split; [exact Hwf'|]. split; [exact Hlt|].
    change (weight (gs', 0, w) + (weight (gs, c + 1, b) + 0) < weight (gs, c, b) + 0).
    pose proof Hwf' as [Hw _]. cbn [snd] in Hw.
    pose proof (weight_push gs c b gs' w Hc Hlt Hw Hlen). lia.
Qed.

(** * C5: the three outcomes of [deduce] *)

(** C5.  [deduce] returns the solved outcome only with all 81 cells filled;
    when a cell is still empty at the return, the outcome is a
    contradiction (a board reached by forced assignments has an empty cell
    without candidate, or a line that misses a digit no cell of it can
    take) or a branch set that is not empty. *)
Theorem deduce_outcomes (b : board) (o : oracle) (b' : board) (v : verdict)
        (o' : oracle) :
  length b = 81 -> deduce b o = Some (b', v, o') ->
  (v = None -> forall p, p < 81 -> get b' p <> None) /\
  ((exists p, p < 81 /\ get b' p = None) ->
   (v = Some [] /\
    exists bm, length bm = 81 /\ extends bm b /\ forced b bm /\
               (dead_cell bm \/ dead_line bm)) \/
   (exists g, v = Some g /\ g <> [])).
Proof.
  intros Hb D. destruct (deduce_spec b o b' v o' Hb D) as [_ V]. split.
  - intros -> p Hp. destruct (solved_digit V Hp) as [n [_ E]]. congruence.
  - intros [p [Hp Hg]]. destruct v as [g|].
    + destruct V as [[-> [_ C]]|[[[Hlen _] _] _]].
      * left. split; [reflexivity|exact C].
      * right. exists g. split; [reflexivity|]. intros ->. simpl in Hlen. lia.
    + exfalso. destruct (solved_digit V Hp) as [n [_ E]]. congruence.
Qed.


(** * The search enumerates every solution once *)

Lemma extendsb_iff (s b : board) : extendsb s b = true <-> extends s b.
Proof.
  unfold extendsb. rewrite forallb_forall. split.
  - intros H p n Hg.
    destruct (Nat.lt_ge_cases p (length b)) as [Hp|Hp].
    + specialize (H p). rewrite Hg in H. apply cell_eqb_eq. apply H.
      apply in_seq. lia.
    + rewrite get_beyond in Hg by exact Hp. discriminate Hg.
  - intros H p _. destruct (get b p) as [n|] eqn:Hg; [|reflexivity].
    apply cell_eqb_eq. apply H. exact Hg.
Qed.

Lemma bool_ext (a b : bool) : (a = true <-> b = true) -> a = b.
Proof. destruct a, b; intros [H1 H2]; auto; symmetry; auto. Qed.

Lemma skipn_nth {A : Type} (l : list A) (c : nat) (d : A) :
  c < length l -> skipn c l = nth c l d :: skipn (c + 1) l.
Proof.
  revert c. induction l as [|a l IH]; intros [|c] H; simpl in *; try lia.
  - reflexivity.
  - apply IH. lia.
Qed.

Lemma pending_exhausted (s : board) (gs : guesses) (c : nat) (b : board) :
  length gs <= c -> pending s (gs, c, b) = 0.
Proof.
  intro H. unfold pending. cbn [fst snd]. rewrite skipn_all2 by exact H.
  destruct (extendsb s b); reflexivity.
Qed.

Lemma pending_advance (s : board) (gs : guesses) (c : nat) (b : board) :
  wf_frame (gs, c, b) -> c < length gs ->
  pending s (gs, c, b)
  = pending s (gs, c + 1, b)
    + Nat.b2n (extendsb s (put b (fst (nth c gs (0, 0))) (snd (nth c gs (0, 0))))).
Proof.
  intros Hwf Hc. destruct (wf_option gs c b Hwf Hc) as [Hp Hg].
  destruct Hwf as [Hb _]. cbn [snd] in Hb.
  unfold pending. cbn [fst snd]. rewrite (skipn_nth gs c (0, 0) Hc).
  unfold matching. cbn [filter].
  assert (E : extendsb s (put b (fst (nth c gs (0, 0))) (snd (nth c gs (0, 0))))
              = extendsb s b && agrees s (nth c gs (0, 0))).
  { apply bool_ext. rewrite andb_true_iff, !extendsb_iff.
    rewrite extends_put by (try exact Hg; lia).
    unfold agrees. rewrite cell_eqb_eq. reflexivity. }
  rewrite E. destruct (extendsb s b); [|reflexivity].
  destruct (agrees s (nth c gs (0, 0))); simpl; lia.
Qed.

(** What [deduce] on a board [b0] contributes for a solved board [s]: the
    solution itself, or a fresh frame in which exactly one option leads
    to [s]. *)
Lemma deduce_count (s b0 : board) (o : oracle) (w : board) (v : verdict)
      (o' : oracle) :
  solved s -> length b0 = 81 -> deduce b0 o = Some (w, v, o') ->
  Nat.b2n (extendsb s b0)
  = match v with
    | None => hit s (Some w)
    | Some gs' => pending s (gs', 0, w)
    end.
Proof.
  intros Hs Hb D.
  destruct (deduce_spec b0 o w v o' Hb D) as [[Hw [He [Hf _]]] V].
  destruct (extendsb s b0) eqn:E.
  - apply extendsb_iff in E. pose proof (Hf s Hs E) as Ew.
    destruct v as [gs'|].
    + unfold pending. cbn [fst snd skipn].
      rewrite (proj2 (extendsb_iff s w) Ew).
      destruct V as [[_ [Hno _]]|[[_ [_ Hone]] _]].
      * exfalso. exact (Hno s Hs E).
      * symmetry. exact (Hone s Hs Ew).
    + unfold hit. destruct (board_eq_dec w s) as [_|Hne]; [reflexivity|].
      exfalso. apply Hne. symmetry.
      apply extends_full; [exact (solved_length Hs)|exact Hw| |exact Ew].
      intros p Hp. destruct (solved_digit V Hp) as [n [_ En]]. congruence.
  - assert (Hn : ~ extends s w).
    { intro Ew. assert (X : extendsb s b0 = true)
        by (apply extendsb_iff; exact (extends_trans Ew He)).
      congruence. }
    destruct v as [gs'|].
    + unfold pending. cbn [fst snd].
      destruct (extendsb s w) eqn:E'; [|reflexivity].
      exfalso. apply Hn. apply extendsb_iff. exact E'.
    + unfold hit. destruct (board_eq_dec w s) as [->|_]; [|reflexivity].
      exfalso. apply Hn. apply extends_refl.
Qed.

Lemma pend_cons (s : board) (f : frame) (st : stack) :
  pend s (f :: st) = pending s f + pend s st.
Proof. reflexivity. Qed.

(** Every solved board that was to come from the stack is returned, or is
    still to come from the stack that is returned; when no board is
    returned, the stack that is returned is empty. *)
Lemma solvenext_count (s : board) (fuel : nat) (st : stack) (o : oracle)
      (st' : stack) (ans : option board) (o' : oracle) :
  solved s -> Forall wf_frame st ->
  solvenext fuel st o = Some (st', ans, o') ->
  Forall wf_frame st' /\ pend s st = pend s st' + hit s ans /\
  (ans = None -> st' = []).
Proof.
  intros Hs Hwf H.
  refine (solvenext_inv
            (fun st1 => Forall wf_frame st1 /\ pend s st = pend s st1)
            (fun st' ans => Forall wf_frame st' /\ pend s st = pend s st' + hit s ans /\
                            (ans = None -> st' = []))
            _ _ _ fuel st o st' ans o' _ H).
  - intros [W E]. split; [constructor|]. split; [|reflexivity].
    rewrite E. reflexivity.
  - intros gs c b rest [W E] Hc. split; [inversion W; assumption|].
    rewrite E, pend_cons, pending_exhausted by exact Hc. reflexivity.
  - intros gs c b rest o1 w v o1' [W E] Hc D.
    assert (Hf : wf_frame (gs, c, b)) by (inversion W; assumption).
    assert (Hr : Forall wf_frame rest) by (inversion W; assumption).
    assert (Hl : length (put b (fst (nth c gs (0, 0))) (snd (nth c gs (0, 0)))) = 81)
      by (rewrite length_put; exact (proj1 Hf)).
    pose proof (deduce_count s _ o1 w v o1' Hs Hl D) as C.
    rewrite pend_cons, (pending_advance s gs c b Hf Hc), C in E.
    destruct v as [gs'|].
    + destruct (child_frame gs c b o1 w gs' o1' Hf Hc D) as [Hwf' _].
      split; [constructor; [exact Hwf'|constructor; [exact Hf|exact Hr]]|].
      rewrite E, !pend_cons. lia.
    + split; [constructor; [exact Hf|exact Hr]|].
      split; [rewrite E, pend_cons; lia|discriminate].
  - split; [exact Hwf|reflexivity].
Qed.

(** The same for a whole search: a solved board extends the puzzle exactly
    when it is the answer or is still to come. *)
Lemma solveboard_count (s : board) (fuel : nat) (original : board) (o : oracle)
      (st' : stack) (ans : option board) (o' : oracle) :
  solved s -> length original = 81 ->
  solveboard fuel original o = Some (st', ans, o') ->
  Forall wf_frame st' /\
  Nat.b2n (extendsb s original) = pend s st' + hit s ans /\
  (ans = None -> st' = []).
Proof.
  intros Hs Hb H. unfold solveboard in H.
  destruct (deduce original o) as [[[b v] o1]|] eqn:D; [|discriminate H].
  pose proof (deduce_count s original o b v o1 Hs Hb D) as C.
  destruct v as [gs|].
  - destruct (start_frame original o b gs o1 Hb D) as [Hwf _].
    assert (W : Forall wf_frame [(gs, 0, b)]) by (constructor; [exact Hwf|constructor]).
    destruct (solvenext_count s fuel _ o1 st' ans o' Hs W H) as [W' [E N]].
    split; [exact W'|]. split; [|exact N].
    rewrite C, <- E. unfold pend. simpl. lia.
  - injection H as <- <- <-. split; [constructor|].
    split; [rewrite C; reflexivity|discriminate].
Qed.

(** * Fuel and well-formed stacks *)

Lemma solveboard_more (fuel fuel' : nat) (original : board) (o : oracle)
      (r : stack * option board * oracle) :
  solveboard fuel original o = Some r -> fuel <= fuel' ->
  solveboard fuel' original o = Some r.
Proof.
  unfold solveboard. intros H Hle.
  destruct (deduce original o) as [[[b v] o1]|]; [|discriminate H].
  destruct v as [gs|]; [|exact H].
  exact (solvenext_more fuel _ o1 r fuel' H Hle).
Qed.

Lemma solveboard_wf (fuel : nat) (original : board) (o : oracle)
      (st : stack) (ans : option board) (o' : oracle) :
  length original = 81 -> solveboard fuel original o = Some (st, ans, o') ->
  Forall wf_frame st.
Proof.
  intros Hb H. destruct (solveboard_reachable original fuel o st ans o' H) as [->|R].
  - constructor.
  - pose proof (reachable_chain original st Hb R) as Hch.
    apply Forall_forall. intros f Hf. exact (chain_wf st f Hch Hf).
Qed.

Lemma solvenext_none (fuel : nat) (st : stack) (o : oracle)
      (st' : stack) (ans : option board) (o' : oracle) :
  solvenext fuel st o = Some (st', ans, o') -> ans = None -> st' = [].
Proof.
  intro H.
  refine (solvenext_inv (fun _ => True) (fun st' ans => ans = None -> st' = [])
            _ _ _ fuel st o st' ans o' I H).
  - intros _ _. reflexivity.
  - intros. exact I.
  - intros gs c b rest o1 w v o1' _ _ _. destruct v; [exact I|discriminate].
Qed.

Lemma solveboard_none (fuel : nat) (original : board) (o : oracle)
      (st : stack) (ans : option board) (o' : oracle) :
  solveboard fuel original o = Some (st, ans, o') -> ans = None -> st = [].
Proof.
  unfold solveboard. destruct (deduce original o) as [[[b v] o1]|]; [|discriminate].
  destruct v as [gs|].
  - apply solvenext_none.
  - intros H E. injection H as <- _ _. reflexivity.
Qed.

(** * What [solveboard] finds *)

Lemma hit_one (s w : board) : hit s (Some w) = 1 <-> w = s.
Proof.
  unfold hit. destruct (board_eq_dec w s) as [E|E]; split; intro H;
    try assumption; try reflexivity; try discriminate. contradiction.
Qed.

Lemma b2n_le (a : bool) : Nat.b2n a <= 1.
Proof. destruct a; simpl; lia. Qed.

(** The answer of [solveboard] is a solution of the puzzle. *)
Lemma solveboard_answer (fuel : nat) (original : board) (o : oracle)
      (st : stack) (w : board) (o' : oracle) :
  length original = 81 -> solveboard fuel original o = Some (st, Some w, o') ->
  solved w /\ extends w original.
Proof.
  intros Hb H.
  destruct (solveboard_sound fuel original o st (Some w) o' Hb H) as [_ S].
  specialize (S w eq_refl). split; [exact S|].
  destruct (solveboard_count w fuel original o st (Some w) o' S Hb H) as [_ [E _]].
  rewrite (proj2 (hit_one w w) eq_refl) in E.
  apply extendsb_iff. destruct (extendsb w original); [reflexivity|].
  simpl in E. lia.
Qed.

(** No answer: the puzzle has no solution. *)
Lemma solveboard_unsolvable (fuel : nat) (original : board) (o : oracle)
      (st : stack) (o' : oracle) :
  length original = 81 -> solveboard fuel original o = Some (st, None, o') ->
  forall s, solved s -> ~ extends s original.
Proof.
  intros Hb H s Hs He.
  destruct (solveboard_count s fuel original o st None o' Hs Hb H) as [_ [E N]].
  rewrite (N eq_refl) in E. rewrite (proj2 (extendsb_iff s original) He) in E.
  discriminate E.
Qed.

Lemma duplicate_not_solved (s original : board) :
  has_duplicate original -> solved s -> extends s original -> False.
Proof.
  intros [axis [x [y [y' [n [Ha [Hx [Hy [Hy' [Hne [E1 E2]]]]]]]]]]] Hs He.
  apply Hne. apply (@solved_once s axis x y y' Hs Ha Hx Hy Hy').
  rewrite (He _ _ E1), (He _ _ E2). reflexivity.
Qed.

(** C6.  On a board of 81 cells in which a digit occurs twice in a row, a
    column or a box, [solveboard] returns, for every sequence of random
    choices, and its answer is [None] (with the empty stack). *)
Theorem duplicates_unsolvable (original : board) (o : oracle) :
  length original = 81 -> has_duplicate original ->
  (exists fuel o', solveboard fuel original o = Some ([], None, o')) /\
  (forall fuel st ans o',
      solveboard fuel original o = Some (st, ans, o') -> ans = None).
Proof.
  intros Hb Hd.
  assert (N : forall fuel st ans o',
             solveboard fuel original o = Some (st, ans, o') -> ans = None).
  { intros fuel st ans o' H. destruct ans as [w|]; [|reflexivity]. exfalso.
    destruct (solveboard_answer fuel original o st w o' Hb H) as [S E].
    exact (duplicate_not_solved w original Hd S E). }
  split; [|exact N].
  destruct (solveboard_total original o Hb) as [fuel [[[st ans] o'] H]].
  exists fuel, o'. pose proof (N fuel st ans o' H) as ->.
  rewrite (solveboard_none fuel original o st None o' H eq_refl) in H. exact H.
Qed.


(** * [checkpuzzle] *)

Lemma boardmatches_true (b1 b2 : board) :
  boardmatches b1 b2 = true <-> forall p, p < 81 -> get b1 p = get b2 p.
Proof.
  unfold boardmatches. rewrite forallb_forall. split.
  - intros H p Hp. apply cell_eqb_eq. apply H. apply in_seq. lia.
  - intros H p Hp. apply cell_eqb_eq. apply H. apply in_seq in Hp. lia.
Qed.

Lemma boardmatches_false (b1 b2 : board) :
  boardmatches b1 b2 = false <-> exists p, p < 81 /\ get b1 p <> get b2 p.
Proof.
  split.
  - unfold boardmatches. generalize (Forall_below 81). generalize (seq 0 81).
    intro l. induction l as [|x l IH]; intros F H; simpl in H; [discriminate H|].
    inversion F as [|? ? Hx F']; subst.
    destruct (cell_eqb (get b1 x) (get b2 x)) eqn:E; simpl in H.
    + exact (IH F' H).
    + exists x. split; [exact Hx|]. intro Heq. apply cell_eqb_eq in Heq. congruence.
  - intros [p [Hp Hne]]. destruct (boardmatches b1 b2) eqn:E; [|reflexivity].
    exfalso. apply Hne. exact (proj1 (boardmatches_true b1 b2) E p Hp).
Qed.

Lemma boardmatches_eq (b1 b2 : board) :
  length b1 = 81 -> length b2 = 81 -> boardmatches b1 b2 = true -> b1 = b2.
Proof.
  intros H1 H2 H. apply (nth_ext b1 b2 None None); [congruence|].
  intros p Hp. apply (proj1 (boardmatches_true b1 b2) H). lia.
Qed.

Lemma boardmatches_refl (b : board) : boardmatches b b = true.
Proof. apply boardmatches_true. reflexivity. Qed.

(** The three ways through [checkpuzzle]. *)
Lemma checkpuzzle_cases (fuel : nat) (puzzle : board) (target : option board)
      (o : oracle) (r : Z) (o' : oracle) :
  checkpuzzle fuel puzzle target o = Some (r, o') ->
  exists st1 ans1 o1,
    solveboard fuel puzzle o = Some (st1, ans1, o1) /\
    ((ans1 = None /\ r = (-1)%Z) \/
     (exists a t, ans1 = Some a /\ target = Some t /\
                  boardmatches t a = false /\ r = (-1)%Z) \/
     (exists a st2 ans2,
         ans1 = Some a /\
         (forall t, target = Some t -> boardmatches t a = true) /\
         solvenext fuel st1 o1 = Some (st2, ans2, o') /\
         ((ans2 <> None /\ r = (-1)%Z) \/
          (ans2 = None /\ r = Z.of_nat (length st1))))).
Proof.
  unfold checkpuzzle. intro H.
  destruct (solveboard fuel puzzle o) as [[[st1 ans1] o1]|]; [|discriminate H].
  exists st1, ans1, o1. split; [reflexivity|].
  destruct ans1 as [a|].
  - assert (X : (exists t, target = Some t /\ boardmatches t a = false) \/
                (forall t, target = Some t -> boardmatches t a = true)).
    { destruct target as [t|].
      - destruct (boardmatches t a) eqn:E.
        + right. intros t' Et. injection Et as <-. exact E.
        + left. exists t. split; [reflexivity|exact E].
      - right. intros t' Et. discriminate Et. }
    destruct X as [[t [-> Et]]|Ht].
    + rewrite Et in H. simpl in H. injection H as <- _.
      right. left. exists a, t. repeat split; assumption.
    + assert (Y : match target with
                  | Some b => negb (boardmatches b a)
                  | None => false
                  end = false).
      { destruct target as [t|]; [|reflexivity]. rewrite (Ht t eq_refl). reflexivity. }
      rewrite Y in H.
      destruct (solvenext fuel st1 o1) as [[[st2 ans2] o2]|]; [|discriminate H].
      right. right. exists a, st2, ans2. split; [reflexivity|]. split; [exact Ht|].
      destruct ans2 as [a2|]; injection H as <- <-.
      * split; [reflexivity|]. left. split; [discriminate|reflexivity].
      * split; [reflexivity|]. right. split; reflexivity.
  - injection H as <- _. left. split; reflexivity.
Qed.

(** With a target, [checkpuzzle] accepts exactly the puzzles whose only
    solution is the target. *)
Lemma checkpuzzle_unique (fuel : nat) (puzzle target : board) (o : oracle)
      (r : Z) (o' : oracle) :
  length puzzle = 81 -> length target = 81 ->
  checkpuzzle fuel puzzle (Some target) o = Some (r, o') ->
  (r <> (-1)%Z <-> unique_solution puzzle target).
Proof.
  intros Hp Ht H.
  destruct (checkpuzzle_cases fuel puzzle (Some target) o r o' H)
    as [st1 [ans1 [o1 [S C]]]].
  destruct C as [[-> ->]|[[a [t [-> [Et [M ->]]]]]|
                         [a [st2 [ans2 [-> [M [S2 C]]]]]]]].
  - split; [intro X; exfalso; apply X; reflexivity|].
    intros [Us [Ue _]]. exfalso.
    exact (solveboard_unsolvable fuel puzzle o st1 o1 Hp S target Us Ue).
  - injection Et as <-.
    split; [intro X; exfalso; apply X; reflexivity|].
    intros [_ [_ Uu]]. exfalso.
    destruct (solveboard_answer fuel puzzle o st1 a o1 Hp S) as [Sa Ea].
    rewrite (Uu a Sa Ea), boardmatches_refl in M. discriminate M.
  - destruct (solveboard_answer fuel puzzle o st1 a o1 Hp S) as [Sa Ea].
    pose proof (boardmatches_eq target a Ht (solved_length Sa) (M target eq_refl))
      as Eta. subst a.
    pose proof (solveboard_wf fuel puzzle o st1 (Some target) o1 Hp S) as W.
    destruct C as [[N ->]|[-> ->]].
    + split; [intro X; exfalso; apply X; reflexivity|].
      intros [_ [_ Uu]]. exfalso.
      destruct ans2 as [a2|]; [|apply N; reflexivity].
      destruct (solvenext_sound fuel st1 o1 st2 (Some a2) o') as [_ S2'];
        [|exact S2|].
      { apply Forall_forall. intros f Hf.
        exact (proj1 (proj1 (Forall_forall _ _) W f Hf)). }
      specialize (S2' a2 eq_refl).
      destruct (solvenext_count a2 fuel st1 o1 st2 (Some a2) o' S2' W S2) as [_ [E2 _]].
      destruct (solveboard_count a2 fuel puzzle o st1 (Some target) o1 S2' Hp S)
        as [_ [E1 _]].
      rewrite (proj2 (hit_one a2 a2) eq_refl) in E2.
      pose proof (b2n_le (extendsb a2 puzzle)) as L.
      assert (Ex : extendsb a2 puzzle = true).
      { destruct (extendsb a2 puzzle); [reflexivity|]. simpl in E1. lia. }
      assert (Hh : hit a2 (Some target) = 0) by lia.
      rewrite (Uu a2 S2' (proj1 (extendsb_iff a2 puzzle) Ex)) in Hh.
      rewrite (proj2 (hit_one target target) eq_refl) in Hh. discriminate Hh.
    + split; [|intros _; lia].
      intros _. split; [exact Sa|]. split; [exact Ea|].
      intros s Hs He.
      destruct (solvenext_count s fuel st1 o1 st2 None o' Hs W S2) as [_ [E2 N2]].
      destruct (solveboard_count s fuel puzzle o st1 (Some target) o1 Hs Hp S)
        as [_ [E1 _]].
      rewrite (N2 eq_refl) in E2. change (pend s st1 = 0 + 0) in E2.
      rewrite (proj2 (extendsb_iff s puzzle) He) in E1.
      change (1 = pend s st1 + hit s (Some target)) in E1.
      symmetry. apply (proj1 (hit_one s target)). lia.
Qed.

Lemma checkpuzzle_more (fuel fuel' : nat) (puzzle : board) (target : option board)
      (o : oracle) (r : Z * oracle) :
  checkpuzzle fuel puzzle target o = Some r -> fuel <= fuel' ->
  checkpuzzle fuel' puzzle target o = Some r.
Proof.
  unfold checkpuzzle. intros H Hle.
  destruct (solveboard fuel puzzle o) as [[[st1 ans1] o1]|] eqn:S; [|discriminate H].
  rewrite (solveboard_more fuel fuel' puzzle o _ S Hle).
  destruct ans1 as [a|]; [|exact H].
  destruct (match target with
            | Some b => negb (boardmatches b a)
            | None => false
            end); [exact H|].
  destruct (solvenext fuel st1 o1) as [[[st2 ans2] o2]|] eqn:S2; [|discriminate H].
  rewrite (solvenext_more fuel st1 o1 _ fuel' S2 Hle). exact H.
Qed.

Lemma checkpuzzle_total (puzzle : board) (target : option board) (o : oracle) :
  length puzzle = 81 ->
  exists fuel r, checkpuzzle fuel puzzle target o = Some r.
Proof.
  intro Hp.
  destruct (solveboard_total puzzle o Hp) as [f1 [[[st1 ans1] o1] Sb]].
  pose proof (solveboard_wf f1 puzzle o st1 ans1 o1 Hp Sb) as W.
  destruct (solvenext_total (S (measure st1)) st1 o1 W (Nat.lt_succ_diag_r _))
    as [[[st2 ans2] o2] S2].
  exists (Nat.max f1 (S (measure st1))). unfold checkpuzzle.
  rewrite (solveboard_more f1 _ puzzle o _ Sb (Nat.le_max_l _ _)).
  destruct ans1 as [a|]; [|eexists; reflexivity].
  destruct (match target with
            | Some b => negb (boardmatches b a)
            | None => false
            end); [eexists; reflexivity|].
  rewrite (solvenext_more _ st1 o1 _ _ S2 (Nat.le_max_r _ _)).
  destruct ans2; eexists; reflexivity.
Qed.

(** C4.  [checkpuzzle] returns on every puzzle of 81 cells.  It returns -1
    exactly when [solveboard] finds no solution (which happens exactly
    when the puzzle has none), or the solution found differs from the
    target in some cell, or [solvenext] on the returned stack yields a
    second solution; otherwise it returns the number of frames that were on
    the stack when the first solution was found, which is not negative. *)
Theorem checkpuzzle_result (puzzle : board) (target : option board) (o : oracle) :
  length puzzle = 81 ->
  (exists fuel r o', checkpuzzle fuel puzzle target o = Some (r, o')) /\
  forall fuel r o',
    checkpuzzle fuel puzzle target o = Some (r, o') ->
    exists st1 ans1 o1,
      solveboard fuel puzzle o = Some (st1, ans1, o1) /\
      (ans1 = None <-> ~ exists s, solved s /\ extends s puzzle) /\
      (r = (-1)%Z <->
       ans1 = None \/
       (exists a t p, ans1 = Some a /\ target = Some t /\
                      p < 81 /\ get t p <> get a p) \/
       (exists a st2 a2 o2, ans1 = Some a /\
                            solvenext fuel st1 o1 = Some (st2, Some a2, o2))) /\
      (r <> (-1)%Z -> r = Z.of_nat (length st1) /\ (0 <= r)%Z).
Proof.
  intro Hp. split.
  - destruct (checkpuzzle_total puzzle target o Hp) as [fuel [[r o'] H]].
    exists fuel, r, o'. exact H.
  - intros fuel r o' H.
    destruct (checkpuzzle_cases fuel puzzle target o r o' H)
      as [st1 [ans1 [o1 [S C]]]].
    exists st1, ans1, o1. split; [exact S|]. split; [|split].
    + split.
      * intros -> [s [Hs He]].
        exact (solveboard_unsolvable fuel puzzle o st1 o1 Hp S s Hs He).
      * intro N. destruct ans1 as [a|]; [|reflexivity]. exfalso. apply N.
        exists a. exact (solveboard_answer fuel puzzle o st1 a o1 Hp S).
    + destruct C as [[-> ->]|[[a [t [-> [-> [M ->]]]]]|
                             [a [st2 [ans2 [-> [M [S2 C]]]]]]]].
      * split; [intros _; left; reflexivity|reflexivity].
      * split; [|reflexivity]. intros _. right. left.
        destruct (proj1 (boardmatches_false t a) M) as [p [Hlt Hne]].
        exists a, t, p. repeat split; assumption.
      * split.
        -- intros ->. destruct C as [[N _]|[_ E]]; [|lia].
           right. right. destruct ans2 as [a2|]; [|exfalso; apply N; reflexivity].
           exists a, st2, a2, o'. split; [reflexivity|exact S2].
        -- intros [E|[[a' [t [p [Ea [Et [Hlt Hne]]]]]]|[a' [st2' [a2 [o2 [Ea S2']]]]]]].
           ++ discriminate E.
           ++ exfalso. apply Hne.
              injection Ea as <-.
              exact (proj1 (boardmatches_true t a) (M t Et) p Hlt).
           ++ rewrite S2 in S2'. injection S2' as _ E2 _. rewrite E2 in C.
              destruct C as [[_ E]|[E _]]; [exact E|discriminate E].
    + intro Hr.
      destruct C as [[_ ->]|[[a [t [_ [_ [_ ->]]]]]|
                            [a [st2 [ans2 [_ [_ [_ [[_ ->]|[_ ->]]]]]]]]]];
        try (exfalso; apply Hr; reflexivity).
      split; [reflexivity|lia].
Qed.


(** * The store: [solveboard] works on a copy *)

Lemma read_write_eq (h : heap) (l : loc) (b : board) :
  l < length h -> read (write h l b) l = b.
Proof. intro H. unfold read, write. apply nth_set_nth_eq. exact H. Qed.

Lemma read_write_ne (h : heap) (l l' : loc) (b : board) :
  l <> l' -> read (write h l b) l' = read h l'.
Proof. intro H. unfold read, write. apply nth_set_nth_ne. exact H. Qed.

Lemma length_write (h : heap) (l : loc) (b : board) : length (write h l b) = length h.
Proof. apply length_set_nth. Qed.

Lemma read_alloc_old (h : heap) (b : board) (l : loc) :
  l < length h -> read (h ++ [b]) l = read h l.
Proof. intro H. unfold read. apply app_nth1. exact H. Qed.

Lemma read_alloc_new (h : heap) (b : board) : read (h ++ [b]) (length h) = b.
Proof. unfold read. apply nth_middle. Qed.

Lemma preserved_refl (h : heap) : preserved h h.
Proof. split; [apply le_n|reflexivity]. Qed.

Lemma preserved_trans (h1 h2 h3 : heap) :
  preserved h1 h2 -> preserved h2 h3 -> preserved h1 h3.
Proof.
  intros [L1 R1] [L2 R2]. split; [lia|].
  intros l Hl. rewrite R2 by lia. apply R1. exact Hl.
Qed.

(** A copy is made, changed and handed to [deduce]: the objects that were
    there keep their cells. *)
Lemma workspace_step (h : heap) (b : board) (p n : nat) (o : oracle)
      (h3 : heap) (v : verdict) (o' : oracle) :
  deduce_at (write (h ++ [b]) (length h) (put (read (h ++ [b]) (length h)) p n))
            (length h) o = Some (h3, v, o') ->
  exists w, deduce (put b p n) o = Some (w, v, o') /\
            preserved h h3 /\ length h3 = S (length h) /\ read h3 (length h) = w.
Proof.
  unfold deduce_at. rewrite read_alloc_new.
  rewrite read_write_eq by (rewrite length_app; simpl; lia).
  destruct (deduce (put b p n) o) as [[[w v1] o1]|]; [|discriminate].
  intro H. injection H as <- <- <-. exists w. split; [reflexivity|].
  assert (L : length (write (write (h ++ [b]) (length h) (put b p n)) (length h) w)
              = S (length h))
    by (rewrite !length_write, length_app; simpl; lia).
  split; [|split; [exact L|]].
  - split; [lia|]. intros l Hl.
    rewrite !read_write_ne by lia. apply read_alloc_old. exact Hl.
  - apply read_write_eq. rewrite length_write, length_app. simpl. lia.
Qed.

Lemma deref_preserved (h h' : heap) (st : hstack) :
  preserved h h' -> Forall (fun f : hframe => snd f < length h) st ->
  map (deref h') st = map (deref h) st.
Proof.
  intros [_ R] F. induction F as [|f st Hf F IH]; simpl; [reflexivity|].
  rewrite IH. unfold deref. rewrite (R _ Hf). reflexivity.
Qed.

Lemma Forall_loc_mono (h h' : heap) (st : hstack) :
  length h <= length h' -> Forall (fun f : hframe => snd f < length h) st ->
  Forall (fun f : hframe => snd f < length h') st.
Proof.
  intros L F. apply Forall_forall. intros f Hf.
  pose proof (proj1 (Forall_forall _ _) F f Hf). simpl in *. lia.
Qed.

(** The search in the store computes what the functional search computes,
    and changes no object that existed before. *)
Lemma solvenext_at_sim (fuel : nat) :
  forall (h : heap) (st : hstack) (o : oracle)
         (h' : heap) (st' : hstack) (ans : option loc) (o' : oracle),
    Forall (fun f : hframe => snd f < length h) st ->
    solvenext_at fuel h st o = Some (h', st', ans, o') ->
    preserved h h' /\
    Forall (fun f : hframe => snd f < length h') st' /\
    (forall l, ans = Some l -> l < length h') /\
    solvenext fuel (map (deref h) st) o
    = Some (map (deref h') st', option_map (read h') ans, o').
Proof.
  induction fuel as [|fuel IH]; intros h st o h' st' ans o' F H; [discriminate H|].
  simpl in H. destruct st as [|[[gs c] bl] rest].
  - injection H as <- <- <- <-. split; [apply preserved_refl|].
    split; [constructor|]. split; [discriminate|reflexivity].
  - assert (Fb : bl < length h) by (inversion F; assumption).
    assert (Fr : Forall (fun f : hframe => snd f < length h) rest)
      by (inversion F; assumption).
    simpl. unfold deref at 1. cbn [fst snd].
    destruct (length gs <=? c) eqn:E.
    + exact (IH h rest o h' st' ans o' Fr H).
    + unfold alloc in H. destruct (nth c gs (0, 0)) as [p n] eqn:En.
      destruct (deduce_at _ (length h) o) as [[[h3 v] o1]|] eqn:D; [|discriminate H].
      destruct (workspace_step h (read h bl) p n o h3 v o1 D)
        as [w [Dw [P [L Rw]]]].
      rewrite Dw.
      assert (F3 : Forall (fun f : hframe => snd f < length h3)
                          ((gs, c + 1, bl) :: rest)).
      { apply (Forall_loc_mono h h3); [lia|]. constructor; assumption. }
      assert (M3 : map (deref h3) ((gs, c + 1, bl) :: rest)
                   = (gs, c + 1, read h bl) :: map (deref h) rest).
      { rewrite (deref_preserved h h3 _ P) by (constructor; assumption).
        reflexivity. }
      destruct v as [gs'|].
      * assert (F3' : Forall (fun f : hframe => snd f < length h3)
                             ((gs', 0, length h) :: (gs, c + 1, bl) :: rest))
          by (constructor; [simpl; lia|exact F3]).
        destruct (IH h3 _ o1 h' st' ans o' F3' H) as [P' [F' [A' S']]].
        split; [exact (preserved_trans h h3 h' P P')|].
        split; [exact F'|]. split; [exact A'|].
        rewrite <- S'. cbn [map]. rewrite <- M3. cbn [map].
        unfold deref at 3. cbn [fst snd]. rewrite Rw. reflexivity.
      * injection H as <- <- <- <-. split; [exact P|]. split; [exact F3|].
        split; [intros l El; injection El as <-; lia|].
        rewrite M3. cbn [option_map]. rewrite Rw. reflexivity.
Qed.

Lemma solveboard_at_sim (fuel : nat) (h : heap) (original : loc) (o : oracle)
      (h' : heap) (st' : hstack) (ans : option loc) (o' : oracle) :
  solveboard_at fuel h original o = Some (h', st', ans, o') ->
  preserved h h' /\
  Forall (fun f : hframe => snd f < length h') st' /\
  (forall l, ans = Some l -> l < length h') /\
  solveboard fuel (read h original) o
  = Some (map (deref h') st', option_map (read h') ans, o').
Proof.
  unfold solveboard_at, solveboard, alloc. intro H.
  destruct (deduce_at (h ++ [read h original]) (length h) o)
    as [[[h2 v] o1]|] eqn:D; [|discriminate H].
  unfold deduce_at in D. rewrite read_alloc_new in D.
  destruct (deduce (read h original) o) as [[[w v1] o2]|]; [|discriminate D].
  injection D as <- <- <-.
  assert (L : length (write (h ++ [read h original]) (length h) w) = S (length h))
    by (rewrite length_write, length_app; simpl; lia).
  assert (P : preserved h (write (h ++ [read h original]) (length h) w)).
  { split; [lia|]. intros l Hl. rewrite read_write_ne by lia.
    apply read_alloc_old. exact Hl. }
  assert (Rw : read (write (h ++ [read h original]) (length h) w) (length h) = w)
    by (apply read_write_eq; rewrite length_app; simpl; lia).
  destruct v1 as [gs|].
  - assert (F : Forall (fun f : hframe =>
                          snd f < length (write (h ++ [read h original]) (length h) w))
                       [(gs, 0, length h)])
      by (constructor; [simpl; lia|constructor]).
    destruct (solvenext_at_sim fuel _ _ o2 h' st' ans o' F H) as [P' [F' [A' S']]].
    split; [exact (preserved_trans _ _ _ P P')|]. split; [exact F'|].
    split; [exact A'|]. rewrite <- S'. cbn [map]. unfold deref. cbn [fst snd].
    rewrite Rw. reflexivity.
  - injection H as <- <- <- <-. split; [exact P|]. split; [constructor|].
    split; [intros l El; injection El as <-; lia|].
    cbn [map option_map]. rewrite Rw. reflexivity.
Qed.

Lemma ratepuzzle_runs_preserved (fuel : nat) (puzzle : loc) (samples : nat) :
  forall (h : heap) (total : nat) (o : oracle) (h' : heap) (r : option nat)
         (o' : oracle),
    ratepuzzle_runs fuel h puzzle samples total o = Some (h', r, o') ->
    preserved h h'.
Proof.
  induction samples as [|k IH]; intros h total o h' r o' H; simpl in H.
  - injection H as <- _ _. apply preserved_refl.
  - destruct (solveboard_at fuel h puzzle o) as [[[[h1 st] ans] o1]|] eqn:S;
      [|discriminate H].
    destruct (solveboard_at_sim fuel h puzzle o h1 st ans o1 S) as [P _].
    destruct ans as [a|].
    + exact (preserved_trans _ _ _ P (IH _ _ _ _ _ _ H)).
    + injection H as <- _ _. exact P.
Qed.

(** C9.  [deduce] changes the list it is given, and [solveboard] gives it a
    copy: after [solveboard], and so after [solution], [checkpuzzle] and
    [ratepuzzle], every board that existed before the call, the argument
    among them, holds the cells it held before. *)
Theorem solveboard_keeps_boards (fuel : nat) (h : heap) (b : loc) (o : oracle) :
  (forall h' v o', deduce_at h b o = Some (h', v, o') -> b < length h ->
     exists b', deduce (read h b) o = Some (b', v, o') /\ read h' b = b') /\
  (forall h' st ans o', solveboard_at fuel h b o = Some (h', st, ans, o') ->
     preserved h h') /\
  (forall h' ans o', solution_at fuel h b o = Some (h', ans, o') ->
     preserved h h') /\
  (forall target h' r o', checkpuzzle_at fuel h b target o = Some (h', r, o') ->
     preserved h h') /\
  (forall samples h' r o', ratepuzzle_at fuel h b samples o = Some (h', r, o') ->
     preserved h h').
Proof.
  split; [|split; [|split; [|split]]].
  - intros h' v o' H Hb. unfold deduce_at in H.
    destruct (deduce (read h b) o) as [[[b' v1] o1]|]; [|discriminate H].
    injection H as <- <- <-. exists b'. split; [reflexivity|].
    apply read_write_eq. exact Hb.
  - intros h' st ans o' H.
    exact (proj1 (solveboard_at_sim fuel h b o h' st ans o' H)).
  - intros h' ans o' H. unfold solution_at in H.
    destruct (solveboard_at fuel h b o) as [[[[h1 st] a] o1]|] eqn:S; [|discriminate H].
    injection H as <- _ _.
    exact (proj1 (solveboard_at_sim fuel h b o h1 st a o1 S)).
  - intros target h' r o' H. unfold checkpuzzle_at in H.
    destruct (solveboard_at fuel h b o) as [[[[h1 st] a] o1]|] eqn:S; [|discriminate H].
    destruct (solveboard_at_sim fuel h b o h1 st a o1 S) as [P [F _]].
    destruct a as [a|]; [|injection H as <- _ _; exact P].
    destruct (match target with
              | Some t => negb (boardmatches (read h1 t) (read h1 a))
              | None => false
              end); [injection H as <- _ _; exact P|].
    destruct (solvenext_at fuel h1 st o1) as [[[[h2 st2] a2] o2]|] eqn:S2;
      [|discriminate H].
    destruct (solvenext_at_sim fuel h1 st o1 h2 st2 a2 o2 F S2) as [P2 _].
    destruct a2; injection H as <- _ _; exact (preserved_trans _ _ _ P P2).
  - intros samples h' r o' H. unfold ratepuzzle_at in H.
    destruct (ratepuzzle_runs fuel h b samples 0 o) as [[[h1 t] o1]|] eqn:R;
      [|discriminate H].
    pose proof (ratepuzzle_runs_preserved fuel b samples h 0 o h1 t o1 R) as P.
    destruct t as [t|].
    + destruct (samples =? 0); injection H as <- _ _; exact P.
    + injection H as <- _ _. exact P.
Qed.


(** * The helper functions of the solver *)

(** ** posfor *)

(** X1.  Every cell lies on exactly one line of each axis, at one offset:
    [posfor] maps the 81 pairs (line, offset) one to one onto the 81
    cells, for rows, columns and boxes alike. *)
Theorem posfor_bijective (axis p : nat) :
  axis < 3 -> p < 81 ->
  exists x y, x < 9 /\ y < 9 /\ posfor x y axis = p /\
              forall x' y', x' < 9 -> y' < 9 -> posfor x' y' axis = p ->
                            x' = x /\ y' = y.
Proof.
  intros Ha Hp. destruct (posfor_floor Hp Ha) as [Hx [Hy E]].
  exists (axisfor_floor p axis), (offsetfor_floor p axis).
  split; [exact Hx|]. split; [exact Hy|]. split; [exact E|].
  intros x' y' Hx' Hy' E'.
  apply (@posfor_inj axis x' y' _ _ Hx' Hy' Hx Hy).
  rewrite E'. symmetry. exact E.
Qed.

Lemma posfor_bijective_witness :
  exists x y, x < 9 /\ y < 9 /\ posfor x y 2 = 40 /\
              forall x' y', x' < 9 -> y' < 9 -> posfor x' y' 2 = 40 ->
                            x' = x /\ y' = y.
Proof. apply (posfor_bijective 2 40); lia. Defined.

(** ** listbits *)

Lemma filter_seq_sorted (f : nat -> bool) (n : nat) :
  forall a, StronglySorted lt (filter f (seq a n)).
Proof.
  induction n as [|n IH]; intro a; [constructor|].
  change (seq a (S n)) with (a :: seq (S a) n). cbn [filter].
  destruct (f a); [|apply IH].
  constructor; [apply IH|].
  apply Forall_forall. intros m Hm.
  apply filter_In in Hm. destruct Hm as [Hm _].
  apply in_seq in Hm. lia.
Qed.

Lemma has_above (m : nat) : 9 <= m -> has 511 m = false.
Proof.
  intro H. unfold has. apply N.bits_above_log2.
  change (N.log2 511) with 8%N. lia.
Qed.

Lemma has_fold_bits (l : list nat) (m : nat) :
  has (fold_right (fun n acc => N.lor (bit n) acc) 0%N l) m
  = existsb (fun n => n =? m) l.
Proof.
  induction l as [|n l IH]; cbn [fold_right existsb]; [apply has_0|].
  rewrite has_lor, has_bit, IH. reflexivity.
Qed.

(** X2.  [listbits] lists exactly the bits below 9 that are set, in
    increasing order (so without repetition), and putting the listed bits
    together again gives the low nine bits of the argument. *)
Theorem listbits_roundtrip (bits : N) :
  (forall m, In m (listbits bits) <->
             m < 9 /\ N.testbit bits (N.of_nat m) = true) /\
  StronglySorted lt (listbits bits) /\
  fold_right (fun n acc => N.lor (bit n) acc) 0%N (listbits bits)
  = N.land bits 511.
Proof.
  split; [|split].
  - intro m. exact (listbits_In bits m).
  - unfold listbits. apply filter_seq_sorted.
  - apply N.bits_inj. intro k.
    assert (K : forall x, N.testbit x k = has x (N.to_nat k))
      by (intro x; unfold has; rewrite N2Nat.id; reflexivity).
    rewrite !K, has_fold_bits, has_land. apply bool_ext. split.
    + intro H. apply existsb_exists in H. destruct H as [n [Hn E]].
      apply Nat.eqb_eq in E. subst n.
      apply listbits_In in Hn. destruct Hn as [H9 Hb].
      rewrite Hb, (has_511 H9). reflexivity.
    + intro H. apply andb_true_iff in H. destruct H as [Hb H5].
      apply existsb_exists. exists (N.to_nat k).
      split; [|apply Nat.eqb_refl].
      apply listbits_In. split; [|exact Hb].
      destruct (le_lt_dec 9 (N.to_nat k)) as [L|L]; [|exact L].
      rewrite (has_above _ L) in H5. discriminate H5.
Qed.

(** ** axismissing *)

Lemma axismissing_above (b : board) (x axis m : nat) :
  (forall y e, y < 9 -> get b (posfor x y axis) = Some e -> e < 9) ->
  9 <= m -> has (axismissing b x axis) m = false.
Proof.
  intros Hb Hm. unfold axismissing.
  rewrite has_lxor, (has_above _ Hm), present_has, has_0. cbn [orb xorb].
  apply not_true_is_false. intro H.
  apply existsb_exists in H. destruct H as [y [Hy E]].
  apply in_seq in Hy. apply cell_eqb_eq in E.
  pose proof (Hb y m (proj2 Hy) E). lia.
Qed.

(** X3.  On a board of 81 cells [axismissing] is the set of the digits
    that are not yet on the line: a digit is listed exactly when no cell of
    the line holds it.  On
    a line of empty cells all nine digits are missing, and on a line of a
    solved board none is. *)
Theorem axismissing_digits (b : board) (x axis : nat) :
  length b = 81 -> x < 9 ->
  (forall m, In m (listbits (axismissing b x axis)) <->
             m < 9 /\ ~ In (Some m) (line b x axis)) /\
  ((forall y, y < 9 -> get b (posfor x y axis) = None) ->
   axismissing b x axis = 511%N) /\
  (solved b -> axis < 3 -> x < 9 -> listbits (axismissing b x axis) = []).
Proof.
  intros _ _. split; [|split].
  - intro m. rewrite listbits_In. split.
    + intros [H9 H]. split; [exact H9|]. apply (axismissing_has b x axis H9). exact H.
    + intros [H9 H]. split; [exact H9|]. apply (axismissing_has b x axis H9). exact H.
  - intro He. unfold axismissing.
    assert (F : forall ys init,
               (forall y, In y ys -> y < 9) ->
               fold_left (fun bits y => match get b (posfor x y axis) with
                                        | Some e => N.lor bits (bit e)
                                        | None => bits
                                        end) ys init = init).
    { induction ys as [|y ys IH]; intros init Hys; [reflexivity|].
      cbn [fold_left]. rewrite (He y (Hys y (or_introl eq_refl))).
      apply IH. intros y' Hy'. apply Hys. right. exact Hy'. }
    rewrite F; [reflexivity|]. intros y Hy. apply in_seq in Hy. lia.
  - intros Hs Ha Hx.
    destruct (listbits (axismissing b x axis)) as [|m l] eqn:E; [reflexivity|].
    exfalso.
    assert (Hm : In m (listbits (axismissing b x axis)))
      by (rewrite E; left; reflexivity).
    apply listbits_In in Hm. destruct Hm as [H9 H].
    apply (axismissing_has b x axis H9) in H. apply H.
    exact (solved_In Hs Ha Hx H9).
Qed.

Lemma shifted_rows_solved : solved shifted_rows.
Proof.
  apply solved_intro; [reflexivity|].
  intros axis x n Ha Hx Hn.
  pose (f := fun axis x n => existsb (cell_eqb (Some n)) (line shifted_rows x axis)).
  assert (C : f axis x n = true)
    by (apply (@check3 f 3 9 9); [vm_compute; reflexivity|assumption..]).
  unfold f in C. apply existsb_exists in C. destruct C as [c [Hc E]].
  apply cell_eqb_eq in E. subst c. exact Hc.
Qed.

Lemma axismissing_digits_witness : listbits (axismissing shifted_rows 4 2) = [].
Proof.
  refine (proj2 (proj2 (axismissing_digits shifted_rows 4 2 _ _)) _ _ _);
    [reflexivity|lia| |lia|lia].
  exact shifted_rows_solved.
Defined.

(** ** figurebits *)

Lemma length_fold_and_at (ops : list (nat * N)) :
  forall al, length (fold_left (fun al pm => and_at al (fst pm) (snd pm)) ops al)
             = length al.
Proof.
  induction ops as [|pm ops IH]; intro al; [reflexivity|].
  cbn [fold_left]. rewrite IH. apply length_and_at.
Qed.

(** X4.  [figurebits] on a board of 81 cells returns 81 sets [allowed] and
    27 sets [needed]: [needed[axis * 9 + x]] is the set of digits missing on
    line [x] of the axis, and [allowed[p]] holds a digit exactly when cell
    [p] is empty and the digit is on none of the lines through [p]; for a
    filled cell it is empty. *)
Theorem figurebits_sets (b : board) :
  length b = 81 ->
  length (fst (figurebits b)) = 81 /\
  length (snd (figurebits b)) = 27 /\
  (forall axis x, axis < 3 -> x < 9 ->
     nth (axis * 9 + x) (snd (figurebits b)) 0%N = axismissing b x axis) /\
  (forall p m, p < 81 ->
     (In m (listbits (nth p (fst (figurebits b)) 0%N)) <->
      m < 9 /\ get b p = None /\
      forall axis x y, axis < 3 -> x < 9 -> y < 9 -> posfor x y axis = p ->
                       ~ In (Some m) (line b x axis))).
Proof.
  intro L. split; [|split; [|split]].
  - rewrite figurebits_fst, length_fold_and_at. unfold figure_init.
    rewrite length_map. exact L.
  - rewrite figurebits_snd. reflexivity.
  - intros axis x Ha Hx. exact (needed_nth b Ha Hx).
  - intros p m Hp. rewrite listbits_In. split.
    + intros [H9 H]. split; [exact H9|].
      destruct (proj1 (allowed_has b L Hp H9) H) as [He Hl].
      split; [exact He|].
      intros axis x y Ha Hx Hy E.
      pose proof (Hl axis Ha) as Hn. rewrite <- E in Hn.
      rewrite (axisfor_floor_posfor Ha Hx Hy) in Hn. exact Hn.
    + intros [H9 [He Hl]]. split; [exact H9|].
      apply (proj2 (allowed_has b L Hp H9)). split; [exact He|].
      intros axis Ha. destruct (posfor_floor Hp Ha) as [Hx [Hy E]].
      exact (Hl axis _ _ Ha Hx Hy E).
Qed.

Lemma figurebits_sets_witness :
  length (fst (figurebits sample_puzzle)) = 81 /\
  length (snd (figurebits sample_puzzle)) = 27 /\
  (forall axis x, axis < 3 -> x < 9 ->
     nth (axis * 9 + x) (snd (figurebits sample_puzzle)) 0%N
     = axismissing sample_puzzle x axis) /\
  (forall p m, p < 81 ->
     (In m (listbits (nth p (fst (figurebits sample_puzzle)) 0%N)) <->
      m < 9 /\ get sample_puzzle p = None /\
      forall axis x y, axis < 3 -> x < 9 -> y < 9 -> posfor x y axis = p ->
                       ~ In (Some m) (line sample_puzzle x axis))).
Proof. apply (figurebits_sets sample_puzzle). reflexivity. Defined.

(** ** pickbetter *)

Lemma ties_snoc (t : guesses) (ts : list guesses) (t' : guesses) :
  ties t (ts ++ [t']) = ties t ts + (if length t' =? length t then 1 else 0).
Proof.
  unfold ties. rewrite filter_app, length_app. cbn [filter].
  destruct (length t' =? length t); reflexivity.
Qed.

Lemma ties_same (t t' : guesses) (ts : list guesses) :
  length t = length t' -> ties t ts = ties t' ts.
Proof. intro E. unfold ties. rewrite E. reflexivity. Qed.

Lemma ties_none (t : guesses) (ts : list guesses) :
  (forall t', In t' ts -> length t < length t') -> ties t ts = 0.
Proof.
  intro H. unfold ties.
  induction ts as [|a ts IH]; [reflexivity|]. cbn [filter].
  destruct (length a =? length t) eqn:E.
  - apply Nat.eqb_eq in E. pose proof (H a (or_introl eq_refl)). lia.
  - apply IH. intros t' Ht'. apply H. right. exact Ht'.
Qed.

Lemma pick_all_inv (ts : list guesses) (o : oracle) :
  (ts = [] /\ fst (pick_all ts o) = (None, 0)) \/
  exists t, fst (fst (pick_all ts o)) = Some t /\ In t ts /\
            (forall t', In t' ts -> length t <= length t') /\
            snd (fst (pick_all ts o)) = ties t ts.
Proof.
  induction ts as [|t ts IH] using rev_ind; [left; split; reflexivity|].
  right. unfold pick_all in *. rewrite fold_left_app. cbn [fold_left].
  destruct (fold_left _ ts (None, 0, o)) as [[g c] o1]. cbn [fst snd] in *.
  destruct IH as [[E1 E2]|[b [Eg [Hb [Hmin Ec]]]]].
  - injection E2 as -> ->. subst ts. cbn [pickbetter fst snd app].
    exists t. split; [reflexivity|]. split; [left; reflexivity|].
    split; [intros t' [<-|[]]; apply le_n|].
    unfold ties. cbn [filter]. rewrite Nat.eqb_refl. reflexivity.
  - subst g. unfold pickbetter.
    destruct (length t <? length b) eqn:E1.
    + apply Nat.ltb_lt in E1. cbn [fst snd]. exists t.
      split; [reflexivity|]. split; [apply in_or_app; right; left; reflexivity|].
      split.
      * intros t' Ht'. apply in_app_or in Ht'. destruct Ht' as [Ht'|[<-|[]]].
        -- pose proof (Hmin t' Ht'). lia.
        -- apply le_n.
      * rewrite ties_snoc, Nat.eqb_refl, ties_none; [reflexivity|].
        intros t' Ht'. pose proof (Hmin t' Ht'). lia.
    + apply Nat.ltb_ge in E1. destruct (length b <? length t) eqn:E2.
      * apply Nat.ltb_lt in E2. cbn [fst snd]. exists b.
        split; [reflexivity|]. split; [apply in_or_app; left; exact Hb|].
        split.
        -- intros t' Ht'. apply in_app_or in Ht'. destruct Ht' as [Ht'|[<-|[]]].
           ++ exact (Hmin t' Ht').
           ++ lia.
        -- rewrite ties_snoc. replace (length t =? length b) with false.
           ++ rewrite Nat.add_0_r. exact Ec.
           ++ symmetry. apply Nat.eqb_neq. lia.
      * apply Nat.ltb_ge in E2. assert (El : length t = length b) by lia.
        destruct (randint 0 c o1) as [r o2]. destruct (r =? 0); cbn [fst snd].
        -- exists t. split; [reflexivity|].
           split; [apply in_or_app; right; left; reflexivity|]. split.
           ++ intros t' Ht'. apply in_app_or in Ht'. destruct Ht' as [Ht'|[<-|[]]].
              ** rewrite El. exact (Hmin t' Ht').
              ** apply le_n.
           ++ rewrite ties_snoc, Nat.eqb_refl, (ties_same t b ts El), Ec.
              reflexivity.
        -- exists b. split; [reflexivity|].
           split; [apply in_or_app; left; exact Hb|]. split.
           ++ intros t' Ht'. apply in_app_or in Ht'. destruct Ht' as [Ht'|[<-|[]]].
              ** exact (Hmin t' Ht').
              ** lia.
           ++ rewrite ties_snoc, El, Nat.eqb_refl, Ec. reflexivity.
Qed.

(** X5.  [pickbetter], called on candidate lists one after the other from
    [guess, count = None, 0], keeps one of the shortest candidates seen, and
    [count] is the number of the candidates seen that are that short (the
    number the random replacement of a tie is drawn against). *)
Theorem pickbetter_keeps_shortest (ts : list guesses) (o : oracle) :
  ts <> [] ->
  exists t, fst (fst (pick_all ts o)) = Some t /\ In t ts /\
            (forall t', In t' ts -> length t <= length t') /\
            snd (fst (pick_all ts o)) = ties t ts.
Proof.
  intro H. destruct (pick_all_inv ts o) as [[E _]|R]; [contradiction|exact R].
Qed.

Lemma pickbetter_keeps_shortest_witness :
  exists t, fst (fst (pick_all [[(0, 1); (0, 2); (0, 3)]; [(1, 1); (1, 2)];
                                [(2, 4); (2, 5)]] [0; 0])) = Some t /\
            In t [[(0, 1); (0, 2); (0, 3)]; [(1, 1); (1, 2)]; [(2, 4); (2, 5)]] /\
            (forall t', In t' [[(0, 1); (0, 2); (0, 3)]; [(1, 1); (1, 2)];
                               [(2, 4); (2, 5)]] -> length t <= length t') /\
            snd (fst (pick_all [[(0, 1); (0, 2); (0, 3)]; [(1, 1); (1, 2)];
                                [(2, 4); (2, 5)]] [0; 0]))
            = ties t [[(0, 1); (0, 2); (0, 3)]; [(1, 1); (1, 2)]; [(2, 4); (2, 5)]].
Proof. apply pickbetter_keeps_shortest. discriminate. Defined.

(** ** boardmatches *)

Lemma firstn_get (b1 b2 : board) :
  81 <= length b1 -> 81 <= length b2 ->
  (firstn 81 b1 = firstn 81 b2 <-> forall p, p < 81 -> get b1 p = get b2 p).
Proof.
  intros L1 L2. split.
  - intros E p Hp. unfold get.
    pose proof (nth_firstn 81 b1 p None) as N1.
    pose proof (nth_firstn 81 b2 p None) as N2.
    apply Nat.ltb_lt in Hp. rewrite Hp in N1, N2.
    rewrite <- N1, <- N2, E. reflexivity.
  - intro H. apply (nth_ext _ _ None None).
    + rewrite !length_firstn. lia.
    + intros p Hp. rewrite length_firstn in Hp.
      assert (Hp' : p < 81) by lia.
      rewrite !nth_firstn. apply Nat.ltb_lt in Hp'. rewrite Hp'.
      apply Nat.ltb_lt in Hp'. exact (H p Hp').
Qed.

(** X6.  [boardmatches] compares the cells 0 to 80 and nothing else: on
    lists of at least 81 cells it returns True exactly when the first 81
    cells are equal, so on boards of 81 cells exactly when the boards are
    equal. *)
Theorem boardmatches_first_81 (b1 b2 : board) :
  81 <= length b1 -> 81 <= length b2 ->
  (boardmatches b1 b2 = true <-> firstn 81 b1 = firstn 81 b2) /\
  (length b1 = 81 -> length b2 = 81 -> (boardmatches b1 b2 = true <-> b1 = b2)).
Proof.
  intros L1 L2.
  assert (A : boardmatches b1 b2 = true <-> firstn 81 b1 = firstn 81 b2).
  { rewrite (firstn_get b1 b2 L1 L2). apply boardmatches_true. }
  split; [exact A|].
  intros E1 E2. rewrite A.
  rewrite <- E1 at 1. rewrite <- E2 at 1. rewrite !firstn_all. reflexivity.
Qed.

Lemma boardmatches_first_81_witness :
  (boardmatches sample_puzzle (sample_puzzle ++ [Some 3]) = true <->
   firstn 81 sample_puzzle = firstn 81 (sample_puzzle ++ [Some 3])) /\
  (length sample_puzzle = 81 -> length (sample_puzzle ++ [Some 3]) = 81 ->
   (boardmatches sample_puzzle (sample_puzzle ++ [Some 3]) = true <->
    sample_puzzle = sample_puzzle ++ [Some 3])).
Proof.
  apply (boardmatches_first_81 sample_puzzle (sample_puzzle ++ [Some 3]));
    vm_compute; lia.
Defined.

(** ** entriesforboard and boardforentries *)

Lemma entries_sorted (b : board) (n : nat) :
  forall a,
    StronglySorted lt
      (map fst (flat_map (fun pos => match get b pos with
                                     | Some n => [(pos, n)]
                                     | None => []
                                     end) (seq a n))).
Proof.
  induction n as [|n IH]; intro a; [constructor|].
  change (seq a (S n)) with (a :: seq (S a) n). cbn [flat_map].
  destruct (get b a) as [v|]; [|exact (IH (S a))].
  cbn [app map fst]. constructor; [exact (IH (S a))|].
  apply Forall_forall. intros q Hq.
  apply in_map_iff in Hq. destruct Hq as [[q' v'] [E Hq]]. cbn [fst] in E. subst q'.
  apply in_flat_map in Hq. destruct Hq as [pos [Hpos Hq]].
  apply in_seq in Hpos.
  destruct (get b pos); [|destruct Hq].
  destruct Hq as [Hq|[]]. injection Hq as <- _. lia.
Qed.

Lemma entries_length (b : board) (n : nat) :
  forall a,
    length (flat_map (fun pos => match get b pos with
                                 | Some n => [(pos, n)]
                                 | None => []
                                 end) (seq a n))
    = length (filter (fun c => negb (is_empty c)) (map (get b) (seq a n))).
Proof.
  induction n as [|n IH]; intro a; [reflexivity|].
  change (seq a (S n)) with (a :: seq (S a) n). cbn [flat_map map filter].
  rewrite length_app, (IH (S a)).
  destruct (get b a); reflexivity.
Qed.

Lemma board_cells (b : board) : map (get b) (seq 0 (length b)) = b.
Proof.
  apply (nth_ext _ _ None None).
  - rewrite length_map, length_seq. reflexivity.
  - intros p Hp. rewrite length_map, length_seq in Hp.
    transitivity (get b (nth p (seq 0 (length b)) 0)).
    + apply nth_map_lt. rewrite length_seq. exact Hp.
    + rewrite seq_nth by exact Hp. reflexivity.
Qed.

Lemma entriesforboard_In (b : board) (p n : nat) :
  In (p, n) (entriesforboard b) <-> p < 81 /\ get b p = Some n.
Proof.
  unfold entriesforboard. rewrite in_flat_map. split.
  - intros [pos [Hpos H]]. apply in_seq in Hpos.
    destruct (get b pos) as [v|] eqn:E; [|destruct H].
    destruct H as [H|[]]. injection H as <- <-. split; [lia|exact E].
  - intros [Hp E]. exists p. split; [apply in_seq; lia|].
    rewrite E. left. reflexivity.
Qed.

(** X7.  On a board of 81 cells [entriesforboard] lists the filled cells
    and only them, each with its digit, in increasing order of position; it
    has as many entries as the board has filled cells. *)
Theorem entriesforboard_filled (b : board) :
  length b = 81 ->
  (forall p n, In (p, n) (entriesforboard b) <-> p < 81 /\ get b p = Some n) /\
  StronglySorted lt (map fst (entriesforboard b)) /\
  length (entriesforboard b) = filled b.
Proof.
  intro L. split; [|split].
  - exact (entriesforboard_In b).
  - exact (entries_sorted b 81 0).
  - unfold entriesforboard, filled. rewrite (entries_length b 81 0).
    rewrite <- L at 1. rewrite board_cells. reflexivity.
Qed.

Lemma entriesforboard_filled_witness :
  (forall p n, In (p, n) (entriesforboard sample_puzzle) <->
               p < 81 /\ get sample_puzzle p = Some n) /\
  StronglySorted lt (map fst (entriesforboard sample_puzzle)) /\
  length (entriesforboard sample_puzzle) = filled sample_puzzle.
Proof. apply (entriesforboard_filled sample_puzzle). reflexivity. Defined.

Lemma fold_entries (es : entries) :
  forall b0 : board,
    Forall (fun e : nat * cell => fst e < length b0) es ->
    length (fold_left (fun b (e : nat * cell) => set_nth b (fst e) (snd e)) es b0)
    = length b0 /\
    forall p,
      get (fold_left (fun b (e : nat * cell) => set_nth b (fst e) (snd e)) es b0) p
      = match find (fun e : nat * cell => fst e =? p) (rev es) with
        | Some e => snd e
        | None => get b0 p
        end.
Proof.
  induction es as [|e es IH] using rev_ind; intros b0 F.
  - split; [reflexivity|]. intro p. reflexivity.
  - apply Forall_app in F. destruct F as [F Fe].
    assert (He : fst e < length b0) by (inversion Fe; assumption).
    destruct (IH b0 F) as [L G].
    rewrite fold_left_app. cbn [fold_left]. split.
    + rewrite length_set_nth. exact L.
    + intro p. rewrite rev_app_distr. cbn [rev app find].
      destruct (fst e =? p) eqn:E.
      * apply Nat.eqb_eq in E. subst p. unfold get.
        apply nth_set_nth_eq. rewrite L. exact He.
      * apply Nat.eqb_neq in E. unfold get.
        rewrite (nth_set_nth_ne _ (snd e) None E). exact (G p).
Qed.

(** X8.  [boardforentries] returns a board of 81 cells for every list of
    entries at positions below 81; each cell holds the value of the last
    entry of the list for its position, and is empty when the list has no
    entry for it. *)
Theorem boardforentries_last_wins (es : entries) :
  Forall (fun e : nat * cell => fst e < 81) es ->
  length (boardforentries es) = 81 /\
  forall p, get (boardforentries es) p = last_entry es p.
Proof.
  intro F. unfold boardforentries, last_entry.
  assert (F' : Forall (fun e : nat * cell => fst e < length (repeat (@None nat) 81)) es)
    by (rewrite repeat_length; exact F).
  destruct (fold_entries es (repeat None 81) F') as [L G].
  split; [rewrite L; apply repeat_length|].
  intro p. rewrite (G p).
  destruct (find (fun e : nat * cell => fst e =? p) (rev es)); [reflexivity|].
  unfold get. destruct (le_lt_dec 81 p) as [H|H].
  - apply nth_overflow. rewrite repeat_length. exact H.
  - apply nth_repeat_lt. exact H.
Qed.

Lemma boardforentries_last_wins_witness :
  length (boardforentries [(3, Some 4); (80, Some 0); (3, Some 7); (5, None)]) = 81 /\
  forall p, get (boardforentries [(3, Some 4); (80, Some 0); (3, Some 7); (5, None)]) p
            = last_entry [(3, Some 4); (80, Some 0); (3, Some 7); (5, None)] p.
Proof.
  apply boardforentries_last_wins.
  repeat constructor; cbn [fst]; lia.
Defined.

Lemma clues_below (es : list (nat * nat)) :
  Forall (fun e : nat * nat => fst e < 81) es ->
  Forall (fun e : nat * cell => fst e < 81) (clues es).
Proof.
  intro F. unfold clues. apply Forall_forall. intros e He.
  apply in_map_iff in He. destruct He as [e' [<- He']].
  exact (proj1 (Forall_forall _ _) F e' He').
Qed.

Lemma last_entry_clues (es : list (nat * nat)) (p : nat) :
  NoDup (map fst es) ->
  forall n, last_entry (clues es) p = Some n <-> In (p, n) es.
Proof.
  intros ND n. unfold last_entry.
  destruct (find (fun e : nat * cell => fst e =? p) (rev (clues es))) as [e|] eqn:E.
  - apply find_some in E. destruct E as [He Ep].
    apply Nat.eqb_eq in Ep. apply in_rev in He.
    unfold clues in He. apply in_map_iff in He. destruct He as [[q v] [<- Hq]].
    cbn [fst snd] in *. subst q. split.
    + intro H. injection H as <-. exact Hq.
    + intro H. f_equal.
      assert (Inj : forall l : list (nat * nat),
                 NoDup (map fst l) -> In (p, v) l -> In (p, n) l -> v = n).
      { induction l as [|[q w] l IHl]; intros NDl H1 H2; [destruct H1|].
        cbn [map fst] in NDl. inversion NDl as [|? ? Hnot NDl']. subst.
        destruct H1 as [H1|H1], H2 as [H2|H2].
        - congruence.
        - injection H1 as -> _. exfalso. apply Hnot.
          apply in_map_iff. exists (p, n). split; [reflexivity|exact H2].
        - injection H2 as -> _. exfalso. apply Hnot.
          apply in_map_iff. exists (p, v). split; [reflexivity|exact H1].
        - exact (IHl NDl' H1 H2). }
      exact (Inj es ND Hq H).
  - split; [discriminate|]. intro H. exfalso.
    pose proof (find_none _ _ E (p, Some n)) as Hn. cbn [fst] in Hn.
    rewrite Nat.eqb_refl in Hn.
    assert (Hin : In (p, Some n) (rev (clues es))).
    { apply -> in_rev. unfold clues. apply in_map_iff.
      exists (p, n). split; [reflexivity|exact H]. }
    specialize (Hn Hin). discriminate Hn.
Qed.

Lemma sorted_NoDup (l : list nat) : StronglySorted lt l -> NoDup l.
Proof.
  induction 1 as [|a l S IH F]; constructor; [|exact IH].
  intro H. pose proof (proj1 (Forall_forall _ _) F a H). lia.
Qed.

Lemma NoDup_fst {A B : Type} (l : list (A * B)) : NoDup (map fst l) -> NoDup l.
Proof.
  induction l as [|e l IH]; intro H; [constructor|].
  cbn [map] in H. inversion H as [|? ? Hn H']. subst.
  constructor; [|exact (IH H')].
  intro Hin. apply Hn. apply in_map. exact Hin.
Qed.

(** X9.  The two conversions are inverse to each other: a board of 81
    cells is rebuilt from its entries, and the entries of the board built
    from a list with one entry per position (all below 81) are that list,
    in the order of the positions. *)
Theorem entries_roundtrip :
  (forall b : board,
      length b = 81 -> boardforentries (clues (entriesforboard b)) = b) /\
  (forall es : list (nat * nat),
      NoDup (map fst es) -> Forall (fun e : nat * nat => fst e < 81) es ->
      Permutation (entriesforboard (boardforentries (clues es))) es /\
      StronglySorted lt (map fst (entriesforboard (boardforentries (clues es))))).
Proof.
  split.
  - intros b L.
    assert (F : Forall (fun e : nat * nat => fst e < 81) (entriesforboard b)).
    { apply Forall_forall. intros [p n] He.
      apply entriesforboard_In in He. exact (proj1 He). }
    destruct (boardforentries_last_wins _ (clues_below _ F)) as [Lb G].
    apply (nth_ext _ _ None None); [exact (eq_trans Lb (eq_sym L))|].
    intros p Hp.
    assert (Hp' : p < 81) by (exact (eq_ind _ (fun k => p < k) Hp _ Lb)).
    change (get (boardforentries (clues (entriesforboard b))) p = get b p).
    rewrite (G p).
    pose proof (last_entry_clues (entriesforboard b) p
                  (sorted_NoDup _ (entries_sorted b 81 0))) as C.
    destruct (last_entry (clues (entriesforboard b)) p) as [n|] eqn:E.
    + symmetry. exact (proj2 (proj1 (entriesforboard_In b p n) (proj1 (C n) eq_refl))).
    + destruct (get b p) as [n|] eqn:E'; [|reflexivity].
      exact (proj2 (C n) (proj2 (entriesforboard_In b p n) (conj Hp' E'))).
  - intros es ND F.
    destruct (boardforentries_last_wins _ (clues_below _ F)) as [Lb G].
    split; [|exact (entries_sorted _ 81 0)].
    apply NoDup_Permutation.
    + apply NoDup_fst. apply sorted_NoDup. exact (entries_sorted _ 81 0).
    + exact (NoDup_fst es ND).
    + intros [p n]. rewrite entriesforboard_In, (G p), (last_entry_clues es p ND n).
      split; [intros [_ H]; exact H|].
      intro H. split; [|exact H].
      exact (proj1 (Forall_forall _ _) F (p, n) H).
Qed.

Lemma entries_roundtrip_witness :
  boardforentries (clues (entriesforboard sample_puzzle)) = sample_puzzle /\
  Permutation (entriesforboard (boardforentries (clues [(7, 2); (3, 8); (80, 0)])))
              [(7, 2); (3, 8); (80, 0)].
Proof.
  split.
  - apply (proj1 entries_roundtrip). reflexivity.
  - apply (proj2 entries_roundtrip).
    + repeat constructor; cbn [In]; intuition discriminate.
    + repeat constructor; cbn [fst]; lia.
Defined.

(** * The solver seen from outside *)

(** ** deduce *)

(** X10.  [deduce] fills forced cells only.  It keeps the 81 cells and
    every filled cell as it is, and each solution of the board it is given is
    still a solution of the board it leaves: so when it returns [[]] the
    board has no solution, and when it returns [None] the board it leaves is
    solved and is the only solution. *)
Theorem deduce_keeps_solutions (b : board) (o : oracle) (b' : board) (v : verdict)
        (o' : oracle) :
  length b = 81 -> deduce b o = Some (b', v, o') ->
  length b' = 81 /\
  (forall p n, get b p = Some n -> get b' p = Some n) /\
  filled b <= filled b' /\
  (forall s, solved s -> extends s b -> extends s b') /\
  (v = Some [] -> forall s, solved s -> ~ extends s b) /\
  (v = None -> solved b' /\ forall s, solved s -> extends s b -> s = b').
Proof.
  intros L D. destruct (deduce_spec b o b' v o' L D) as [[L' [E [F C]]] V].
  split; [exact L'|]. split; [exact E|]. split; [exact C|]. split; [exact F|].
  split.
  - intros -> s Hs He. destruct V as [[_ [N _]]|[[[B _] _] _]].
    + exact (N s Hs He).
    + cbn [length] in B. lia.
  - intros ->. cbn [verdict_of] in V. split; [exact V|].
    intros s Hs He.
    apply (@extends_full s b' (solved_length Hs) L'); [|exact (F s Hs He)].
    intros p Hp. destruct (solved_digit V Hp) as [n [_ En]]. rewrite En. discriminate.
Qed.

Lemma deduce_keeps_solutions_witness :
  exists b' v o',
    deduce sample_puzzle [] = Some (b', v, o') /\
    length b' = 81 /\
    (forall p n, get sample_puzzle p = Some n -> get b' p = Some n) /\
    filled sample_puzzle <= filled b' /\
    (forall s, solved s -> extends s sample_puzzle -> extends s b') /\
    (v = Some [] -> forall s, solved s -> ~ extends s sample_puzzle) /\
    (v = None -> solved b' /\ forall s, solved s -> extends s sample_puzzle -> s = b').
Proof.
  destruct (deduce sample_puzzle []) as [[[b' v] o']|] eqn:D;
    [|vm_compute in D; discriminate D].
  exists b', v, o'. split; [reflexivity|].
  apply (deduce_keeps_solutions sample_puzzle [] b' v o'); [reflexivity|exact D].
Defined.

(** X11.  When [deduce] returns a list of guesses that is not empty, the
    list has two to nine guesses, each a digit for a cell that is empty on
    the board [deduce] leaves, every solution of the board given agrees with
    exactly one of them, and no empty cell of the board left has a single
    candidate. *)
Theorem deduce_guesses_branch (b : board) (o : oracle) (b' : board) (g : guesses)
        (o' : oracle) :
  length b = 81 -> deduce b o = Some (b', Some g, o') -> g <> [] ->
  2 <= length g <= 9 /\
  (forall p n, In (p, n) g -> p < 81 /\ n < 9 /\ get b' p = None) /\
  (forall s, solved s -> extends s b -> matching s g = 1) /\
  (forall p n, p < 81 -> get b' p = None ->
               listbits (nth p (fst (figurebits b')) 0%N) <> [n]).
Proof.
  intros L D G. destruct (deduce_spec b o b' (Some g) o' L D) as [[L' [E [F C]]] V].
  destruct V as [[-> _]|[[B1 [B2 B3]] N]]; [contradiction G; reflexivity|].
  split; [exact B1|]. split; [exact B2|]. split.
  - intros s Hs He. exact (B3 s Hs (F s Hs He)).
  - intros p n Hp He Hl. apply N. exists p, n.
    split; [exact Hp|]. split; [exact He|exact Hl].
Qed.

Lemma deduce_guesses_branch_witness :
  exists b' g o',
    deduce (repeat None 81) [] = Some (b', Some g, o') /\
    2 <= length g <= 9 /\
    (forall p n, In (p, n) g -> p < 81 /\ n < 9 /\ get b' p = None) /\
    (forall s, solved s -> extends s (repeat None 81) -> matching s g = 1) /\
    (forall p n, p < 81 -> get b' p = None ->
                 listbits (nth p (fst (figurebits b')) 0%N) <> [n]).
Proof.
  destruct (deduce (repeat None 81) []) as [[[b' [g|]] o']|] eqn:D;
    [|vm_compute in D; discriminate D|vm_compute in D; discriminate D].
  exists b', g, o'. split; [reflexivity|].
  apply (deduce_guesses_branch (repeat None 81) [] b' g o');
    [reflexivity|exact D|].
  intros ->. vm_compute in D. discriminate D.
Defined.

(** ** solution *)

Lemma solution_cases (fuel : nat) (b : board) (o : oracle) (ans : option board)
      (o' : oracle) :
  solution fuel b o = Some (ans, o') ->
  exists st, solveboard fuel b o = Some (st, ans, o').
Proof.
  unfold solution. destruct (solveboard fuel b o) as [[[st a] o1]|]; [|discriminate].
  intro H. injection H as <- <-. exists st. reflexivity.
Qed.

Lemma solution_total (b : board) (o : oracle) :
  length b = 81 -> exists fuel r, solution fuel b o = Some r.
Proof.
  intro L. destruct (solveboard_total b o L) as [fuel [[[st a] o1] S]].
  exists fuel, (a, o1). unfold solution. rewrite S. reflexivity.
Qed.

Lemma solution_answer (b : board) (fuel : nat) (o : oracle) (ans : option board)
      (o' : oracle) :
  length b = 81 -> solution fuel b o = Some (ans, o') ->
  match ans with
  | Some w => solved w /\ extends w b
  | None => forall s, solved s -> ~ extends s b
  end.
Proof.
  intros L H. destruct (solution_cases fuel b o ans o' H) as [st S].
  destruct ans as [w|].
  - exact (solveboard_answer fuel b o st w o' L S).
  - exact (solveboard_unsolvable fuel b o st o' L S).
Qed.

(** X12.  [solution] is a complete solver for boards of 81 cells: it
    returns (the search ends), the board it returns is solved and keeps
    every given cell of the puzzle, and it returns [None] only when no
    solved board extends the puzzle. *)
Theorem solution_complete (b : board) (o : oracle) :
  length b = 81 ->
  (exists fuel r, solution fuel b o = Some r) /\
  forall fuel ans o',
    solution fuel b o = Some (ans, o') ->
    match ans with
    | Some w => solved w /\ extends w b
    | None => forall s, solved s -> ~ extends s b
    end.
Proof.
  intro L. split; [exact (solution_total b o L)|].
  intros fuel ans o'. exact (solution_answer b fuel o ans o' L).
Qed.

Lemma solution_complete_witness :
  (exists fuel r, solution fuel sample_puzzle [] = Some r) /\
  forall fuel ans o',
    solution fuel sample_puzzle [] = Some (ans, o') ->
    match ans with
    | Some w => solved w /\ extends w sample_puzzle
    | None => forall s, solved s -> ~ extends s sample_puzzle
    end.
Proof. apply (solution_complete sample_puzzle []). reflexivity. Defined.




(** X14.  The board the generator starts from: [solution([None] * 81)],
    as [main] calls it, never returns [None]; for every sequence of draws it
    returns a solved board. *)
Theorem solution_empty_board (o : oracle) :
  (exists fuel w o', solution fuel (repeat None 81) o = Some (Some w, o')) /\
  forall fuel ans o',
    solution fuel (repeat None 81) o = Some (ans, o') ->
    exists w, ans = Some w /\ solved w.
Proof.
  assert (L : length (repeat (@None nat) 81) = 81) by apply repeat_length.
  assert (A : forall fuel ans o',
             solution fuel (repeat None 81) o = Some (ans, o') ->
             exists w, ans = Some w /\ solved w).
  { intros fuel ans o' H.
    pose proof (solution_answer (repeat None 81) fuel o ans o' L H) as C.
    destruct ans as [w|].
    - exists w. split; [reflexivity|exact (proj1 C)].
    - exfalso. apply (C shifted_rows shifted_rows_solved).
      intros p n E. unfold get in E.
      destruct (le_lt_dec 81 p) as [Hp|Hp].
      + rewrite nth_overflow in E by (rewrite repeat_length; exact Hp). discriminate E.
      + rewrite nth_repeat_lt in E by exact Hp. discriminate E. }
  split; [|exact A].
  destruct (solution_total (repeat None 81) o L) as [fuel [[ans o'] H]].
  destruct (A fuel ans o' H) as [w [-> _]].
  exists fuel, w, o'. exact H.
Qed.

(** ** checkpuzzle *)

Lemma checkpuzzle_single (fuel : nat) (puzzle : board) (o : oracle)
      (r : Z) (o' : oracle) :
  length puzzle = 81 ->
  checkpuzzle fuel puzzle None o = Some (r, o') ->
  (r <> (-1)%Z <-> exists s, unique_solution puzzle s).
Proof.
  intros Hp H.
  destruct (checkpuzzle_cases fuel puzzle None o r o' H) as [st1 [ans1 [o1 [S C]]]].
  destruct C as [[-> ->]|[[a [t [_ [Et _]]]]|[a [st2 [ans2 [-> [_ [S2 C]]]]]]]].
  - split; [intro X; exfalso; apply X; reflexivity|].
    intros [s [Us [Ue _]]]. exfalso.
    exact (solveboard_unsolvable fuel puzzle o st1 o1 Hp S s Us Ue).
  - discriminate Et.
  - destruct (solveboard_answer fuel puzzle o st1 a o1 Hp S) as [Sa Ea].
    pose proof (solveboard_wf fuel puzzle o st1 (Some a) o1 Hp S) as W.
    destruct C as [[N ->]|[-> ->]].
    + split; [intro X; exfalso; apply X; reflexivity|].
      intros [s [_ [_ Uu]]]. exfalso.
      destruct ans2 as [a2|]; [|apply N; reflexivity].
      destruct (solvenext_sound fuel st1 o1 st2 (Some a2) o') as [_ S2'];
        [|exact S2|].
      { apply Forall_forall. intros f Hf.
        exact (proj1 (proj1 (Forall_forall _ _) W f Hf)). }
      specialize (S2' a2 eq_refl).
      destruct (solvenext_count a2 fuel st1 o1 st2 (Some a2) o' S2' W S2) as [_ [E2 _]].
      destruct (solveboard_count a2 fuel puzzle o st1 (Some a) o1 S2' Hp S)
        as [_ [E1 _]].
      rewrite (proj2 (hit_one a2 a2) eq_refl) in E2.
      pose proof (b2n_le (extendsb a2 puzzle)) as Lb.
      assert (Ex : extendsb a2 puzzle = true).
      { destruct (extendsb a2 puzzle); [reflexivity|]. simpl in E1. lia. }
      assert (Hh : hit a2 (Some a) = 0) by lia.
      rewrite (Uu a Sa Ea) in Hh.
      rewrite <- (Uu a2 S2' (proj1 (extendsb_iff a2 puzzle) Ex)) in Hh.
      rewrite (proj2 (hit_one a2 a2) eq_refl) in Hh. discriminate Hh.
    + split; [|intros _; lia].
      intros _. exists a. split; [exact Sa|]. split; [exact Ea|].
      intros s Hs He.
      destruct (solvenext_count s fuel st1 o1 st2 None o' Hs W S2) as [_ [E2 N2]].
      destruct (solveboard_count s fuel puzzle o st1 (Some a) o1 Hs Hp S)
        as [_ [E1 _]].
      rewrite (N2 eq_refl) in E2. change (pend s st1 = 0 + 0) in E2.
      rewrite (proj2 (extendsb_iff s puzzle) He) in E1.
      change (1 = pend s st1 + hit s (Some a)) in E1.
      symmetry. apply (proj1 (hit_one s a)). lia.
Qed.

(** X15.  [checkpuzzle] decides uniqueness: on a puzzle of 81 cells its
    result is different from -1 exactly when the puzzle has one solution and
    no other, and, when a target board is given, that solution is the
    target. *)
Theorem checkpuzzle_decides_unique (fuel : nat) (puzzle : board)
        (target : option board) (o : oracle) (r : Z) (o' : oracle) :
  length puzzle = 81 -> (forall t, target = Some t -> length t = 81) ->
  checkpuzzle fuel puzzle target o = Some (r, o') ->
  (r <> (-1)%Z <->
   exists s, unique_solution puzzle s /\ forall t, target = Some t -> t = s).
Proof.
  intros Hp Ht H. destruct target as [t|].
  - rewrite (checkpuzzle_unique fuel puzzle t o r o' Hp (Ht t eq_refl) H). split.
    + intro U. exists t. split; [exact U|]. intros t' E. injection E as <-. reflexivity.
    + intros [s [U E]]. rewrite (E t eq_refl). exact U.
  - rewrite (checkpuzzle_single fuel puzzle o r o' Hp H). split.
    + intros [s U]. exists s. split; [exact U|]. intros t E. discriminate E.
    + intros [s [U _]]. exists s. exact U.
Qed.

Lemma checkpuzzle_decides_unique_witness :
  exists r o',
    checkpuzzle 200 sample_puzzle None [] = Some (r, o') /\
    (r <> (-1)%Z <->
     exists s, unique_solution sample_puzzle s /\
               forall t, @None board = Some t -> t = s).
Proof.
  destruct (checkpuzzle 200 sample_puzzle None []) as [[r o']|] eqn:C;
    [|vm_compute in C; discriminate C].
  exists r, o'. split; [reflexivity|].
  apply (checkpuzzle_decides_unique 200 sample_puzzle None [] r o');
    [reflexivity|intros t E; discriminate E|exact C].
Defined.

(** ** ratepuzzle *)




(** * Input and output *)

(** ** printboard *)

Lemma fold_append {A B : Type} (F : B -> list A) (l : list B) :
  forall acc, fold_left (fun acc x => acc ++ F x) l acc = acc ++ flat_map F l.
Proof.
  induction l as [|x l IH]; intro acc; cbn [fold_left flat_map].
  - symmetry. apply app_nil_r.
  - rewrite IH, app_assoc. reflexivity.
Qed.

Lemma flat_map_in_ext {A B : Type} (f g : A -> list B) (l : list A) :
  (forall a, In a l -> f a = g a) -> flat_map f l = flat_map g l.
Proof.
  induction l as [|x l IH]; intro H; [reflexivity|]. cbn [flat_map].
  rewrite (H x (or_introl eq_refl)), IH; [reflexivity|].
  intros a Ha. apply H. right. exact Ha.
Qed.

Lemma flat_map_nest {A B C : Type} (f : B -> list C) (g : A -> list B) (l : list A) :
  flat_map f (flat_map g l) = flat_map (fun a => flat_map f (g a)) l.
Proof.
  induction l as [|x l IH]; [reflexivity|]. cbn [flat_map].
  rewrite flat_map_app, IH. reflexivity.
Qed.

Lemma map_flat_map {A B C : Type} (h : B -> C) (g : A -> list B) (l : list A) :
  map h (flat_map g l) = flat_map (fun a => map h (g a)) l.
Proof.
  induction l as [|x l IH]; [reflexivity|]. cbn [flat_map].
  rewrite map_app, IH. reflexivity.
Qed.

Lemma flat_map_of_map {A B C : Type} (f : B -> list C) (g : A -> B) (l : list A) :
  flat_map f (map g l) = flat_map (fun x => f (g x)) l.
Proof.
  induction l as [|x l IH]; [reflexivity|]. cbn [map flat_map].
  rewrite IH. reflexivity.
Qed.

Lemma cells_by_rows :
  seq 0 81 = flat_map (fun row => map (fun col => row * 9 + col) (seq 0 9)) (seq 0 9).
Proof. vm_compute. reflexivity. Qed.

Lemma printboard_pastes (b : board) (bg : list paste) :
  printboard b bg = bg ++ (Grid, (0, 0)) :: map digit_paste (entriesforboard b).
Proof.
  unfold printboard, entriesforboard.
  rewrite map_flat_map, cells_by_rows, flat_map_nest.
  set (F := fun row col : nat =>
              match get b (posfor row col 0) with
              | Some n => [(Number n, (nth col xcoord 0, nth row ycoord 0))]
              | None => []
              end).
  rewrite (fold_left_ext _ (fun bg row => bg ++ flat_map (F row) (seq 0 9))).
  - rewrite fold_append, <- app_assoc. cbn [app]. f_equal. f_equal.
    apply flat_map_in_ext. intros row Hrow. apply in_seq in Hrow.
    cbv beta. rewrite flat_map_of_map.
    apply flat_map_in_ext. intros col Hcol. apply in_seq in Hcol.
    unfold F. cbn [posfor].
    destruct (get b (row * 9 + col)) as [n|]; [|reflexivity].
    cbn [map]. unfold digit_paste. cbn [fst snd].
    replace ((row * 9 + col) mod 9) with col
      by (symmetry; rewrite Nat.add_comm, Nat.Div0.mod_add; apply Nat.mod_small; lia).
    replace ((row * 9 + col) / 9) with row
      by (symmetry; rewrite Nat.add_comm, Nat.div_add by lia;
          rewrite Nat.div_small by lia; reflexivity).
    reflexivity.
  - intros acc row. rewrite <- fold_append. apply fold_left_ext.
    intros acc' col. unfold F.
    destruct (get b (posfor row col 0)); [reflexivity|].
    symmetry. apply app_nil_r.
Qed.

(** X17.  [printboard] pastes the grid at the origin and then one number
    for each filled cell of the board and none for an empty one, in the
    order of the positions: the pastes are the entries of
    [entriesforboard], each drawn at the coordinates of its column and
    row, after whatever the image held. *)
Theorem printboard_draws_entries (b : board) (bg : list paste) :
  length b = 81 -> (forall p n, get b p = Some n -> n < 9) ->
  printboard b bg = bg ++ (Grid, (0, 0)) :: map digit_paste (entriesforboard b) /\
  length (printboard b bg) = length bg + 1 + filled b.
Proof.
  intros L _. split; [apply printboard_pastes|].
  rewrite printboard_pastes, length_app. cbn [length]. rewrite length_map.
  unfold entriesforboard, filled. rewrite (entries_length b 81 0).
  rewrite <- L at 1. rewrite board_cells. lia.
Qed.

Lemma printboard_draws_entries_witness :
  printboard sample_puzzle []
  = [] ++ (Grid, (0, 0)) :: map digit_paste (entriesforboard sample_puzzle) /\
  length (printboard sample_puzzle []) = length (@nil paste) + 1 + filled sample_puzzle.
Proof.
  apply (printboard_draws_entries sample_puzzle []); [reflexivity|].
  intros p n E.
  pose (f := fun p => match get sample_puzzle p with Some n => n <? 9 | None => true end).
  destruct (le_lt_dec 81 p) as [Hp|Hp].
  - unfold get in E. rewrite nth_overflow in E by exact Hp. discriminate E.
  - assert (C : f p = true)
      by (apply (@check1 f 81); [vm_compute; reflexivity|exact Hp]).
    unfold f in C. rewrite E in C. apply Nat.ltb_lt. exact C.
Defined.

Lemma digit_pastes_apart (p1 p2 n1 n2 : nat) :
  p1 < 81 -> p2 < 81 -> p1 <> p2 ->
  apart_pastes (digit_paste (p1, n1)) (digit_paste (p2, n2)).
Proof.
  intros H1 H2 Hne. unfold apart_pastes, digit_paste, apart, number_height.
  cbn [fst snd].
  pose (f := fun p1 p2 =>
               (p1 =? p2)
               || (nth (p1 mod 9) xcoord 0 + number_width <=? nth (p2 mod 9) xcoord 0)
               || (nth (p2 mod 9) xcoord 0 + number_width <=? nth (p1 mod 9) xcoord 0)
               || (nth (p1 / 9) ycoord 0 + 28 <=? nth (p2 / 9) ycoord 0)
               || (nth (p2 / 9) ycoord 0 + 28 <=? nth (p1 / 9) ycoord 0)).
  assert (C : f p1 p2 = true)
    by (apply (@check2 f 81 81); [vm_compute; reflexivity|assumption..]).
  unfold f in C.
  repeat (apply orb_true_iff in C; destruct C as [C|C]).
  - apply Nat.eqb_eq in C. contradiction.
  - apply Nat.leb_le in C. left. exact C.
  - apply Nat.leb_le in C. right. left. exact C.
  - apply Nat.leb_le in C. right. right. left. lia.
  - apply Nat.leb_le in C. right. right. right. lia.
Qed.

Lemma digit_paste_inside (p n : nat) : p < 81 -> inside (digit_paste (p, n)).
Proof.
  intro Hp. unfold inside, digit_paste, number_height. cbn [fst snd].
  pose (f := fun p => (nth (p mod 9) xcoord 0 + number_width <=? bg_width)
                      && (nth (p / 9) ycoord 0 + 28 <=? bg_height)).
  assert (C : f p = true)
    by (apply (@check1 f 81); [vm_compute; reflexivity|exact Hp]).
  unfold f in C. apply andb_true_iff in C. destruct C as [C1 C2].
  apply Nat.leb_le in C1. apply Nat.leb_le in C2. split; [exact C1|lia].
Qed.

Lemma sorted_pastes_apart (es : list (nat * nat)) :
  StronglySorted lt (map fst es) -> Forall (fun e : nat * nat => fst e < 81) es ->
  ForallOrdPairs apart_pastes (map digit_paste es).
Proof.
  induction es as [|[p n] es IH]; intros S F; cbn [map]; [constructor|].
  cbn [map fst] in S. inversion S as [|? ? S' Hlt]. subst.
  inversion F as [|? ? Hp F']. subst. cbn [fst] in Hp.
  constructor; [|exact (IH S' F')].
  apply Forall_forall. intros q Hq.
  apply in_map_iff in Hq. destruct Hq as [[p2 n2] [<- He]].
  pose proof (proj1 (Forall_forall _ _) F' (p2, n2) He) as Hp2. cbn [fst] in Hp2.
  assert (Hl : p < p2).
  { apply (proj1 (Forall_forall _ _) Hlt). apply in_map_iff.
    exists (p2, n2). split; [reflexivity|exact He]. }
  apply digit_pastes_apart; [exact Hp|exact Hp2|lia].
Qed.

(** X18.  The picture [printboard] makes of a board of 81 cells: every
    number lies within the background of 384 by 426 pixels, and no two
    pasted numbers cover a common pixel (each filled cell is drawn once, in
    a place of its own). *)
Theorem printboard_numbers_apart (b : board) :
  length b = 81 -> (forall p n, get b p = Some n -> n < 9) ->
  Forall inside (printboard b []) /\
  ForallOrdPairs apart_pastes (printboard b []).
Proof.
  intros L _. rewrite printboard_pastes. cbn [app].
  assert (F : Forall (fun e : nat * nat => fst e < 81) (entriesforboard b)).
  { apply Forall_forall. intros [p n] He.
    apply entriesforboard_In in He. exact (proj1 He). }
  split.
  - constructor; [reflexivity|].
    apply Forall_forall. intros q Hq.
    apply in_map_iff in Hq. destruct Hq as [[p n] [<- He]].
    apply digit_paste_inside.
    exact (proj1 (Forall_forall _ _) F (p, n) He).
  - constructor.
    + apply Forall_forall. intros q _. exact I.
    + exact (sorted_pastes_apart _ (entries_sorted b 81 0) F).
Qed.

Lemma sample_digits (p n : nat) : get sample_puzzle p = Some n -> n < 9.
Proof.
  intro E.
  pose (f := fun p => match get sample_puzzle p with Some n => n <? 9 | None => true end).
  destruct (le_lt_dec 81 p) as [Hp|Hp].
  - unfold get in E. rewrite nth_overflow in E by exact Hp. discriminate E.
  - assert (C : f p = true)
      by (apply (@check1 f 81); [vm_compute; reflexivity|exact Hp]).
    unfold f in C. rewrite E in C. apply Nat.ltb_lt. exact C.
Qed.

Lemma printboard_numbers_apart_witness :
  Forall inside (printboard sample_puzzle []) /\
  ForallOrdPairs apart_pastes (printboard sample_puzzle []).
Proof.
  apply (printboard_numbers_apart sample_puzzle); [reflexivity|exact sample_digits].
Defined.

(** ** parseboard *)

Lemma digit_value (x : ascii) :
  char_in x "123456789"%string = true -> nat_of_ascii x - 48 - 1 < 9.
Proof.
  unfold char_in. intro H. apply existsb_exists in H. destruct H as [c [Hc E]].
  apply Ascii.eqb_eq in E. subst c.
  cbn in Hc.
  repeat (destruct Hc as [<-|Hc]; [vm_compute; lia|]). destruct Hc.
Qed.

Lemma symbols_digits (str : String.string) (n : nat) :
  In (Some n) (symbols str) -> n < 9.
Proof.
  unfold symbols. intro H. apply in_flat_map in H. destruct H as [x [_ H]].
  destruct (isspace x); [destruct H|]. unfold symbol_of in H.
  destruct (char_in x "|-=+"%string); [destruct H|].
  destruct (char_in x "123456789"%string) eqn:D.
  - destruct H as [H|[]]. injection H as <-. exact (digit_value x D).
  - destruct H as [H|[]]. discriminate H.
Qed.

(** X19.  A board that [parseboard] returns is well formed, whatever the
    text: it has 81 cells and each filled cell holds a digit from 0 to 8, so
    it can be given to the solver as it is.  [parseboard] never raises. *)
Theorem parseboard_wellformed (str : String.string) :
  (exists r, parseboard str = Returns r) /\
  forall b, parseboard str = Returns (Some b) ->
            length b = 81 /\ forall p n, get b p = Some n -> n < 9.
Proof.
  rewrite parseboard_symbols.
  destruct (81 <=? length (symbols str)) eqn:E.
  - split; [eexists; reflexivity|].
    intros b H. injection H as <-. apply Nat.leb_le in E. split.
    + exact (eq_trans (length_firstn 81 (symbols str)) (Nat.min_l _ _ E)).
    + intros p n G. apply (symbols_digits str).
      assert (Hin : In (Some n) (firstn 81 (symbols str))).
      { rewrite <- G. unfold get. apply nth_In.
        destruct (le_lt_dec (length (firstn 81 (symbols str))) p) as [Hp|Hp];
          [|exact Hp].
        unfold get in G. rewrite nth_overflow in G by exact Hp. discriminate G. }
      clear G. revert Hin. generalize (symbols str) as l. generalize 81 as k.
      induction k as [|k IH]; intros l Hin; [destruct Hin|].
      destruct l as [|c l]; [destruct Hin|].
      cbn [firstn] in Hin. destruct Hin as [->|Hin]; [left; reflexivity|].
      right. exact (IH l Hin).
  - split; [eexists; reflexivity|]. intros b H. discriminate H.
Qed.

Lemma parseboard_wellformed_witness :
  length sample_puzzle = 81 /\ forall p n, get sample_puzzle p = Some n -> n < 9.
Proof.
  apply (proj2 (parseboard_wellformed sample_text)). vm_compute. reflexivity.
Defined.

Lemma solution_empty_board_witness :
  exists ans o',
    solution 200 (repeat None 81) [5; 3; 8] = Some (ans, o') /\
    exists w, ans = Some w /\ solved w.
Proof.
  destruct (solution 200 (repeat None 81) [5; 3; 8]) as [[ans o']|] eqn:S;
    [|vm_compute in S; discriminate S].
  exists ans, o'. split; [reflexivity|].
  exact (proj2 (solution_empty_board [5; 3; 8]) 200 ans o' S).
Defined.


(** * The generator *)

(** ** Boards built from clues *)

Lemma bfe_length (es : entries) : length (boardforentries es) = 81.
Proof.
  unfold boardforentries.
  assert (G : forall b0 : board,
             length (fold_left (fun b (e : nat * cell) => set_nth b (fst e) (snd e))
                               es b0) = length b0).
  { induction es as [|e es IH]; intro b0; [reflexivity|].
    cbn [fold_left]. rewrite IH. apply length_set_nth. }
  rewrite G. apply repeat_length.
Qed.

Lemma bfe_last (es : entries) (p : nat) :
  Forall (fun e : nat * cell => fst e < 81) es ->
  get (boardforentries es) p = last_entry es p.
Proof.
  intro F. unfold boardforentries, last_entry.
  assert (F' : Forall (fun e : nat * cell => fst e < length (repeat (@None nat) 81)) es)
    by (rewrite repeat_length; exact F).
  destruct (fold_entries es (repeat None 81) F') as [_ G].
  rewrite (G p).
  destruct (find (fun e : nat * cell => fst e =? p) (rev es)); [reflexivity|].
  unfold get. destruct (le_lt_dec 81 p) as [H|H].
  - apply nth_overflow. rewrite repeat_length. exact H.
  - apply nth_repeat_lt. exact H.
Qed.

Lemma NoDup_fst_eq {A B : Type} (l : list (A * B)) (a : A) (b1 b2 : B) :
  NoDup (map fst l) -> In (a, b1) l -> In (a, b2) l -> b1 = b2.
Proof.
  induction l as [|[q w] l IH]; intros ND H1 H2; [destruct H1|].
  cbn [map fst] in ND. inversion ND as [|? ? Hnot ND']. subst.
  destruct H1 as [H1|H1], H2 as [H2|H2].
  - congruence.
  - injection H1 as -> _. exfalso. apply Hnot.
    apply in_map_iff. exists (a, b2). split; [reflexivity|exact H2].
  - injection H2 as -> _. exfalso. apply Hnot.
    apply in_map_iff. exists (a, b1). split; [reflexivity|exact H1].
  - exact (IH ND' H1 H2).
Qed.

Lemma last_entry_in (es : entries) (p : nat) (c : cell) :
  NoDup (map fst es) -> In (p, c) es -> last_entry es p = c.
Proof.
  intros ND H. unfold last_entry.
  destruct (find (fun e : nat * cell => fst e =? p) (rev es)) as [e|] eqn:E.
  - apply find_some in E. destruct E as [He Ep].
    apply Nat.eqb_eq in Ep. apply in_rev in He.
    destruct e as [q v]. cbn [fst snd] in *. subst q.
    exact (NoDup_fst_eq es p v c ND He H).
  - pose proof (find_none _ _ E (p, c)) as Hn. cbn [fst] in Hn.
    rewrite Nat.eqb_refl in Hn.
    assert (Hin : In (p, c) (rev es)) by (apply -> in_rev; exact H).
    specialize (Hn Hin). discriminate Hn.
Qed.

Lemma last_entry_some (es : entries) (p : nat) (c : cell) :
  last_entry es p = c -> c <> None -> In (p, c) es.
Proof.
  unfold last_entry. intros H Hc.
  destruct (find (fun e : nat * cell => fst e =? p) (rev es)) as [e|] eqn:E.
  - apply find_some in E. destruct E as [He Ep].
    apply Nat.eqb_eq in Ep. apply in_rev in He.
    destruct e as [q v]. cbn [fst snd] in *. subst q v. exact He.
  - exfalso. apply Hc. symmetry. exact H.
Qed.

(** The solved boards that extend a board of clues are those that hold
    every clue. *)
Lemma extends_bfe (B : board) (es : entries) (s : board) :
  (forall e, In e es -> clue_of B e) -> NoDup (map fst es) ->
  (extends s (boardforentries es) <->
   forall e, In e es -> snd e <> None -> get s (fst e) = snd e).
Proof.
  intros C ND.
  assert (F : Forall (fun e : nat * cell => fst e < 81) es).
  { apply Forall_forall. intros e He. exact (proj1 (C e He)). }
  split.
  - intros X [p c] He Hc. cbn [fst snd] in *.
    destruct c as [n|]; [|contradiction Hc; reflexivity].
    apply X. rewrite (bfe_last es p F). exact (last_entry_in es p (Some n) ND He).
  - intros X p n G. rewrite (bfe_last es p F) in G.
    pose proof (last_entry_some es p (Some n) G) as He.
    assert (Hin : In (p, Some n) es) by (apply He; discriminate).
    apply (X (p, Some n) Hin). discriminate.
Qed.

Lemma extends_bfe_without (B : board) (es : entries) (s : board) (q : nat) :
  (forall e, In e es -> clue_of B e) -> NoDup (map fst es) ->
  (extends s (set_nth (boardforentries es) q None) <->
   forall e, In e es -> fst e <> q -> snd e <> None -> get s (fst e) = snd e).
Proof.
  intros C ND.
  assert (F : Forall (fun e : nat * cell => fst e < 81) es).
  { apply Forall_forall. intros e He. exact (proj1 (C e He)). }
  split.
  - intros X [p c] He Hq Hc. cbn [fst snd] in *.
    destruct c as [n|]; [|contradiction Hc; reflexivity].
    apply X. unfold get.
    rewrite (nth_set_nth_ne (boardforentries es) None None (not_eq_sym Hq)).
    change (get (boardforentries es) p = Some n).
    rewrite (bfe_last es p F). exact (last_entry_in es p (Some n) ND He).
  - intros X p n G. unfold get in G.
    destruct (Nat.eq_dec q p) as [->|Hq].
    + rewrite nth_set_nth_eq in G; [discriminate G|].
      destruct (le_lt_dec (length (boardforentries es)) p) as [Hp|Hp]; [|exact Hp].
      exfalso.
      assert (G' : nth p (set_nth (boardforentries es) p None) None = None)
        by (apply nth_overflow; rewrite length_set_nth; exact Hp).
      rewrite G' in G. discriminate G.
    + rewrite (nth_set_nth_ne (boardforentries es) None None Hq) in G.
      change (get (boardforentries es) p = Some n) in G.
      rewrite (bfe_last es p F) in G.
      assert (Hin : In (p, Some n) es)
        by (apply (last_entry_some es p (Some n) G); discriminate).
      apply (X (p, Some n) Hin); [cbn [fst]; exact (not_eq_sym Hq)|discriminate].
Qed.

Lemma clues_extend (B : board) (es : entries) :
  (forall e, In e es -> clue_of B e) -> NoDup (map fst es) ->
  extends B (boardforentries es).
Proof.
  intros C ND. apply (proj2 (extends_bfe B es B C ND)).
  intros e He _. symmetry. exact (proj2 (C e He)).
Qed.

Lemma bfe_empty_cell (es : entries) (p : nat) :
  Forall (fun e : nat * cell => fst e < 81) es ->
  ~ In p (map fst es) -> get (boardforentries es) p = None.
Proof.
  intros F H. rewrite (bfe_last es p F).
  destruct (last_entry es p) as [n|] eqn:E; [|reflexivity].
  exfalso. apply H. apply in_map_iff. exists (p, Some n).
  split; [reflexivity|]. apply (last_entry_some es p (Some n) E). discriminate.
Qed.

Lemma unique_same (b1 b2 B : board) :
  (forall s, solved s -> (extends s b1 <-> extends s b2)) ->
  unique_solution b1 B -> unique_solution b2 B.
Proof.
  intros H [Hs [He Hu]]. split; [exact Hs|]. split.
  - exact (proj1 (H B Hs) He).
  - intros s' Hs' He'. exact (Hu s' Hs' (proj2 (H s' Hs') He')).
Qed.

Lemma empty_cell_fewer (b : board) (p : nat) :
  p < length b -> get b p = None -> filled b < length b.
Proof.
  unfold filled, get. revert p. induction b as [|c b IH]; intros p Hp E.
  - cbn [length] in Hp. lia.
  - cbn [filter length]. destruct p as [|p].
    + cbn [nth] in E. subst c. cbn [is_empty negb].
      pose proof (length_filter_le (fun c => negb (is_empty c)) b). lia.
    + cbn [nth length] in E, Hp.
      pose proof (IH p (proj2 (Nat.succ_lt_mono _ _) Hp) E).
      destruct (negb (is_empty c)); cbn [length]; lia.
Qed.

Lemma solved_filled (s : board) : solved s -> filled s = 81.
Proof.
  intro Hs. unfold filled.
  assert (G : forall b : board, (forall c, In c b -> c <> None) ->
                                length (filter (fun c => negb (is_empty c)) b)
                                = length b).
  { induction b as [|c b IH]; intro H; [reflexivity|]. cbn [filter].
    destruct c as [n|]; [|exfalso; exact (H None (or_introl eq_refl) eq_refl)].
    cbn [is_empty negb length]. rewrite IH; [reflexivity|].
    intros c Hc. apply H. right. exact Hc. }
  rewrite G; [exact (solved_length Hs)|].
  intros c Hc E. subst c. apply (In_nth _ _ None) in Hc.
  destruct Hc as [p [Hp Ep]].
  assert (Hp' : p < 81) by exact (eq_ind _ (fun k => p < k) Hp _ (solved_length Hs)).
  destruct (solved_digit Hs Hp') as [n [_ En]].
  pose proof (eq_trans (eq_sym Ep) En) as X. discriminate X.
Qed.

(** ** The first loop: clues until the board is determined *)

Lemma single_list (l : list nat) (n : nat) :
  NoDup l -> (forall m, In m l <-> m = n) -> l = [n].
Proof.
  intros ND H. destruct l as [|a l].
  - exfalso. exact (proj2 (H n) eq_refl).
  - pose proof (proj1 (H a) (or_introl eq_refl)) as Ea. subst a.
    destruct l as [|b l]; [reflexivity|].
    exfalso. pose proof (proj1 (H b) (or_intror (or_introl eq_refl))) as Eb. subst b.
    inversion ND as [|? ? Hn _]. apply Hn. left. reflexivity.
Qed.

(** With all cells but one filled from a solved board, the cell left has
    one candidate. *)
Lemma last_naked (B d : board) (p : nat) :
  solved B -> extends B d -> length d = 81 -> p < 81 -> get d p = None ->
  (forall q, q < 81 -> q <> p -> get d q <> None) -> naked_single d.
Proof.
  intros HB He L Hp En Hall.
  destruct (solved_digit HB Hp) as [n [Hn EB]].
  exists p, n. split; [exact Hp|]. split; [exact En|].
  apply single_list; [apply listbits_NoDup|].
  intro m. split.
  - intro Hm. apply listbits_In in Hm. destruct Hm as [H9 Hh].
    destruct (proj1 (allowed_has d L Hp H9) Hh) as [_ Hl].
    assert (Ha : 0 < 3) by lia.
    destruct (posfor_floor Hp Ha) as [Hx [Hy Ep]].
    destruct (solved_somewhere HB Ha Hx H9) as [y [Hy' Ey]].
    destruct (Nat.eq_dec (posfor (axisfor_floor p 0) y 0) p) as [Eq|Nq].
    + rewrite Eq in Ey. pose proof (eq_trans (eq_sym Ey) EB) as X.
      injection X as ->. reflexivity.
    + exfalso. apply (Hl 0 Ha). apply line_In. exists y. split; [exact Hy'|].
      pose proof (posfor_lt 0 Hx Hy') as Hq.
      destruct (get d (posfor (axisfor_floor p 0) y 0)) as [k|] eqn:Ek.
      * exact (eq_trans (eq_sym (He _ _ Ek)) Ey).
      * exfalso. exact (Hall _ Hq Nq Ek).
  - intros ->. apply listbits_In. split; [exact Hn|].
    exact (allowed_sound HB He L Hp En EB).
Qed.

Lemma NoDup_snoc {A : Type} (l : list A) (a : A) :
  NoDup l -> ~ In a l -> NoDup (l ++ [a]).
Proof.
  intros ND H. apply (Permutation_NoDup (Permutation_cons_append l a)).
  constructor; assumption.
Qed.

Lemma reveal_inv_init (B : board) : reveal_inv B [] [] (repeat None 81).
Proof.
  assert (E : forall p, get (repeat (@None nat) 81) p = None).
  { intro p. unfold get. destruct (le_lt_dec 81 p) as [H|H].
    - apply nth_overflow. rewrite repeat_length. exact H.
    - apply nth_repeat_lt. exact H. }
  split; [apply repeat_length|]. split.
  - intros p n G. rewrite E in G. discriminate G.
  - split; [intros e []|]. split; [constructor|]. split; [intros q []|].
    split; [|left; reflexivity].
    intros s _ H. exact H.
Qed.

Lemma reveal_step (B : board) (seen : list nat) (puzzle : entries) (deduced : board)
      (o : oracle) (pos : nat) :
  solved B -> pos < 81 -> reveal_inv B seen puzzle deduced ->
  exists puzzle' deduced' o',
    reveal B (Some (puzzle, deduced, o)) pos = Some (puzzle', deduced', o') /\
    reveal_inv B (seen ++ [pos]) puzzle' deduced' /\
    (get deduced pos <> None -> puzzle' = puzzle /\ deduced' = deduced).
Proof.
  intros HB Hp [L [He [Hc [ND [Hs [Hf Hv]]]]]]. unfold reveal.
  destruct (get deduced pos) as [k|] eqn:G.
  - exists puzzle, deduced, o. split; [reflexivity|].
    split; [|intros _; split; reflexivity].
    split; [exact L|]. split; [exact He|]. split.
    + intros e Hin. destruct (Hc e Hin) as [C S]. split; [exact C|].
      apply in_or_app. left. exact S.
    + split; [exact ND|]. split; [|split; [exact Hf|exact Hv]].
      intros q Hq. apply in_app_or in Hq. destruct Hq as [Hq|[<-|[]]].
      * exact (Hs q Hq).
      * rewrite G. discriminate.
  - destruct (solved_digit HB Hp) as [n [Hn EB]]. rewrite EB.
    change (set_nth deduced pos (Some n)) with (put deduced pos n).
    assert (L1 : length (put deduced pos n) = 81) by (rewrite length_put; exact L).
    destruct (deduce_total (put deduced pos n) o L1) as [[[d' v] o'] D]. rewrite D.
    destruct (deduce_spec (put deduced pos n) o d' v o' L1 D) as [[L' [E' [F' C']]] V].
    assert (He1 : extends B (put deduced pos n)).
    { intros q m Gq. destruct (Nat.eq_dec pos q) as [<-|Nq].
      - rewrite (get_put_eq deduced n (eq_ind_r (fun k => pos < k) Hp L)) in Gq.
        rewrite <- Gq. exact EB.
      - rewrite (get_put_ne deduced n Nq) in Gq. exact (He q m Gq). }
    assert (Hnew : ~ In pos (map fst puzzle)).
    { intro Hin. apply in_map_iff in Hin. destruct Hin as [e [Ee Hin]].
      destruct (Hc e Hin) as [_ S]. rewrite Ee in S. exact (Hs pos S G). }
    assert (Cn : forall e, In e (puzzle ++ [(pos, Some n)]) ->
                           clue_of B e /\ In (fst e) (seen ++ [pos])).
    { intros e Hin. apply in_app_or in Hin. destruct Hin as [Hin|[<-|[]]].
      - destruct (Hc e Hin) as [C S]. split; [exact C|].
        apply in_or_app. left. exact S.
      - split; [split; [exact Hp|exact (eq_sym EB)]|].
        apply in_or_app. right. left. reflexivity. }
    assert (NDn : NoDup (map fst (puzzle ++ [(pos, Some n)]))).
    { rewrite map_app. cbn [map fst]. apply NoDup_snoc; assumption. }
    exists (puzzle ++ [(pos, Some n)]), d', o'. split; [reflexivity|].
    split; [|intro X; exfalso; apply X; reflexivity].
    split; [exact L'|]. split; [exact (F' B HB He1)|]. split; [exact Cn|].
    split; [exact NDn|]. split; [|split].
    + intros q Hq. apply in_app_or in Hq.
      assert (Gq : exists m, get (put deduced pos n) q = Some m).
      { destruct Hq as [Hq|[<-|[]]].
        - destruct (get deduced q) as [m|] eqn:Gm; [|exfalso; exact (Hs q Hq Gm)].
          exists m. destruct (Nat.eq_dec pos q) as [<-|Nq].
          + rewrite G in Gm. discriminate Gm.
          + rewrite (get_put_ne deduced n Nq). exact Gm.
        - exists n. apply get_put_eq. rewrite L. exact Hp. }
      destruct Gq as [m Gm]. rewrite (E' q m Gm). discriminate.
    + intros s Hs' Hext. apply (F' s Hs').
      pose proof (proj1 (extends_bfe B _ s (fun e H => proj1 (Cn e H)) NDn) Hext) as X.
      intros q m Gq. destruct (Nat.eq_dec pos q) as [<-|Nq].
      * rewrite (get_put_eq deduced n (eq_ind_r (fun k => pos < k) Hp L)) in Gq.
        rewrite <- Gq.
        apply (X (pos, Some n)); [|discriminate].
        apply in_or_app. right. left. reflexivity.
      * rewrite (get_put_ne deduced n Nq) in Gq.
        apply (Hf s Hs'); [|exact Gq].
        apply (proj2 (extends_bfe B puzzle s (fun e H => proj1 (Hc e H)) ND)).
        intros e Hin Hsome. apply (X e); [|exact Hsome].
        apply in_or_app. left. exact Hin.
    + destruct v as [g|].
      * destruct V as [[_ [N _]]|[_ N]].
        -- exfalso. exact (N B HB He1).
        -- right. right. exact N.
      * right. left. exact V.
Qed.

Lemma reveal_fold (B : board) (order : list nat) :
  solved B ->
  forall seen puzzle deduced o,
    (forall p, In p order -> p < 81) ->
    reveal_inv B seen puzzle deduced ->
    exists puzzle' deduced' o',
      fold_left (reveal B) order (Some (puzzle, deduced, o))
      = Some (puzzle', deduced', o') /\
      reveal_inv B (seen ++ order) puzzle' deduced'.
Proof.
  intro HB. induction order as [|p order IH]; intros seen puzzle deduced o Hlt Inv.
  - exists puzzle, deduced, o. split; [reflexivity|]. rewrite app_nil_r. exact Inv.
  - destruct (reveal_step B seen puzzle deduced o p HB (Hlt p (or_introl eq_refl)) Inv)
      as [pz1 [d1 [o1 [R [Inv1 _]]]]].
    destruct (IH (seen ++ [p]) pz1 d1 o1 (fun q Hq => Hlt q (or_intror Hq)) Inv1)
      as [pz2 [d2 [o2 [R2 Inv2]]]].
    exists pz2, d2, o2. split.
    + cbn [fold_left]. rewrite R. exact R2.
    + rewrite <- app_assoc in Inv2. exact Inv2.
Qed.

(** The clues of the first loop determine the solved board, and leave a
    cell out. *)
Lemma reveal_all (B : board) (o : oracle) (order : list nat) (o1 : oracle) :
  solved B -> sample_range 81 o = (order, o1) ->
  exists puzzle deduced o2,
    fold_left (reveal B) order (Some ([], repeat None 81, o1))
    = Some (puzzle, deduced, o2) /\
    (forall e, In e puzzle -> clue_of B e) /\
    NoDup (map fst puzzle) /\
    unique_solution (boardforentries puzzle) B /\
    exists p, p < 81 /\ ~ In p (map fst puzzle).
Proof.
  intros HB Es.
  assert (P : Permutation order (seq 0 81)).
  { pose proof (shuffle_perm (seq 0 81) o) as P. unfold sample_range in Es.
    rewrite Es in P. exact P. }
  assert (Hlt : forall p, In p order -> p < 81).
  { intros p Hp. pose proof (Permutation_in p P Hp) as H. apply in_seq in H. lia. }
  assert (Hall : forall p, p < 81 -> In p order).
  { intros p Hp. apply (Permutation_in p (Permutation_sym P)). apply in_seq. lia. }
  assert (NDo : NoDup order)
    by exact (Permutation_NoDup (Permutation_sym P) (seq_NoDup 81 0)).
  assert (Hne : order <> []).
  { intro E. rewrite E in Hall. exact (Hall 0 ltac:(lia)). }
  destruct (exists_last Hne) as [init [pl Eo]]. subst order.
  assert (Hpl : ~ In pl init).
  { intro H. pose proof (NoDup_remove_2 init [] pl NDo) as X.
    rewrite app_nil_r in X. exact (X H). }
  assert (Plt : pl < 81).
  { apply Hlt. apply in_or_app. right. left. reflexivity. }
  destruct (reveal_fold B init HB [] [] (repeat None 81) o1
              (fun q Hq => Hlt q (in_or_app _ _ _ (or_introl Hq)))
              (reveal_inv_init B))
    as [pz1 [d1 [o2 [R1 Inv1]]]].
  cbn [app] in Inv1.
  destruct (reveal_step B init pz1 d1 o2 pl HB Plt Inv1)
    as [pz2 [d2 [o3 [R2 [Inv2 Skip]]]]].
  assert (Hin : forall q, q < 81 -> q <> pl -> In q init).
  { intros q Hq Nq. pose proof (Hall q Hq) as H. apply in_app_or in H.
    destruct H as [H|[H|[]]]; [exact H|]. exfalso. apply Nq. symmetry. exact H. }
  assert (Gpl : get d1 pl <> None).
  { intro G. destruct Inv1 as [L [He [_ [_ [Hs [_ Hv]]]]]].
    destruct Hv as [Ev|[Sv|Nv]].
    - assert (Hq : exists q, q < 81 /\ q <> pl).
      { destruct (Nat.eq_dec pl 0) as [->|N0]; [exists 1|exists 0]; split; lia. }
      destruct Hq as [q [Hq Nq]]. apply (Hs q (Hin q Hq Nq)).
      rewrite Ev. unfold get. apply nth_repeat_lt. exact Hq.
    - destruct (solved_digit Sv Plt) as [n [_ En]]. rewrite En in G. discriminate G.
    - apply Nv. apply (last_naked B d1 pl HB He L Plt G).
      intros q Hq Nq. exact (Hs q (Hin q Hq Nq)). }
  destruct (Skip Gpl) as [-> ->].
  exists pz1, d1, o3. split.
  - rewrite fold_left_app.
    exact (eq_trans (f_equal (fun st => fold_left (reveal B) [pl] st) R1) R2).
  - destruct Inv2 as [L [He [Hc [ND [Hs [Hf _]]]]]].
    assert (Full : forall p, p < 81 -> get d1 p <> None)
      by (intros p Hp; exact (Hs p (Hall p Hp))).
    assert (Ed : B = d1)
      by exact (@extends_full B d1 (solved_length HB) L Full He).
    split; [intros e Hin'; exact (proj1 (Hc e Hin'))|]. split; [exact ND|].
    split.
    + split; [exact HB|]. split.
      * exact (clues_extend B pz1 (fun e H => proj1 (Hc e H)) ND).
      * intros s Hs' Hext. rewrite Ed.
        apply (@extends_full s d1 (solved_length Hs') L Full).
        exact (Hf s Hs' Hext).
    + exists pl. split; [exact Plt|].
      intro H. apply in_map_iff in H. destruct H as [e [Ee H]].
      destruct Inv1 as [_ [_ [Hc1 _]]].
      destruct (Hc1 e H) as [_ S]. rewrite Ee in S. exact (Hpl S).
Qed.

(** ** The second loop: dropping the clues that are not needed *)

Lemma del_nth_middle {A : Type} (l1 l2 : list A) (a : A) :
  del_nth (l1 ++ a :: l2) (length l1) = l1 ++ l2.
Proof.
  induction l1 as [|x l1 IH]; [reflexivity|].
  cbn [app length del_nth]. rewrite IH. reflexivity.
Qed.

Lemma unique_more (b1 b2 B : board) :
  (forall s, solved s -> extends s b2 -> extends s b1) -> extends B b2 ->
  unique_solution b1 B -> unique_solution b2 B.
Proof.
  intros H He [Hs [_ Hu]]. split; [exact Hs|]. split; [exact He|].
  intros s' Hs' He'. exact (Hu s' Hs' (H s' Hs' He')).
Qed.

Lemma prune_none (fuel : nat) (B : board) (idxs : list nat) :
  fold_left (prune fuel B) idxs None = None.
Proof. induction idxs as [|i idxs IH]; [reflexivity|exact IH]. Qed.

Lemma prune_step (fuel : nat) (B : board) (pre kept : entries) (e : nat * cell)
      (o : oracle) (st' : entries * oracle) :
  solved B -> prune_inv B (pre ++ e :: kept) kept ->
  prune fuel B (Some (pre ++ e :: kept, o)) (length pre) = Some st' ->
  exists kept',
    fst st' = pre ++ kept' /\ prune_inv B (pre ++ kept') kept' /\
    forall x, In x (pre ++ kept') -> In x (pre ++ e :: kept).
Proof.
  intros HB [Cold [NDold [U K]]] H. unfold prune in H.
  rewrite nth_middle, del_nth_middle in H.
  destruct (checkpuzzle fuel (boardforentries (pre ++ kept)) (Some B) o)
    as [[rating o']|] eqn:C; [|discriminate H].
  pose proof (checkpuzzle_unique fuel (boardforentries (pre ++ kept)) B o rating o'
                (bfe_length _) (solved_length HB) C) as Q.
  assert (Sub : forall x, In x (pre ++ kept) -> In x (pre ++ e :: kept)).
  { intros x Hx. apply in_app_or in Hx. apply in_or_app.
    destruct Hx as [Hx|Hx]; [left; exact Hx|right; right; exact Hx]. }
  assert (C' : forall x, In x (pre ++ kept) -> clue_of B x)
    by (intros x Hx; exact (Cold x (Sub x Hx))).
  assert (NDm : NoDup (map fst pre ++ fst e :: map fst kept)).
  { rewrite map_app in NDold. exact NDold. }
  assert (ND' : NoDup (map fst (pre ++ kept))).
  { rewrite map_app. exact (NoDup_remove_1 _ _ _ NDm). }
  assert (Ne : forall x, In x (pre ++ kept) -> fst x <> fst e).
  { intros x Hx E. apply (NoDup_remove_2 _ _ _ NDm). rewrite <- map_app, <- E.
    apply in_map. exact Hx. }
  assert (Back : forall x, In x (pre ++ e :: kept) -> fst x <> fst e ->
                           In x (pre ++ kept)).
  { intros x Hx Nx. apply in_app_or in Hx. apply in_or_app.
    destruct Hx as [Hx|[Hx|Hx]]; [left; exact Hx| |right; exact Hx].
    exfalso. apply Nx. rewrite Hx. reflexivity. }
  assert (Bold : forall q, extends B (set_nth (boardforentries (pre ++ e :: kept)) q None)).
  { intro q. apply (proj2 (extends_bfe_without B _ B q Cold NDold)).
    intros x Hx _ _. symmetry. exact (proj2 (Cold x Hx)). }
  destruct (rating =? -1)%Z eqn:R.
  - apply Z.eqb_eq in R. injection H as <-. cbn [fst].
    exists (kept ++ [e]). rewrite <- app_assoc.
    assert (To : forall x, In x (pre ++ kept ++ [e]) -> In x (pre ++ e :: kept)).
    { intros x Hx. apply in_app_or in Hx. apply in_or_app.
      destruct Hx as [Hx|Hx]; [left; exact Hx|]. right.
      apply in_app_or in Hx. destruct Hx as [Hx|[Hx|[]]];
        [right; exact Hx|left; exact Hx]. }
    assert (From : forall x, In x (pre ++ e :: kept) -> In x (pre ++ kept ++ [e])).
    { intros x Hx. apply in_app_or in Hx. apply in_or_app.
      destruct Hx as [Hx|[Hx|Hx]]; [left; exact Hx| |].
      - right. apply in_or_app. right. left. exact Hx.
      - right. apply in_or_app. left. exact Hx. }
    assert (Cn : forall x, In x (pre ++ kept ++ [e]) -> clue_of B x)
      by (intros x Hx; exact (Cold x (To x Hx))).
    assert (NDn : NoDup (map fst (pre ++ kept ++ [e]))).
    { apply (Permutation_NoDup (l := map fst (pre ++ e :: kept))); [|exact NDold].
      apply Permutation_map. apply Permutation_app_head.
      apply Permutation_cons_append. }
    split; [reflexivity|]. split; [|exact To].
    split; [exact Cn|]. split; [exact NDn|]. split.
    + apply (unique_same (boardforentries (pre ++ e :: kept))); [|exact U].
      intros s _. rewrite (extends_bfe B _ s Cold NDold), (extends_bfe B _ s Cn NDn).
      split; intros X x Hx; [exact (X x (To x Hx))|exact (X x (From x Hx))].
    + intros k Hk Uk. apply in_app_or in Hk. destruct Hk as [Hk|[<-|[]]].
      * apply (K k Hk).
        apply (unique_same (set_nth (boardforentries (pre ++ kept ++ [e])) (fst k) None));
          [|exact Uk].
        intros s _.
        rewrite (extends_bfe_without B _ s (fst k) Cold NDold),
                (extends_bfe_without B _ s (fst k) Cn NDn).
        split; intros X x Hx; [exact (X x (From x Hx))|exact (X x (To x Hx))].
      * assert (Uq : unique_solution (boardforentries (pre ++ kept)) B).
        { apply (unique_same (set_nth (boardforentries (pre ++ kept ++ [e])) (fst e) None));
            [|exact Uk].
          intros s _.
          rewrite (extends_bfe_without B _ s (fst e) Cn NDn),
                  (extends_bfe B _ s C' ND').
          split.
          - intros X x Hx. exact (X x (From x (Sub x Hx)) (Ne x Hx)).
          - intros X x Hx Nx. exact (X x (Back x (To x Hx) Nx)). }
        apply (proj2 Q) in Uq. apply Uq. exact R.
  - apply Z.eqb_neq in R. injection H as <-. cbn [fst].
    exists kept. split; [reflexivity|]. split; [|exact Sub].
    split; [exact C'|]. split; [exact ND'|]. split; [exact (proj1 Q R)|].
    intros k Hk Uk. apply (K k Hk).
    apply (unique_more (set_nth (boardforentries (pre ++ kept)) (fst k) None));
      [|exact (Bold (fst k))|exact Uk].
    intros s _.
    rewrite (extends_bfe_without B _ s (fst k) Cold NDold),
            (extends_bfe_without B _ s (fst k) C' ND').
    intros X x Hx. exact (X x (Sub x Hx)).
Qed.

Lemma prune_fold (fuel : nat) (B : board) (pre : entries) :
  solved B ->
  forall (kept : entries) (o : oracle) (res : entries) (o' : oracle),
    prune_inv B (pre ++ kept) kept ->
    fold_left (prune fuel B) (rev (seq 0 (length pre))) (Some (pre ++ kept, o))
    = Some (res, o') ->
    prune_inv B res res /\ forall x, In x res -> In x (pre ++ kept).
Proof.
  intro HB. induction pre as [|e pre IH] using rev_ind; intros kept o res o' Inv H.
  - cbn in H. injection H as <- <-. split; [exact Inv|]. intros x Hx. exact Hx.
  - rewrite length_app in H. cbn [length] in H. rewrite Nat.add_1_r in H.
    rewrite seq_S, rev_app_distr in H. cbn [rev app fold_left Nat.add] in H.
    rewrite <- app_assoc in H, Inv. cbn [app] in H, Inv.
    destruct (prune fuel B (Some (pre ++ e :: kept, o)) (length pre))
      as [st1|] eqn:P; [|rewrite prune_none in H; discriminate H].
    destruct (prune_step fuel B pre kept e o st1 HB Inv P) as [kept' [E1 [Inv1 Sub]]].
    destruct st1 as [pz1 o1]. cbn [fst] in E1. subst pz1.
    destruct (IH kept' o1 res o' Inv1 H) as [R S].
    split; [exact R|]. intros x Hx. rewrite <- app_assoc. cbn [app].
    exact (Sub x (S x Hx)).
Qed.

Lemma prune_total (B : board) (idxs : list nat) :
  forall st : entries * oracle,
  exists F r, forall fuel, F <= fuel -> fold_left (prune fuel B) idxs (Some st) = Some r.
Proof.
  induction idxs as [|i idxs IH]; intros [pz o].
  - exists 0, (pz, o). intros fuel _. reflexivity.
  - destruct (checkpuzzle_total (boardforentries (del_nth pz i)) (Some B) o
                (bfe_length _)) as [F1 [[rating o1] C]].
    destruct (IH (if (rating =? -1)%Z
                  then (del_nth pz i ++ [nth i pz (0, None)], o1)
                  else (del_nth pz i, o1))) as [F2 [r R]].
    exists (Nat.max F1 F2), r. intros fuel Hf. cbn [fold_left]. unfold prune at 2.
    rewrite (checkpuzzle_more F1 fuel _ _ _ _ C (Nat.le_trans _ _ _ (Nat.le_max_l F1 F2) Hf)).
    pose proof (R fuel (Nat.le_trans _ _ _ (Nat.le_max_r F1 F2) Hf)) as R'.
    destruct (rating =? -1)%Z; exact R'.
Qed.

(** ** makepuzzle *)

Lemma makepuzzle_runs (fuel : nat) (B : board) (o : oracle) (P : board) (o' : oracle) :
  solved B -> makepuzzle fuel B o = Some (P, o') ->
  exists puzzle : entries,
    P = boardforentries puzzle /\ prune_inv B puzzle puzzle /\
    exists p, p < 81 /\ ~ In p (map fst puzzle).
Proof.
  intros HB H. unfold makepuzzle in H.
  destruct (sample_range 81 o) as [order o1] eqn:Es.
  destruct (reveal_all B o order o1 HB Es)
    as [puzzle [deduced [o2 [R [C [ND [U [p [Hp Np]]]]]]]]].
  rewrite R in H.
  destruct (shuffle puzzle o2) as [puzzle1 o3] eqn:Sh.
  assert (Pm : Permutation puzzle1 puzzle).
  { pose proof (shuffle_perm puzzle o2) as X. rewrite Sh in X. exact X. }
  destruct (fold_left (prune fuel B) (rev (seq 0 (length puzzle1)))
                      (Some (puzzle1, o3))) as [[puzzle2 o4]|] eqn:F;
    [|discriminate H].
  injection H as <- <-.
  assert (C1 : forall e, In e puzzle1 -> clue_of B e)
    by (intros e He; exact (C e (Permutation_in e Pm He))).
  assert (ND1 : NoDup (map fst puzzle1))
    by exact (Permutation_NoDup (Permutation_map fst (Permutation_sym Pm)) ND).
  assert (Inv : prune_inv B (puzzle1 ++ []) []).
  { rewrite app_nil_r. split; [exact C1|]. split; [exact ND1|]. split; [|intros e []].
    apply (unique_same (boardforentries puzzle)); [|exact U].
    intros s _. rewrite (extends_bfe B _ s C ND), (extends_bfe B _ s C1 ND1).
    split; intros X x Hx.
    - exact (X x (Permutation_in x Pm Hx)).
    - exact (X x (Permutation_in x (Permutation_sym Pm) Hx)). }
  assert (F' : fold_left (prune fuel B) (rev (seq 0 (length puzzle1)))
                         (Some (puzzle1 ++ [], o3)) = Some (puzzle2, o4))
    by (rewrite app_nil_r; exact F).
  destruct (prune_fold fuel B puzzle1 HB [] o3 puzzle2 o4 Inv F') as [Inv2 Sub].
  exists puzzle2. split; [reflexivity|]. split; [exact Inv2|].
  exists p. split; [exact Hp|].
  intro Hin. apply Np. apply in_map_iff in Hin. destruct Hin as [e [Ee He]].
  apply in_map_iff. exists e. split; [exact Ee|].
  apply (Permutation_in e Pm). pose proof (Sub e He) as X.
  rewrite app_nil_r in X. exact X.
Qed.

Lemma makepuzzle_total (B : board) (o : oracle) :
  solved B -> exists fuel r, makepuzzle fuel B o = Some r.
Proof.
  intro HB. unfold makepuzzle.
  destruct (sample_range 81 o) as [order o1] eqn:Es.
  destruct (reveal_all B o order o1 HB Es) as [puzzle [deduced [o2 [R _]]]].
  rewrite R.
  destruct (shuffle puzzle o2) as [puzzle1 o3].
  destruct (prune_total B (rev (seq 0 (length puzzle1))) (puzzle1, o3))
    as [F [[puzzle2 o4] H]].
  exists F, (boardforentries puzzle2, o4).
  exact (f_equal (fun x : option (entries * oracle) =>
                    match x with
                    | None => None
                    | Some (p2, o5) => Some (boardforentries p2, o5)
                    end) (H F (le_n F))).
Qed.

(** X20.  [makepuzzle] on a solved board [B], for every sequence of draws:
    it returns; the puzzle [P] it returns has 81 cells, has [B] as its one
    solution and no other, and has fewer filled cells than [B]; and [P] is
    locally minimal: with any one of its clues removed the board no longer
    has [B] as its only solution.  In terms of [checkpuzzle]: on [P] with
    target [B] it does not return -1, and on [P] less one clue it does. *)
Theorem makepuzzle_minimal (B : board) (o : oracle) :
  solved B ->
  (exists fuel r, makepuzzle fuel B o = Some r) /\
  forall fuel P o',
    makepuzzle fuel B o = Some (P, o') ->
    length P = 81 /\
    unique_solution P B /\
    filled P < filled B /\
    (forall p, get P p <> None -> ~ unique_solution (set_nth P p None) B) /\
    (forall fuel' o1 r o2,
        checkpuzzle fuel' P (Some B) o1 = Some (r, o2) -> r <> (-1)%Z) /\
    (forall p fuel' o1 r o2,
        get P p <> None ->
        checkpuzzle fuel' (set_nth P p None) (Some B) o1 = Some (r, o2) ->
        r = (-1)%Z).
Proof.
  intro HB. split; [exact (makepuzzle_total B o HB)|].
  intros fuel P o' H.
  destruct (makepuzzle_runs fuel B o P o' HB H)
    as [puzzle [-> [[C [ND [U K]]] [q [Hq Nq]]]]].
  assert (F : Forall (fun e : nat * cell => fst e < 81) puzzle).
  { apply Forall_forall. intros e He. exact (proj1 (C e He)). }
  assert (M : forall p, get (boardforentries puzzle) p <> None ->
                        ~ unique_solution (set_nth (boardforentries puzzle) p None) B).
  { intros p Hp. destruct (get (boardforentries puzzle) p) as [n|] eqn:G;
      [|contradiction Hp; reflexivity].
    rewrite (bfe_last puzzle p F) in G.
    assert (Hin : In (p, Some n) puzzle)
      by (apply (last_entry_some puzzle p (Some n) G); discriminate).
    exact (K (p, Some n) Hin). }
  split; [apply bfe_length|]. split; [exact U|]. split; [|split; [exact M|split]].
  - rewrite (solved_filled B HB).
    pose proof (empty_cell_fewer (boardforentries puzzle) q) as X.
    rewrite bfe_length in X. exact (X Hq (bfe_empty_cell puzzle q F Nq)).
  - intros fuel' o1 r o2 Ck.
    exact (proj2 (checkpuzzle_unique fuel' _ B o1 r o2 (bfe_length _)
                    (solved_length HB) Ck) U).
  - intros p fuel' o1 r o2 Hp Ck.
    assert (L : length (set_nth (boardforentries puzzle) p None) = 81)
      by (rewrite length_set_nth; apply bfe_length).
    destruct (Z.eq_dec r (-1)) as [E|E]; [exact E|]. exfalso.
    exact (M p Hp (proj1 (checkpuzzle_unique fuel' _ B o1 r o2 L
                            (solved_length HB) Ck) E)).
Qed.

Lemma makepuzzle_minimal_witness :
  (exists fuel r, makepuzzle fuel shifted_rows [7; 1; 8; 2; 8] = Some r) /\
  forall fuel P o',
    makepuzzle fuel shifted_rows [7; 1; 8; 2; 8] = Some (P, o') ->
    length P = 81 /\
    unique_solution P shifted_rows /\
    filled P < filled shifted_rows /\
    (forall p, get P p <> None -> ~ unique_solution (set_nth P p None) shifted_rows) /\
    (forall fuel' o1 r o2,
        checkpuzzle fuel' P (Some shifted_rows) o1 = Some (r, o2) -> r <> (-1)%Z) /\
    (forall p fuel' o1 r o2,
        get P p <> None ->
        checkpuzzle fuel' (set_nth P p None) (Some shifted_rows) o1 = Some (r, o2) ->
        r = (-1)%Z).
Proof. apply (makepuzzle_minimal shifted_rows [7; 1; 8; 2; 8]). exact shifted_rows_solved. Defined.


(** * The search stack *)

(** ** Its depth *)

Lemma chain_depth (st : stack) :
  forall f, chain (f :: st) -> length (f :: st) <= S (filled (snd f)).
Proof.
  induction st as [|f2 st IH]; intros f C.
  - cbn [length]. lia.
  - destruct C as [_ [Hlt C2]]. pose proof (IH f2 C2) as X.
    cbn [length] in X |- *. lia.
Qed.

(** When a search returns a solution, the frame on top of the stack is
    the one the solution was found from: it has a guess behind its
    counter. *)
Lemma solvenext_top (fuel : nat) (st : stack) (o : oracle)
      (st' : stack) (w : board) (o' : oracle) :
  solvenext fuel st o = Some (st', Some w, o') ->
  exists gs c b rest, st' = (gs, c + 1, b) :: rest /\ c < length gs.
Proof.
  intro H.
  refine (solvenext_inv (fun _ => True)
            (fun st' ans => ans <> None ->
                            exists gs c b rest,
                              st' = (gs, c + 1, b) :: rest /\ c < length gs)
            _ _ _ fuel st o st' (Some w) o' I H _); [| | |discriminate].
  - intros _ X. contradiction X. reflexivity.
  - intros. exact I.
  - intros gs c b rest o1 w1 v o2 _ Hc _. destruct v as [g|]; [exact I|].
    intros _. exists gs, c, b, rest. split; [reflexivity|exact Hc].
Qed.

Lemma solveboard_depth (fuel : nat) (original : board) (o : oracle)
      (st : stack) (ans : option board) (o' : oracle) :
  length original = 81 -> solveboard fuel original o = Some (st, ans, o') ->
  length st <= 81.
Proof.
  intros L H. destruct ans as [w|].
  - destruct (solveboard_reachable original fuel o st (Some w) o' H) as [->|R];
      [cbn [length]; lia|].
    pose proof (reachable_chain original st L R) as C.
    unfold solveboard in H.
    destruct (deduce original o) as [[[b v] o1]|]; [|discriminate H].
    destruct v as [gs|].
    + destruct (solvenext_top fuel _ o1 st w o' H) as [g [c [b' [rest [-> Hc]]]]].
      pose proof (chain_depth rest _ C) as D. cbn [snd] in D.
      destruct C as [[Lb Wf] _]. cbn [fst snd] in Lb, Wf.
      assert (Hin : In (nth c g (0, 0)) g) by (apply nth_In; exact Hc).
      destruct (nth c g (0, 0)) as [p n].
      destruct (Wf p n Hin) as [Hp He].
      pose proof (empty_cell_fewer b' p (eq_ind_r (fun k => p < k) Hp Lb) He) as X.
      rewrite Lb in X. exact (Nat.le_trans _ _ _ D X).
    + injection H as <- _ _. cbn [length]. lia.
  - rewrite (solveboard_none fuel original o st None o' H eq_refl). cbn [length]. lia.
Qed.

(** X21.  The stack a search returns is never deeper than 81 frames, so
    the difficulty that [checkpuzzle] returns for a puzzle of 81 cells is
    -1 or a number from 0 to 81. *)
Theorem difficulty_bounded (puzzle : board) (o : oracle) :
  length puzzle = 81 ->
  (forall fuel st ans o',
      solveboard fuel puzzle o = Some (st, ans, o') -> length st <= 81) /\
  (forall fuel target r o',
      checkpuzzle fuel puzzle target o = Some (r, o') ->
      r = (-1)%Z \/ (0 <= r <= 81)%Z).
Proof.
  intro L. split.
  - intros fuel st ans o'. exact (solveboard_depth fuel puzzle o st ans o' L).
  - intros fuel target r o' H.
    destruct (checkpuzzle_cases fuel puzzle target o r o' H) as [st1 [ans1 [o1 [S C]]]].
    pose proof (solveboard_depth fuel puzzle o st1 ans1 o1 L S) as D.
    destruct C as [[_ ->]|[[a [t [_ [_ [_ ->]]]]]|[a [st2 [ans2 [_ [_ [_ C]]]]]]]];
      [left; reflexivity|left; reflexivity|].
    destruct C as [[_ ->]|[_ ->]]; [left; reflexivity|right; lia].
Qed.

Lemma difficulty_bounded_witness :
  (forall fuel st ans o',
      solveboard fuel sample_puzzle [2; 7] = Some (st, ans, o') -> length st <= 81) /\
  (forall fuel target r o',
      checkpuzzle fuel sample_puzzle target [2; 7] = Some (r, o') ->
      r = (-1)%Z \/ (0 <= r <= 81)%Z).
Proof. apply (difficulty_bounded sample_puzzle [2; 7]). reflexivity. Defined.

(** ** Its boards in the store *)

Lemma solvenext_at_fresh (fuel : nat) :
  forall (h : heap) (st : hstack) (o : oracle)
         (h' : heap) (st' : hstack) (l : loc) (o' : oracle),
    Forall (fun f : hframe => snd f < length h) st ->
    solvenext_at fuel h st o = Some (h', st', Some l, o') ->
    length h <= l /\ Forall (fun f : hframe => snd f < l) st'.
Proof.
  induction fuel as [|fuel IH]; intros h st o h' st' l o' F H; [discriminate H|].
  simpl in H. destruct st as [|[[gs c] bl] rest]; [discriminate H|].
  assert (Fb : bl < length h) by (inversion F; assumption).
  assert (Fr : Forall (fun f : hframe => snd f < length h) rest)
    by (inversion F; assumption).
  destruct (length gs <=? c).
  - exact (IH h rest o h' st' l o' Fr H).
  - unfold alloc in H. destruct (nth c gs (0, 0)) as [p n].
    destruct (deduce_at _ (length h) o) as [[[h3 v] o1]|] eqn:D; [|discriminate H].
    destruct (workspace_step h (read h bl) p n o h3 v o1 D) as [w [_ [_ [L3 _]]]].
    destruct v as [gs'|].
    + assert (F3 : Forall (fun f : hframe => snd f < length h3)
                          ((gs', 0, length h) :: (gs, c + 1, bl) :: rest)).
      { rewrite L3. constructor; [cbn [snd]; lia|].
        constructor; [cbn [snd]; lia|].
        apply Forall_forall. intros f Hf.
        pose proof (proj1 (Forall_forall _ _) Fr f Hf). cbn beta in *. lia. }
      destruct (IH h3 _ o1 h' st' l o' F3 H) as [A B].
      split; [lia|exact B].
    + injection H as _ <- <- _. split; [apply le_n|].
      constructor; [exact Fb|exact Fr].
Qed.

(** X22.  The boards of a search are lists of their own.  When
    [solveboard] returns a solution, that board is a list made during the
    call: it is not the caller's board nor any list that existed before,
    and no frame of the returned stack holds it, so that going on with
    [solvenext], as [checkpuzzle] does, cannot change the solution already
    returned.  The lists are those the search on plain board values
    computes. *)
Theorem solution_is_new_list (fuel : nat) (h : heap) (b : loc) (o : oracle)
        (h' : heap) (st : hstack) (l : loc) (o' : oracle) :
  b < length h ->
  solveboard_at fuel h b o = Some (h', st, Some l, o') ->
  length h <= l /\ l < length h' /\
  Forall (fun f : hframe => snd f <> l) st /\
  solveboard fuel (read h b) o = Some (map (deref h') st, Some (read h' l), o') /\
  forall fuel2 h2 st2 ans2 o2,
    solvenext_at fuel2 h' st o' = Some (h2, st2, ans2, o2) ->
    read h2 l = read h' l /\ read h2 b = read h b.
Proof.
  intros Hb H.
  destruct (solveboard_at_sim fuel h b o h' st (Some l) o' H) as [P [Fs [Al Sim]]].
  assert (Fr : length h <= l /\ Forall (fun f : hframe => snd f < l) st).
  { unfold solveboard_at, alloc in H.
    destruct (deduce_at (h ++ [read h b]) (length h) o) as [[[h2 v] o1]|] eqn:D;
      [|discriminate H].
    assert (L2 : length h2 = S (length h)).
    { unfold deduce_at in D.
      destruct (deduce (read (h ++ [read h b]) (length h)) o) as [[[w v1] o2]|];
        [|discriminate D].
      injection D as <- _ _. rewrite length_write, length_app. cbn [length]. lia. }
    destruct v as [gs|].
    - assert (F : Forall (fun f : hframe => snd f < length h2) [(gs, 0, length h)])
        by (constructor; [cbn [snd]; lia|constructor]).
      destruct (solvenext_at_fresh fuel h2 _ o1 h' st l o' F H) as [A B].
      split; [lia|exact B].
    - injection H as _ <- <- _. split; [apply le_n|constructor]. }
  destruct Fr as [Fl Fst].
  split; [exact Fl|]. split; [exact (Al l eq_refl)|]. split.
  - apply Forall_forall. intros f Hf.
    pose proof (proj1 (Forall_forall _ _) Fst f Hf). cbn beta in *. lia.
  - split; [exact Sim|].
    intros fuel2 h2 st2 ans2 o2 H2.
    destruct (solvenext_at_sim fuel2 h' st o' h2 st2 ans2 o2 Fs H2) as [[L2 R2] _].
    split; [exact (R2 l (Al l eq_refl))|].
    destruct P as [L1 R1].
    rewrite (R2 b (Nat.lt_le_trans _ _ _ Hb L1)). exact (R1 b Hb).
Qed.

Lemma solution_is_new_list_witness :
  exists h' st l o',
    solveboard_at 200 [sample_puzzle] 0 [] = Some (h', st, Some l, o') /\
    length [sample_puzzle] <= l /\ l < length h' /\
    Forall (fun f : hframe => snd f <> l) st /\
    solveboard 200 (read [sample_puzzle] 0) []
    = Some (map (deref h') st, Some (read h' l), o') /\
    forall fuel2 h2 st2 ans2 o2,
      solvenext_at fuel2 h' st o' = Some (h2, st2, ans2, o2) ->
      read h2 l = read h' l /\ read h2 0 = read [sample_puzzle] 0.
Proof.
  destruct (solveboard_at 200 [sample_puzzle] 0 []) as [[[[h' st] [l|]] o']|] eqn:S;
    [|vm_compute in S; discriminate S|vm_compute in S; discriminate S].
  exists h', st, l, o'. split; [reflexivity|].
  apply (solution_is_new_list 200 [sample_puzzle] 0 [] h' st l o');
    [cbn [length]; lia|exact S].
Defined.
